(** * Image-Stochastic-Resonance: the adaptive noise engine

    A shallow embedding of the numerical core of the repository:

    - [adaptive-sr.py]: the condition model, the scalar noise level and
      the region-gated filter [AdaptiveSR.apply_sr];
    - [sr_gui.py]: [apply_image_modifications] with its selectable noise,
      salt and pepper among them;
    - [sr_video_gui.py]: the seeded variant of [apply_image_modifications];
    - [sr_sandbox.py]: the spatial noise map of [adaptive_sr].

    Conventions.  A Python [float] is modelled by an exact rational ([Q]);
    rounding of binary64 is not modelled, except where a float is
    converted to an [int]: there the result depends on the rounding, and
    the operations are rounded with [binary64].  A [uint8] sample is a [Z] with
    the conversion [astype_uint8] written out.  NumPy arrays are nested
    lists (rows, then columns, then channels).  What the code obtains from
    NumPy's random generator, OpenCV and PIL is taken through the
    interfaces [Numpy], [OpenCV] and [PIL]; those libraries are not
    part of the repository. *)

From Stdlib Require Import QArith Qround Qpower Lqa ZArith Lia.
From stdpp Require Import gmap list strings.

(** ** Python values shared by all modules *)

Module Py.

(** Exceptions that the modelled code can raise. *)
Inductive exn :=
  | KeyError      (* dict lookup with a missing key *)
  | ValueError    (* tuple unpacking of the wrong arity, shape mismatch *)
  | CvError.      (* cv2.error: a failed OpenCV assertion *)

Inductive result (A : Type) :=
  | Ok (a : A)
  | Raise (e : exn).
Arguments Ok {A} a.
Arguments Raise {A} e.

Definition rbind {A B} (r : result A) (k : A -> result B) : result B :=
  match r with
  | Ok a => k a
  | Raise e => Raise e
  end.

(** [d[k]] on a dict: a missing key raises [KeyError]. *)
Definition getitem `{Countable K} {V} (d : gmap K V) (k : K) : result V :=
  match d !! k with
  | Some v => Ok v
  | None => Raise KeyError
  end.

Open Scope Q_scope.

(** [np.maximum], [np.minimum] and [np.clip] on scalars;
    [np.clip(a, lo, hi)] is [minimum(maximum(a, lo), hi)]. *)
Definition np_maximum (a b : Q) : Q := if Qle_bool a b then b else a.
Definition np_minimum (a b : Q) : Q := if Qle_bool a b then a else b.
Definition np_clip (a lo hi : Q) : Q := np_minimum (np_maximum a lo) hi.

(** Conversion of a float to an integer: truncation toward zero. *)
Definition trunc (q : Q) : Z := Z.quot (Qnum q) (Zpos (Qden q)).

(** Rounding to the nearest integer, a tie going to the even one. *)
Definition round_half_even (q : Q) : Z :=
  let f := Qfloor q in
  match Qcompare (q - inject_Z f) (1 # 2) with
  | Lt => f
  | Eq => if Z.even f then f else (f + 1)%Z
  | Gt => (f + 1)%Z
  end.

(** For [q > 0], the exponent [e] with [2 ^ e <= q < 2 ^ (e + 1)]. *)
Definition ilog2 (q : Q) : Z :=
  let e := (Z.log2 (Qnum q) - Z.log2 (Zpos (Qden q)))%Z in
  if Qle_bool (2 ^ e) q then e else (e - 1)%Z.

(** For [q > 0], the nearest number with a significand of 53 bits. *)
Definition round53 (q : Q) : Q :=
  let e := (ilog2 q - 52)%Z in
  inject_Z (round_half_even (q / 2 ^ e)) * 2 ^ e.

(** The value of a binary64 operation whose exact result is [q]: the
    nearest number with a significand of 53 bits, a tie going to the even
    significand.  The range of the exponent is not modelled; the results
    are those of the machine for magnitudes from [2 ^ -1022] up to the
    largest float. *)
Definition binary64 (q : Q) : Q :=
  match Qnum q with
  | Z0 => 0
  | Zpos _ => round53 q
  | Zneg _ => - round53 (- q)
  end.

(** [.astype(np.uint8)] of a float: truncate, then keep the low 8 bits. *)
Definition astype_uint8 (q : Q) : Z := Z.modulo (trunc q) 256.

(** [a:b] on an axis of length [len]: the start and stop indices after
    Python's adjustment of negative and out-of-range bounds (step 1). *)
Definition adjust_index (i len : Z) : Z :=
  if (i <? 0)%Z then (if (i + len <? 0)%Z then 0 else i + len)%Z
  else if (len <=? i)%Z then len else i.

Definition slice_indices (start stop : Z) (len : nat) : nat * nat :=
  let s := adjust_index start (Z.of_nat len) in
  let e := adjust_index stop (Z.of_nat len) in
  (Z.to_nat s, Z.to_nat (Z.max s e)).

Close Scope Q_scope.

End Py.

Import Py.

Declare Scope py_scope.
Delimit Scope py_scope with py.
Notation "'let*' x ':=' e 'in' k" := (rbind e (fun x => k))
  (at level 10, x pattern, e at level 100, k at level 200) : py_scope.

(** ** NumPy arrays and the library interfaces *)

Module Np.

(** A 2-D array is a list of rows; a 3-D array (height, width, channels)
    is a list of rows of pixels.  An array without elements carries no
    shape of its own in this representation: the libraries reject such an
    array before they look at its shape. *)
Abbreviation plane A := (list (list A)).
Abbreviation volume A := (list (list (list A))).

Definition row_lengths {A} (a : list (list A)) : list nat := length <$> a.

(** The shape of a 3-D array: for every row, the channel count of each of
    its pixels. *)
Definition shape {A} (a : volume A) : list (list nat) := row_lengths <$> a.

(** [a.size == 0] *)
Definition is_empty {A} (a : list (list A)) : bool :=
  forallb (λ r, Nat.eqb (length r) 0) a.

(** Channel count of a non-empty 3-D array. *)
Definition nchans {A} (a : volume A) : nat :=
  match mjoin a with
  | px :: _ => length px
  | [] => 0
  end.

(** [a[i, j]] *)
Definition at2 {A} (a : list (list A)) (i j : nat) : option A :=
  a !! i ≫= (.!! j).

(** [a[r0:r1, c0:c1]] for adjusted indices. *)
Definition slice2 {A} (r0 r1 c0 c1 : nat) (a : list (list A)) : list (list A) :=
  (λ row, take (c1 - c0) (drop c0 row)) <$> take (r1 - r0) (drop r0 a).

(** [dst[r0:r0+h, c0:c0+w] = src] where [src] has the shape of the slice:
    the elements of the window are overwritten by those of [src]. *)
Definition blit {A} (r0 c0 : nat) (src dst : list (list A)) : list (list A) :=
  imap (λ i row,
          match src !! (i - r0) with
          | Some srow => if decide (r0 ≤ i) then list_inserts c0 srow row else row
          | None => row
          end) dst.

(** Elementwise binary operation on arrays of one shape. *)
Definition map2 {A B C} (f : A → B → C) (a : plane A) (b : plane B) : plane C :=
  zip_with (zip_with f) a b.

Definition is_uint8 (z : Z) : Prop := (0 ≤ z < 256)%Z.
Definition uint8_plane (a : plane Z) : Prop := Forall (Forall is_uint8) a.
Definition uint8_volume (a : volume Z) : Prop :=
  Forall (Forall (Forall is_uint8)) a.

(** Every row has [w] pixels and every pixel has [c] samples. *)
Definition rect {A} (h w : nat) (a : list (list A)) : Prop :=
  length a = h ∧ Forall (λ r, length r = w) a.
Definition chans {A} (c : nat) (a : volume A) : Prop :=
  Forall (Forall (λ px : list A, length px = c)) a.

(** [np.mean] of a list of samples. *)
Definition Qsum (l : list Q) : Q := foldr Qplus 0%Q l.
Definition np_mean (l : list Q) : Q :=
  (Qsum l / inject_Z (Z.of_nat (length l)))%Q.

(** NumPy: the square root behind [np.std] and the global random
    generator.  A sampler draws [n] values and returns the generator's
    next state. *)
Class Numpy := {
  np_sqrt : Q → Q;
  rng_state : Type;
  np_random_seed : Z → rng_state;
  np_random_normal : Q → Q → nat → rng_state → list Q * rng_state;
  np_random_random : nat → rng_state → list Q * rng_state;
  np_random_uniform : Q → Q → nat → rng_state → list Q * rng_state;
  np_random_exponential : Q → nat → rng_state → list Q * rng_state
}.

(** What is assumed of the samplers: a request for [n] values yields [n]
    values. *)
Class NumpyLaws `{Numpy} : Prop := {
  np_random_normal_length loc scale n g :
    length (np_random_normal loc scale n g).1 = n;
  np_random_random_length n g :
    length (np_random_random n g).1 = n;
  np_random_uniform_length lo hi n g :
    length (np_random_uniform lo hi n g).1 = n;
  np_random_exponential_length scale n g :
    length (np_random_exponential scale n g).1 = n
}.

(** [np.std]: the square root of the mean squared deviation. *)
Definition np_std `{Numpy} (l : list Q) : Q :=
  let m := np_mean l in
  np_sqrt (np_mean ((λ x, (x - m) * (x - m))%Q <$> l)).

(** OpenCV: the luminance of a BGR pixel, the bilateral filter and the
    box filter. *)
Class OpenCV := {
  cv2_bgr2gray : Z → Z → Z → Z;
  cv2_bilateralFilter : plane Z → Z → Q → Q → plane Z;
  cv2_boxFilter : plane Q → nat * nat → plane Q
}.

(** What is assumed of the filters: they keep the shape of their input,
    and the bilateral filter of an 8-bit image is an 8-bit image. *)
Class OpenCVLaws `{OpenCV} : Prop := {
  cv2_bilateralFilter_shape src d sc ss :
    row_lengths (cv2_bilateralFilter src d sc ss) = row_lengths src;
  cv2_bilateralFilter_uint8 src d sc ss :
    uint8_plane src → uint8_plane (cv2_bilateralFilter src d sc ss);
  cv2_boxFilter_shape src ksize :
    row_lengths (cv2_boxFilter src ksize) = row_lengths src
}.

Section cv2.
Context `{OpenCV}.

(** [cv2.cvtColor(src, cv2.COLOR_BGR2GRAY)]: an empty source and a source
    with other than 3 or 4 channels fail an assertion. *)
Definition cv2_cvtColor_BGR2GRAY (src : volume Z) : result (plane Z) :=
  if is_empty src then Raise CvError
  else if negb (Nat.eqb (nchans src) 3 || Nat.eqb (nchans src) 4) then Raise CvError
  else Ok ((λ row : list (list Z),
               (λ px : list Z, cv2_bgr2gray (px !!! 0) (px !!! 1) (px !!! 2))
                 <$> row) <$> src).

(** [m[:, :, k]]: the plane of channel [k]. *)
Definition channel (k : nat) (m : volume Z) : plane Z :=
  (λ row : list (list Z), (λ px : list Z, px !!! k) <$> row) <$> m.

(** [cv2.split(m)]: one plane per channel. *)
Definition cv2_split (m : volume Z) : list (plane Z) :=
  (λ k, channel k m) <$> seq 0 (nchans m).

(** [cv2.merge(mv)]: the planes must have one size. *)
Fixpoint interleave (mv : list (plane Z)) : volume Z :=
  match mv with
  | [] => []
  | [c] => (λ row : list Z, (λ x, [x]) <$> row) <$> c
  | c :: mv => map2 cons c (interleave mv)
  end.

Definition cv2_merge (mv : list (plane Z)) : result (volume Z) :=
  match mv with
  | [] => Raise CvError
  | c :: rest =>
      if forallb (λ c', bool_decide (row_lengths c' = row_lengths c)) rest
      then Ok (interleave mv)
      else Raise CvError
  end.

End cv2.

(** [cv2.split] and [cv2.merge] for arrays of any sample type (the
    floating-point images of [sr_sandbox.py]). *)
#[export] Instance Q_inhabited : Inhabited Q := populate 0%Q.

Definition split_planes {A} `{Inhabited A} (m : volume A) : list (plane A) :=
  (λ k, (λ row : list (list A), (λ px : list A, px !!! k) <$> row) <$> m)
    <$> seq 0 (nchans m).

Fixpoint interleave_planes {A} (mv : list (plane A)) : volume A :=
  match mv with
  | [] => []
  | [c] => (λ row : list A, (λ x, [x]) <$> row) <$> c
  | c :: mv => map2 cons c (interleave_planes mv)
  end.

Definition merge_planes {A} (mv : list (plane A)) : result (volume A) :=
  match mv with
  | [] => Raise CvError
  | c :: rest =>
      if forallb (λ c', bool_decide (row_lengths c' = row_lengths c)) rest
      then Ok (interleave_planes mv)
      else Raise CvError
  end.

(** A sample of a floating-point image in its nominal range. *)
Definition unit_range (v : Q) : Prop := (0 <= v)%Q ∧ (v <= 1)%Q.

(** [a[i, j, k]] *)
Definition at3 {A} (a : volume A) (i j k : nat) : option A :=
  at2 a i j ≫= (.!! k).

(** An array held by value, of two or of three dimensions
    ([len(a.shape) == 2] or [3]). *)
Inductive array (A : Type) :=
  | Arr2 (a : plane A)
  | Arr3 (a : volume A).
Arguments Arr2 {A} a.
Arguments Arr3 {A} a.

Definition array_map {A B} (f : A → B) (a : array A) : array B :=
  match a with
  | Arr2 a => Arr2 (fmap (M:=list) (fmap (M:=list) f) a)
  | Arr3 a => Arr3 (fmap (M:=list) (fmap (M:=list) (fmap (M:=list) f)) a)
  end.

(** Elementwise operation on two arrays of one shape. *)
Definition array_map2 {A B C} (f : A → B → C) (a : array A) (b : array B) : array C :=
  match a, b with
  | Arr2 a, Arr2 b => Arr2 (map2 f a b)
  | Arr3 a, Arr3 b => Arr3 (map2 (zip_with f) a b)
  | _, _ => Arr2 []
  end.

(** [a.size], and a flat list of values laid out in the shape of [a]. *)
Definition array_size {A} (a : array A) : nat :=
  match a with
  | Arr2 a => sum_list (row_lengths a)
  | Arr3 a => sum_list (row_lengths (mjoin a))
  end.

Definition reshape_like {A B} (a : array A) (l : list B) : array B :=
  match a with
  | Arr2 a => Arr2 (reshape (row_lengths a) l)
  | Arr3 a => Arr3 (reshape (row_lengths a) (reshape (row_lengths (mjoin a)) l))
  end.

(** [a.shape[:2]]: the row lengths of the pixel grid. *)
Definition grid_shape {A} (a : array A) : list nat :=
  match a with
  | Arr2 a => row_lengths a
  | Arr3 a => row_lengths a
  end.

Definition np_zeros_like (a : array Z) : array Z := array_map (λ _, 0%Z) a.

(** [np.clip] on integers. *)
Definition np_clip_int (a lo hi : Z) : Z := Z.min (Z.max a lo) hi.

(** Addition of two [uint8] arrays wraps around. *)
Definition uint8_add (a b : Z) : Z := ((a + b) mod 256)%Z.

(** PIL: images, the two enhancers, the conversions from and to arrays
    and [resize(size, Image.LANCZOS)]. *)
Class PIL := {
  Image : Type;
  ImageEnhance_Brightness_enhance : Image → Q → Image;
  ImageEnhance_Contrast_enhance : Image → Q → Image;
  np_array : Image → array Z;
  Image_fromarray : array Z → Image;
  Image_resize_LANCZOS : Image → nat * nat → Image
}.

End Np.

Import Np.

(** ** adaptive-sr.py: the condition model and the scalar noise level *)

Module AdaptiveSR.

Open Scope Q_scope.
Open Scope py_scope.

Inductive WeatherCondition := CLEAR | RAIN | FOG | SNOW.
Inductive TimeOfDay := DAY | DAWN_DUSK | NIGHT.

(** The values the source gives the enumerators. *)
Definition WeatherCondition_value (w : WeatherCondition) : positive :=
  match w with CLEAR => 1 | RAIN => 2 | FOG => 3 | SNOW => 4 end%positive.
Definition WeatherCondition_of_value (p : positive) : option WeatherCondition :=
  match p with
  | 1 => Some CLEAR | 2 => Some RAIN | 3 => Some FOG | 4 => Some SNOW
  | _ => None
  end%positive.
Definition TimeOfDay_value (t : TimeOfDay) : positive :=
  match t with DAY => 1 | DAWN_DUSK => 2 | NIGHT => 3 end%positive.
Definition TimeOfDay_of_value (p : positive) : option TimeOfDay :=
  match p with
  | 1 => Some DAY | 2 => Some DAWN_DUSK | 3 => Some NIGHT
  | _ => None
  end%positive.

#[export] Instance WeatherCondition_eq_dec : EqDecision WeatherCondition.
Proof. solve_decision. Defined.
#[export] Instance TimeOfDay_eq_dec : EqDecision TimeOfDay.
Proof. solve_decision. Defined.
#[export] Instance WeatherCondition_countable : Countable WeatherCondition.
Proof.
  apply (inj_countable WeatherCondition_value WeatherCondition_of_value).
  intros []; reflexivity.
Defined.
#[export] Instance TimeOfDay_countable : Countable TimeOfDay.
Proof.
  apply (inj_countable TimeOfDay_value TimeOfDay_of_value).
  intros []; reflexivity.
Defined.

Record DrivingConditions := {
  weather : WeatherCondition;
  time_of_day : TimeOfDay;
  vehicle_speed : Q;   (* km/h *)
  ambient_light : Q    (* lux *)
}.

(** The attributes [AdaptiveSR.__init__] sets on [self]. *)
Record AdaptiveSR := {
  base_noise_level : Q;
  max_noise_level : Q;
  weather_factors : gmap WeatherCondition Q;
  time_factors : gmap TimeOfDay Q
}.

Definition __init__ : AdaptiveSR := {|
  base_noise_level := 0.1;
  max_noise_level := 0.3;
  weather_factors :=
    <[CLEAR := 1.0]> (<[RAIN := 1.2]> (<[FOG := 1.5]> (<[SNOW := 1.3]> ∅)));
  time_factors :=
    <[DAY := 0.8]> (<[DAWN_DUSK := 1.2]> (<[NIGHT := 1.5]> ∅))
|}.

Definition calculate_noise_level (self : AdaptiveSR)
    (conditions : DrivingConditions)
    (local_brightness local_contrast : Q) : result Q :=
  let* weather_factor := getitem (weather_factors self) (weather conditions) in
  let* time_factor := getitem (time_factors self) (time_of_day conditions) in
  let speed_factor := 1.0 + (vehicle_speed conditions / 130.0) * 0.2 in
  let light_factor :=
    1.0 + (1.0 - np_clip (ambient_light conditions / 50000.0) 0 1) * 0.5 in
  let brightness_factor := 1.0 + (1.0 - local_brightness) * 0.3 in
  let contrast_factor := 1.0 + (1.0 - local_contrast) * 0.4 in
  let noise_level :=
    base_noise_level self *
      (weather_factor * time_factor * speed_factor * light_factor *
       brightness_factor * contrast_factor) in
  Ok (np_clip noise_level (base_noise_level self) (max_noise_level self)).

(** The factor tables and the level as the specification words them. *)
Definition spec_weatherFactor (w : WeatherCondition) : Q :=
  match w with CLEAR => 1.0 | RAIN => 1.2 | FOG => 1.5 | SNOW => 1.3 end.
Definition spec_timeFactor (t : TimeOfDay) : Q :=
  match t with DAY => 0.8 | DAWN_DUSK => 1.2 | NIGHT => 1.5 end.
Definition spec_clamp (x lo hi : Q) : Q :=
  if Qlt_le_dec x lo then lo else if Qlt_le_dec hi x then hi else x.
Definition spec_level (c : DrivingConditions) (brightness contrast : Q) : Q :=
  spec_clamp
    (0.1 * spec_weatherFactor (weather c) * spec_timeFactor (time_of_day c)
       * (1 + (vehicle_speed c / 130) * 0.2)
       * (1 + (1 - spec_clamp (ambient_light c / 50000) 0 1) * 0.5)
       * (1 + (1 - brightness) * 0.3)
       * (1 + (1 - contrast) * 0.4))
    0.1 0.3.

(** The value [calculate_noise_level] returns for the default engine. *)
Definition level_of (c : DrivingConditions) (b k : Q) : Q :=
  np_clip
    (0.1 * (spec_weatherFactor (weather c) * spec_timeFactor (time_of_day c)
            * (1.0 + (vehicle_speed c / 130.0) * 0.2)
            * (1.0 + (1.0 - np_clip (ambient_light c / 50000.0) 0 1) * 0.5)
            * (1.0 + (1.0 - b) * 0.3) * (1.0 + (1.0 - k) * 0.4)))
    0.1 0.3.

(** The conditions [c] under another ambient light. *)
Definition with_ambient_light (c : DrivingConditions) (lux : Q) : DrivingConditions :=
  {| weather := weather c; time_of_day := time_of_day c;
     vehicle_speed := vehicle_speed c; ambient_light := lux |}.

(** *** Frames on the heap

    A NumPy array is a view of a buffer: [frame[y:y+h, x:x+w]] shares the
    buffer of [frame], [frame.copy()] and the arrays OpenCV returns own a
    new one.  The heap maps a buffer to its contents, and a view selects
    the rows [row0..row1) and the columns [col0..col1) of its buffer. *)

Abbreviation loc := positive.

Record ndarray := {
  base : loc;
  row0 : nat; row1 : nat;
  col0 : nat; col1 : nat
}.

Section engine.
Context `{Numpy, OpenCV}.

(** The state a call runs in: the heap of buffers and NumPy's global
    generator. *)
Record world := { heap : gmap loc (volume Z); rng : rng_state }.

Definition M (A : Type) : Type := world → result A * world.

Definition ret {A} (a : A) : M A := λ σ, (Ok a, σ).
Definition bind {A B} (m : M A) (k : A → M B) : M B :=
  λ σ, match m σ with
       | (Ok a, σ') => k a σ'
       | (Raise e, σ') => (Raise e, σ')
       end.
Definition lift {A} (r : result A) : M A := λ σ, (r, σ).
Definition raise {A} (e : exn) : M A := λ σ, (Raise e, σ).

Notation "'let!' x ':=' c1 'in' c2" := (bind c1 (λ x, c2))
  (at level 10, x name, c1 at level 100, c2 at level 200).

Fixpoint for_each {A B} (f : A → M B) (l : list A) : M (list B) :=
  match l with
  | [] => ret []
  | a :: l => let! b := f a in let! bs := for_each f l in ret (b :: bs)
  end.

(** The elements a view shows. *)
Definition view (h : gmap loc (volume Z)) (a : ndarray) : volume Z :=
  slice2 (row0 a) (row1 a) (col0 a) (col1 a) (default [] (h !! base a)).

Definition deref (a : ndarray) : M (volume Z) :=
  λ σ, (Ok (view (heap σ) a), σ).

(** The view of all of a buffer [l] that holds [v]. *)
Definition whole (l : loc) (v : volume Z) : ndarray :=
  {| base := l; row0 := 0; row1 := length v;
     col0 := 0; col1 := max_list (row_lengths v) |}.

(** A new buffer holding [v]. *)
Definition alloc (v : volume Z) : M ndarray :=
  λ σ, let l := fresh (dom (heap σ)) in
       (Ok (whole l v), {| heap := <[l := v]> (heap σ); rng := rng σ |}).

(** [a[ys:ye, xs:xe]]: a view of the same buffer. *)
Definition getitem_slice (a : ndarray) (ys ye xs xe : Z) : ndarray :=
  let '(s, e) := slice_indices ys ye (row1 a - row0 a) in
  let '(cs, ce) := slice_indices xs xe (col1 a - col0 a) in
  {| base := base a;
     row0 := row0 a + s; row1 := row0 a + e;
     col0 := col0 a + cs; col1 := col0 a + ce |}.

(** [a[ys:ye, xs:xe] = src]: writes through to the buffer of [a].  The
    source must have the shape of the slice; broadcasting of a smaller
    source, which [apply_sr] never needs, is left out and reported as the
    shape error. *)
Definition setitem_slice (a : ndarray) (ys ye xs xe : Z) (src : ndarray) : M unit :=
  let t := getitem_slice a ys ye xs xe in
  let! v := deref src in
  let! old := deref t in
  if bool_decide (shape v = shape old)
  then λ σ, (Ok (),
             {| heap := alter (blit (row0 t) (col0 t) v) (base t) (heap σ);
                rng := rng σ |})
  else raise ValueError.

(** [a.copy()] *)
Definition np_copy (a : ndarray) : M ndarray :=
  let! v := deref a in alloc v.

(** [np.random.normal(loc, scale, channel.shape)] *)
Definition normal_like (loc scale : Q) (channel : plane Z) : M (plane Q) :=
  λ σ, let '(l, g) :=
         np_random_normal loc scale (sum_list (row_lengths channel)) (rng σ) in
       (Ok (reshape (row_lengths channel) l), {| heap := heap σ; rng := g |}).

Definition detect_local_conditions (frame : ndarray) : M (Q * Q) :=
  let! src := deref frame in
  let! gray := lift (cv2_cvtColor_BGR2GRAY src) in
  let samples := inject_Z <$> mjoin gray in
  let mean_brightness := np_mean samples / 255.0 in
  let local_contrast := np_std samples / 255.0 in
  ret (mean_brightness, local_contrast).

(** The body of the loop over the channels in [_apply_sr_to_region]. *)
Definition process_channel (noise_level : Q) (channel : plane Z) : M (plane Z) :=
  let! noise := normal_like 0 (noise_level * 255) channel in
  let noisy :=
    map2 (λ c n, astype_uint8 (np_clip (inject_Z c + n) 0 255)) channel noise in
  let filtered := cv2_bilateralFilter noisy 9 75 75 in
  ret filtered.

Definition _apply_sr_to_region (region : ndarray) (noise_level : Q) : M ndarray :=
  let! src := deref region in
  match cv2_split src with
  | [b; g; r] =>
      let! processed_channels := for_each (process_channel noise_level) [b; g; r] in
      let! merged := lift (cv2_merge processed_channels) in
      alloc merged
  | _ => raise ValueError
  end.

Definition apply_sr (self : AdaptiveSR) (frame : ndarray)
    (conditions : DrivingConditions) (roi : option (Z * Z * Z * Z)) : M ndarray :=
  let region :=
    match roi with
    | Some (x, y, w, h) => getitem_slice frame y (y + h) x (x + w)
    | None => frame
    end in
  let! stats := detect_local_conditions region in
  let '(local_brightness, local_contrast) := stats in
  let! noise_level :=
    lift (calculate_noise_level self conditions local_brightness local_contrast) in
  let! result := np_copy frame in
  match roi with
  | Some (x, y, w, h) =>
      let! processed := _apply_sr_to_region region noise_level in
      let! _ := setitem_slice result y (y + h) x (x + w) processed in
      ret result
  | None =>
      let! result := _apply_sr_to_region frame noise_level in
      ret result
  end.

(** *** Vocabulary for the properties of [apply_sr] *)

(** The caller's frame: a live buffer seen through a window that lies
    inside it, with [c] channels of 8-bit samples. *)
Definition frame_ok (σ : world) (frame : ndarray) (c : nat) : Prop :=
  base frame ∈ dom (heap σ)
  ∧ row0 frame ≤ row1 frame ∧ col0 frame ≤ col1 frame
  ∧ rect (row1 frame - row0 frame) (col1 frame - col0 frame) (view (heap σ) frame)
  ∧ chans c (view (heap σ) frame)
  ∧ uint8_volume (view (heap σ) frame).

(** Height and width of a view. *)
Definition height (frame : ndarray) : nat := row1 frame - row0 frame.
Definition width (frame : ndarray) : nat := col1 frame - col0 frame.

(** The window [roi] selects, in the coordinates of the frame. *)
Definition roi_rows (frame : ndarray) (roi : Z * Z * Z * Z) : nat * nat :=
  let '(x, y, w, h) := roi in slice_indices y (y + h) (height frame).
Definition roi_cols (frame : ndarray) (roi : Z * Z * Z * Z) : nat * nat :=
  let '(x, y, w, h) := roi in slice_indices x (x + w) (width frame).
Definition roi_window (frame : ndarray) (roi : Z * Z * Z * Z) (src : volume Z)
    : volume Z :=
  slice2 (roi_rows frame roi).1 (roi_rows frame roi).2
         (roi_cols frame roi).1 (roi_cols frame roi).2 src.

(** The region the statistics and the filter work on. *)
Definition region_of (frame : ndarray) (roi : option (Z * Z * Z * Z)) : ndarray :=
  match roi with
  | Some (x, y, w, h) => getitem_slice frame y (y + h) x (x + w)
  | None => frame
  end.

Definition region_data (σ : world) (frame : ndarray) (roi : option (Z * Z * Z * Z)) : volume Z :=
  match roi with
  | Some r => roi_window frame r (view (heap σ) frame)
  | None => view (heap σ) frame
  end.

(** The frame a successful call returns: the processed region [p] laid
    over a copy of the input. *)
Definition composite (frame : ndarray) (roi : option (Z * Z * Z * Z))
    (p src : volume Z) : volume Z :=
  match roi with
  | Some r => blit (roi_rows frame r).1 (roi_cols frame r).1 p src
  | None => p
  end.

(** The part of [apply_sr] that follows the computation of the level. *)
Definition finish (frame : ndarray) (roi : option (Z * Z * Z * Z))
    (noise_level : Q) : M ndarray :=
  bind (np_copy frame) (λ result,
    match roi with
    | Some (x, y, w, h) =>
        bind (_apply_sr_to_region (region_of frame roi) noise_level)
          (λ processed,
             bind (setitem_slice result y (y + h) x (x + w) processed)
               (λ _, ret result))
    | None =>
        bind (_apply_sr_to_region (region_of frame roi) noise_level)
          (λ result, ret result)
    end).

End engine.

Close Scope py_scope.
Close Scope Q_scope.

End AdaptiveSR.

(** ** sr_gui.py: noise of a selectable distribution *)

Module SrGui.

Open Scope Q_scope.

Definition Qlt_bool (a b : Q) : bool := negb (Qle_bool b a).

(** The arithmetic of [display_images] (the same in [sr_video_gui.py]):
    the size at which an image of [image_width] x [image_height] is shown
    in a window of [window_width] x [window_height].  The true division,
    the conversions of the integers and the float division and product
    are rounded as binary64 rounds them, and [int()] truncates.  [None]
    stands for the [ZeroDivisionError] of a division by zero. *)
Definition display_size (window_width window_height image_width image_height : Z)
    : option (Z * Z) :=
  let display_width := ((window_width - 40) / 2)%Z in
  if (image_height =? 0)%Z then None else
  let original_aspect := binary64 (inject_Z image_width / inject_Z image_height) in
  if Qeq_bool original_aspect 0 then None else
  let display_height :=
    trunc (binary64 (binary64 (inject_Z display_width) / original_aspect)) in
  let max_height := (window_height - 250)%Z in
  if (max_height <? display_height)%Z then
    let display_height := max_height in
    let display_width :=
      trunc (binary64 (binary64 (inject_Z display_height) * original_aspect)) in
    Some (display_width, display_height)
  else Some (display_width, display_height).

Section noise.
Context `{Numpy, PIL}.

(** [np.random.<sampler>(..., noise_image.shape)] *)
Definition draw_like (sampler : nat → rng_state → list Q * rng_state)
    (a : array Z) (g : rng_state) : array Q * rng_state :=
  let '(l, g') := sampler (array_size a) g in (reshape_like a l, g').

(** [noise_mask < float(noise_value) / 2] and
    [noise_mask > 1 - float(noise_value) / 2] *)
Definition salt_mask (noise_value : Q) (noise_mask : plane Q) : plane bool :=
  fmap (M:=list) (fmap (M:=list) (λ m, Qlt_bool m (noise_value / 2))) noise_mask.
Definition pepper_mask (noise_value : Q) (noise_mask : plane Q) : plane bool :=
  fmap (M:=list) (fmap (M:=list) (λ m, Qlt_bool (1 - noise_value / 2) m)) noise_mask.

(** [a[mask] = v] on a 2-D array and [a[mask, :] = v] on a 3-D array. *)
Definition mask_assign (mask : plane bool) (v : Z) (a : array Z) : array Z :=
  match a with
  | Arr2 a => Arr2 (map2 (λ (m : bool) x, if m then v else x) mask a)
  | Arr3 a =>
      Arr3 (map2 (λ (m : bool) (px : list Z),
                    if m then (λ _, v) <$> px else px) mask a)
  end.

(** The array [salt_pepper_noise] after both mask assignments. *)
Definition salt_pepper_noise (noise_value : Q) (noise_mask : plane Q)
    (noise_image : array Z) : array Z :=
  mask_assign (pepper_mask noise_value noise_mask) 0
    (mask_assign (salt_mask noise_value noise_mask) 255
       (np_zeros_like noise_image)).

(** [np.where(salt_pepper_noise != 0, salt_pepper_noise, noise_image)] *)
Definition salt_and_pepper (noise_value : Q) (noise_mask : plane Q)
    (noise_image : array Z) : array Z :=
  array_map2 (λ sp x, if bool_decide (sp ≠ 0%Z) then sp else x)
    (salt_pepper_noise noise_value noise_mask noise_image) noise_image.

Definition apply_image_modifications (pil_image : Image)
    (brightness_value contrast_value noise_value : Q)
    (target_size : nat * nat) (noise_type : string)
    (g : rng_state) : Image * rng_state :=
  let brightness_image := ImageEnhance_Brightness_enhance pil_image brightness_value in
  let contrast_image := ImageEnhance_Contrast_enhance brightness_image contrast_value in
  let noise_image := np_array contrast_image in
  let '(noise_image, noise, g) :=
    if bool_decide (noise_type = "Gaussian"%string) then
      let '(n, g) := draw_like (np_random_normal 0 (noise_value * 255)) noise_image g in
      (noise_image, array_map astype_uint8 n, g)
    else if bool_decide (noise_type = "Salt and Pepper"%string) then
      let '(l, g) := np_random_random (sum_list (grid_shape noise_image)) g in
      let noise_mask := reshape (grid_shape noise_image) l in
      let noise_image := salt_and_pepper noise_value noise_mask noise_image in
      (noise_image, np_zeros_like noise_image, g)
    else if bool_decide (noise_type = "Speckle"%string) then
      let '(n, g) := draw_like (np_random_normal 0 noise_value) noise_image g in
      let noise_image :=
        array_map2 (λ x e, astype_uint8 (inject_Z x * (1 + e))) noise_image n in
      (noise_image, np_zeros_like noise_image, g)
    else if bool_decide (noise_type = "Uniform"%string) then
      let '(n, g) :=
        draw_like (np_random_uniform (- noise_value * 255) (noise_value * 255))
          noise_image g in
      (noise_image, array_map astype_uint8 n, g)
    else if bool_decide (noise_type = "Exponential"%string) then
      let '(n, g) := draw_like (np_random_exponential (noise_value * 255)) noise_image g in
      (noise_image, array_map astype_uint8 n, g)
    else
      let '(n, g) := draw_like (np_random_normal 0 (noise_value * 255)) noise_image g in
      (noise_image, array_map astype_uint8 n, g) in
  let noisy_image :=
    if bool_decide (noise_type ∉ ["Salt and Pepper"; "Speckle"]%string) then
      array_map2 (λ x n, (np_clip_int (uint8_add x n) 0 255 mod 256)%Z)
        noise_image noise
    else noise_image in
  let final_image := Image_fromarray noisy_image in
  let final_image := Image_resize_LANCZOS final_image target_size in
  (final_image, g).

End noise.

Close Scope Q_scope.

End SrGui.

(** ** sr_video_gui.py: Gaussian noise with an optional seed *)

Module SrVideoGui.

Open Scope Q_scope.

Section noise.
Context `{Numpy, PIL}.

Definition apply_image_modifications (pil_image : Image)
    (brightness_value contrast_value noise_value : Q)
    (target_size : nat * nat) (noise_seed : option Z)
    (g : rng_state) : Image * rng_state :=
  let brightness_image := ImageEnhance_Brightness_enhance pil_image brightness_value in
  let contrast_image := ImageEnhance_Contrast_enhance brightness_image contrast_value in
  let noise_image := np_array contrast_image in
  let g :=
    match noise_seed with
    | Some s => np_random_seed s
    | None => g
    end in
  let '(n, g) := SrGui.draw_like (np_random_normal 0 (noise_value * 255)) noise_image g in
  let noise := array_map astype_uint8 n in
  let noisy_image :=
    array_map2 (λ x n, (np_clip_int (uint8_add x n) 0 255 mod 256)%Z)
      noise_image noise in
  let final_image := Image_fromarray noisy_image in
  let final_image := Image_resize_LANCZOS final_image target_size in
  (final_image, g).

End noise.

(** Python's [random] module: [random.randint(a, b)] on its own generator. *)
Class PyRandom := {
  random_state : Type;
  random_randint : Z → Z → random_state → Z * random_state
}.

Section timers.
Context `{Numpy, PIL, PyRandom}.

(** The attributes of [PsychophysicsTestApp] that the noise timer reads
    and writes, the values of the three sliders, the number of callbacks
    scheduled with [master.after] that have not run yet, and the states of
    the two generators.  [target_size] is [None] while the attribute does
    not exist. *)
Record App := {
  original_pil_image : option Image;
  processed_pil_image : option Image;
  target_size : option (nat * nat);
  is_noise_updating : bool;
  noise_seed : option Z;
  processed_photo : option Image;
  brightness_slider : Q;
  contrast_slider : Q;
  noise_slider : Q;
  after_queue : nat;
  np_random : rng_state;
  py_random : random_state
}.

Definition set_is_noise_updating (b : bool) (app : App) : App :=
  {| original_pil_image := original_pil_image app;
     processed_pil_image := processed_pil_image app;
     target_size := target_size app;
     is_noise_updating := b;
     noise_seed := noise_seed app;
     processed_photo := processed_photo app;
     brightness_slider := brightness_slider app;
     contrast_slider := contrast_slider app;
     noise_slider := noise_slider app;
     after_queue := after_queue app;
     np_random := np_random app;
     py_random := py_random app |}.

Definition set_noise_seed (seed : Z) (r : random_state) (app : App) : App :=
  {| original_pil_image := original_pil_image app;
     processed_pil_image := processed_pil_image app;
     target_size := target_size app;
     is_noise_updating := is_noise_updating app;
     noise_seed := Some seed;
     processed_photo := processed_photo app;
     brightness_slider := brightness_slider app;
     contrast_slider := contrast_slider app;
     noise_slider := noise_slider app;
     after_queue := after_queue app;
     np_random := np_random app;
     py_random := r |}.

Definition set_processed_photo (photo : Image) (g : rng_state) (app : App) : App :=
  {| original_pil_image := original_pil_image app;
     processed_pil_image := processed_pil_image app;
     target_size := target_size app;
     is_noise_updating := is_noise_updating app;
     noise_seed := noise_seed app;
     processed_photo := Some photo;
     brightness_slider := brightness_slider app;
     contrast_slider := contrast_slider app;
     noise_slider := noise_slider app;
     after_queue := after_queue app;
     np_random := g;
     py_random := py_random app |}.

Definition set_after_queue (n : nat) (app : App) : App :=
  {| original_pil_image := original_pil_image app;
     processed_pil_image := processed_pil_image app;
     target_size := target_size app;
     is_noise_updating := is_noise_updating app;
     noise_seed := noise_seed app;
     processed_photo := processed_photo app;
     brightness_slider := brightness_slider app;
     contrast_slider := contrast_slider app;
     noise_slider := noise_slider app;
     after_queue := n;
     np_random := np_random app;
     py_random := py_random app |}.

Inductive Slider := Brightness | Contrast | Noise.

Definition set_slider (s : Slider) (value : Q) (app : App) : App :=
  {| original_pil_image := original_pil_image app;
     processed_pil_image := processed_pil_image app;
     target_size := target_size app;
     is_noise_updating := is_noise_updating app;
     noise_seed := noise_seed app;
     processed_photo := processed_photo app;
     brightness_slider := match s with Brightness => value | _ => brightness_slider app end;
     contrast_slider := match s with Contrast => value | _ => contrast_slider app end;
     noise_slider := match s with Noise => value | _ => noise_slider app end;
     after_queue := after_queue app;
     np_random := np_random app;
     py_random := py_random app |}.

(** [self.master.after(self.noise_update_interval, self.update_noise_periodically)] *)
Definition master_after (app : App) : App := set_after_queue (S (after_queue app)) app.

(** A call that raises leaves the attributes as they are at that point:
    reading a missing [target_size] or enhancing a missing image raises
    before anything is displayed or scheduled. *)
Definition update_noise_periodically (app : App) : App :=
  if negb (is_noise_updating app) || bool_decide (original_pil_image app = None)
  then app
  else
    let '(seed, r) := random_randint 0 (2 ^ 32 - 1) (py_random app) in
    let app := set_noise_seed seed r app in
    match processed_pil_image app, target_size app with
    | Some image, Some size =>
        let '(processed_display, g) :=
          apply_image_modifications image (brightness_slider app)
            (contrast_slider app) (noise_slider app) size (Some seed)
            (np_random app) in
        master_after (set_processed_photo processed_display g app)
    | _, _ => app
    end.

Definition start_noise_updates (app : App) : App :=
  if negb (is_noise_updating app)
  then update_noise_periodically (set_is_noise_updating true app)
  else app.

Definition stop_noise_updates (app : App) : App := set_is_noise_updating false app.

Definition update_modifications (app : App) : App :=
  if bool_decide (original_pil_image app ≠ None)
  then start_noise_updates (stop_noise_updates app)
  else app.

(** What the Tk main loop delivers: a slider moved to a value, which
    calls the slider's command, and a scheduled callback coming due. *)
Inductive Event :=
  | Slide (s : Slider) (value : Q)
  | Fire.

Definition handle (app : App) (e : Event) : App :=
  match e with
  | Slide s value => update_modifications (set_slider s value app)
  | Fire =>
      match after_queue app with
      | O => app
      | S n => update_noise_periodically (set_after_queue n app)
      end
  end.

Definition mainloop (events : list Event) (app : App) : App :=
  foldl handle app events.

Definition is_slide (e : Event) : bool :=
  match e with Slide _ _ => true | Fire => false end.

(** An image has been loaded and sized for display. *)
Definition image_loaded (app : App) : Prop :=
  is_Some (original_pil_image app) ∧ is_Some (processed_pil_image app)
  ∧ is_Some (target_size app).

End timers.

Close Scope Q_scope.

End SrVideoGui.

(** ** sr_sandbox.py: the image-driven noise map *)

Module SrSandbox.

Open Scope Q_scope.
Open Scope py_scope.

(** [adjust_image_contrast(image, alpha, beta)] on an 8-bit image. *)
Definition adjust_image_contrast (image : volume Z) (alpha beta : Q) : volume Q :=
  let image_float :=
    fmap (M:=list) (fmap (M:=list) (fmap (M:=list) (λ x, inject_Z x / 255.0))) image in
  let adjusted :=
    fmap (M:=list) (fmap (M:=list) (fmap (M:=list) (λ x, x * alpha + beta)))
      image_float in
  fmap (M:=list) (fmap (M:=list) (fmap (M:=list) (λ x, np_clip x 0.0 1.0))) adjusted.

Section rgb.
Context `{Numpy}.

(** The loop of [apply_sr_rgb] over the channels. *)
Fixpoint sr_channels (noise_level : Q) (channels : list (plane Q)) (g : rng_state)
    : list (plane Q) * rng_state :=
  match channels with
  | [] => ([], g)
  | channel :: channels =>
      let '(l, g) :=
        np_random_normal 0 noise_level (sum_list (row_lengths channel)) g in
      let noise := reshape (row_lengths channel) l in
      let channel_sr := map2 (λ c n, np_clip (c + n) 0.0 1.0) channel noise in
      let '(rest, g) := sr_channels noise_level channels g in
      (channel_sr :: rest, g)
  end.

(** [apply_sr_rgb(image, noise_level)] on a floating-point image. *)
Definition apply_sr_rgb (image : volume Q) (noise_level : Q) (g : rng_state)
    : result (volume Q) * rng_state :=
  let channels := split_planes image in
  let '(sr_channels, g) := sr_channels noise_level channels g in
  (merge_planes sr_channels, g).

End rgb.

Section spatial.
Context `{Numpy, OpenCV}.

(** The value of [noise_map] in [adaptive_sr]. *)
Definition noise_map (image : volume Z) (base_noise : Q) : result (plane Q) :=
  let* gray := cv2_cvtColor_BGR2GRAY image in
  let local_std :=
    cv2_boxFilter (fmap (M:=list) (fmap (M:=list) inject_Z) gray) (21, 21)%nat in
  Ok (fmap (M:=list) (fmap (M:=list) (λ s, base_noise * (1.0 - s / 255.0))) local_std).

(** One round of the loop over the channel index [i]. *)
Definition add_channel_noise (image : volume Z) (noise_map : plane Q) (i : nat)
    (acc : volume Z * rng_state) : volume Z * rng_state :=
  let '(result, g) := acc in
  let channel := fmap (M:=list) (fmap (M:=list) (λ px : list Z, px !!! i)) image in
  let '(l, g) := np_random_normal 0 1 (sum_list (row_lengths channel)) g in
  let noise := map2 Qmult (reshape (row_lengths channel) l) noise_map in
  let noisy :=
    map2 (λ c n, astype_uint8 (np_clip (inject_Z c + n) 0 255)) channel noise in
  (map2 (λ (px : list Z) v, <[i := v]> px) result noisy, g).

Definition adaptive_sr (image : volume Z) (base_noise : Q) (g : rng_state)
    : result (volume Z) * rng_state :=
  match noise_map image base_noise with
  | Raise e => (Raise e, g)
  | Ok noise_map =>
      let result :=
        fmap (M:=list) (fmap (M:=list) (fmap (M:=list) (λ _ : Z, 0%Z))) image in
      let '(result, g) :=
        foldl (λ acc i, add_channel_noise image noise_map i acc) (result, g)
          (seq 0 3) in
      (Ok result, g)
  end.

End spatial.

Close Scope py_scope.
Close Scope Q_scope.

End SrSandbox.

(** ** Reference instances of the library interfaces

    Small executable stand-ins for NumPy, OpenCV and PIL, used to run the
    code on concrete frames: a linear congruential generator for the
    random state, an integer square root, a fixed-point luminance, a
    range-gated three-tap mean for the bilateral filter, a moving average
    with reflected borders for the box filter, and images held as arrays. *)

Module Reference.

Open Scope Z_scope.

Definition lcg (s : Z) : Z := (1103515245 * s + 12345) mod 2147483648.

(** [n] variates in [0, 1) and the state after drawing them. *)
Fixpoint draws (n : nat) (s : Z) : list Q * Z :=
  match n with
  | O => ([], s)
  | S n => let s' := lcg s in
           let '(l, s'') := draws n s' in
           (Qmake ((s' / 65536) mod 1000) 1000 :: l, s'')
  end.

Definition sampler (f : Q → Q) (n : nat) (s : Z) : list Q * Z :=
  let '(l, s') := draws n s in (f <$> l, s').

Definition isqrt (q : Q) : Q :=
  Qmake (Z.sqrt (Qnum q * 1000000 / Zpos (Qden q))) 1000.

#[export] Instance numpy : Numpy := {|
  np_sqrt := isqrt;
  rng_state := Z;
  np_random_seed := λ s, s mod 4294967296;
  np_random_normal := λ loc scale, sampler (λ u, loc + scale * (4 * u - 2))%Q;
  np_random_random := sampler (λ u, u);
  np_random_uniform := λ lo hi, sampler (λ u, lo + (hi - lo) * u)%Q;
  np_random_exponential := λ scale, sampler (λ u, scale * (u / (1 - u)))%Q
|}.

(** A neighbour takes part in the mean when it is within [sigma] of the
    centre. *)
Definition gated (sigma : Q) (x : Z) (o : option Z) : list Z :=
  match o with
  | Some y => if Qle_bool (inject_Z (Z.abs (y - x))) sigma then [y] else []
  | None => []
  end.

Definition neighbours (sigma : Q) (row : list Z) (j : nat) (x : Z) : list Z :=
  x :: gated sigma x (match j with O => None | S j' => row !! j' end)
    ++ gated sigma x (row !! S j).

Definition mean_Z (l : list Z) : Z := foldr Z.add 0 l / Z.of_nat (length l).

Definition smooth (src : plane Z) (d : Z) (sigmaColor sigmaSpace : Q) : plane Z :=
  (λ row : list Z, imap (λ j x, mean_Z (neighbours sigmaColor row j x)) row) <$> src.

(** [cv2.BORDER_REFLECT_101] *)
Definition reflect101 (p : Z) (n : nat) : nat :=
  match n with
  | 0%nat | 1%nat => 0%nat
  | _ => let m := 2 * Z.of_nat n - 2 in
         let q := p mod m in
         Z.to_nat (if q <? Z.of_nat n then q else m - q)
  end.

Definition box (src : plane Q) (ksize : nat * nat) : plane Q :=
  let '(kh, kw) := ksize in
  imap (λ i row,
    imap (λ j _,
      (Qsum (di ← seq 0 kh; dj ← seq 0 kw;
             let r := reflect101 (Z.of_nat i + Z.of_nat di - Z.of_nat (kh / 2))
                        (length src) in
             let c := reflect101 (Z.of_nat j + Z.of_nat dj - Z.of_nat (kw / 2))
                        (length row) in
             [default 0%Q (at2 src r c)])
       / inject_Z (Z.of_nat (kh * kw)))%Q) row) src.

#[export] Instance opencv : OpenCV := {|
  cv2_bgr2gray := λ b g r, (1868 * b + 9617 * g + 4899 * r + 8192) / 16384;
  cv2_bilateralFilter := smooth;
  cv2_boxFilter := box
|}.

(** An image is its array; an enhancer scales the samples, and resizing
    samples the nearest pixel. *)
Definition scale_sample (factor : Q) (x : Z) : Z :=
  np_clip_int (trunc (inject_Z x * factor)) 0 255.

Definition nearest {A} (size : nat * nat) (a : list (list A)) : list (list A) :=
  let '(w, h) := size in
  omap (λ i, (λ row : list A,
                omap (λ j, row !! (j * length row / w)%nat) (seq 0 w))
               <$> a !! (i * length a / h)%nat) (seq 0 h).

#[export] Instance pil : PIL := {|
  Image := array Z;
  ImageEnhance_Brightness_enhance := λ im factor, array_map (scale_sample factor) im;
  ImageEnhance_Contrast_enhance := λ im factor,
    array_map (λ x, np_clip_int (128 + trunc (inject_Z (x - 128) * factor)) 0 255) im;
  np_array := λ im, im;
  Image_fromarray := λ a, a;
  Image_resize_LANCZOS := λ im size,
    match im with
    | Arr2 a => Arr2 (nearest size a)
    | Arr3 a => Arr3 (nearest size a)
    end
|}.

#[export] Instance python_random : SrVideoGui.PyRandom := {|
  SrVideoGui.random_state := Z;
  SrVideoGui.random_randint := λ a b s,
    let s' := (s * 6364136223846793005 + 1442695040888963407) mod 2 ^ 64 in
    (a + s' mod (b - a + 1), s')
|}.

(** The video application showing a 1x2 grey image, its timer running
    with one callback scheduled. *)
Definition running_app : SrVideoGui.App :=
  {| SrVideoGui.original_pil_image := Some (Arr2 [[250; 10]]);
     SrVideoGui.processed_pil_image := Some (Arr2 [[250; 10]]);
     SrVideoGui.target_size := Some (2, 1)%nat;
     SrVideoGui.is_noise_updating := true;
     SrVideoGui.noise_seed := None;
     SrVideoGui.processed_photo := None;
     SrVideoGui.brightness_slider := 1%Q;
     SrVideoGui.contrast_slider := 1%Q;
     SrVideoGui.noise_slider := 0.1%Q;
     SrVideoGui.after_queue := 1;
     SrVideoGui.np_random := 42;
     SrVideoGui.py_random := 7 |}.

(** A 2x2 colour frame, a 2x2 single-channel frame, and a world in which
    buffer 1 holds a given frame. *)
Definition frame_2x2 : volume Z :=
  [[[10; 20; 30]; [40; 50; 60]]; [[70; 80; 90]; [100; 110; 120]]].
Definition gray_2x2 : volume Z := [[[10]; [20]]; [[30]; [40]]].
Definition world_of (v : volume Z) : AdaptiveSR.world :=
  {| AdaptiveSR.heap := {[ 1%positive := v ]}; AdaptiveSR.rng := 42 |}.
Definition midday : AdaptiveSR.DrivingConditions :=
  {| AdaptiveSR.weather := AdaptiveSR.CLEAR;
     AdaptiveSR.time_of_day := AdaptiveSR.DAY;
     AdaptiveSR.vehicle_speed := 60; AdaptiveSR.ambient_light := 50000 |}.

(** A 1x2 frame with an alpha channel, a 1x2 floating-point image, and an
    engine whose weather table has no entry for fog. *)
Definition bgra_1x2 : volume Z := [[[10; 20; 30; 255]; [40; 50; 60; 255]]].
Definition float_1x2 : volume Q := [[[0.2; 0.5; 0.99]; [0; 1; 0.5]]]%Q.
Definition clear_weather_only : AdaptiveSR.AdaptiveSR :=
  {| AdaptiveSR.base_noise_level := 0.1%Q;
     AdaptiveSR.max_noise_level := 0.3%Q;
     AdaptiveSR.weather_factors := {[ AdaptiveSR.CLEAR := 1.0%Q ]};
     AdaptiveSR.time_factors := {[ AdaptiveSR.DAY := 0.8%Q ]} |}.
Definition foggy_night : AdaptiveSR.DrivingConditions :=
  {| AdaptiveSR.weather := AdaptiveSR.FOG;
     AdaptiveSR.time_of_day := AdaptiveSR.NIGHT;
     AdaptiveSR.vehicle_speed := 0; AdaptiveSR.ambient_light := 0 |}.

Close Scope Z_scope.

End Reference.

(** * Properties *)

(** ** Clipping and rational arithmetic *)

Import AdaptiveSR.

Section clip.
Open Scope Q_scope.

(** Division by a literal, as a product that linear arithmetic accepts. *)
Ltac qconst :=
  unfold Qdiv in *;
  repeat match goal with
         | |- context [Qinv (Qmake ?n ?d)] =>
             let v := eval cbv in (Qinv (Qmake n d)) in
             change (Qinv (Qmake n d)) with v
         end.

Ltac qcase a b :=
  let E := fresh "E" in
  destruct (Qle_bool a b) eqn:E;
  [apply Qle_bool_iff in E
  |assert (b < a) by (apply Qnot_le_lt; rewrite <- Qle_bool_iff; congruence);
   clear E].

Ltac qbool :=
  repeat match goal with
         | |- context [Qle_bool (if Qle_bool ?a ?b then _ else _) _] => qcase a b
         | |- context [Qle_bool ?a ?b] => qcase a b
         | |- context [Qlt_le_dec ?a ?b] => destruct (Qlt_le_dec a b)
         end.

Lemma np_clip_bounds a lo hi : lo <= hi → lo <= np_clip a lo hi <= hi.
Proof. intros. unfold np_clip, np_minimum, np_maximum. qbool; lra. Qed.

Lemma np_clip_mono a b lo hi : a <= b → np_clip a lo hi <= np_clip b lo hi.
Proof. intros. unfold np_clip, np_minimum, np_maximum. qbool; lra. Qed.

Lemma np_clip_low a lo hi : lo <= hi → a <= lo → np_clip a lo hi == lo.
Proof. intros. unfold np_clip, np_minimum, np_maximum. qbool; lra. Qed.

Lemma np_clip_high a lo hi : lo <= hi → hi <= a → np_clip a lo hi == hi.
Proof. intros. unfold np_clip, np_minimum, np_maximum. qbool; lra. Qed.

Lemma np_clip_spec_clamp a b lo hi :
  lo <= hi → a == b → np_clip a lo hi == spec_clamp b lo hi.
Proof.
  intros. unfold np_clip, np_minimum, np_maximum, spec_clamp. qbool; lra.
Qed.

Lemma Qmult_le_nonneg_l k x y : 0 <= k → x <= y → k * x <= k * y.
Proof. intros. nra. Qed.

Lemma weather_factors_lookup w :
  getitem (weather_factors __init__) w = Ok (spec_weatherFactor w).
Proof. destruct w; reflexivity. Qed.

Lemma time_factors_lookup t :
  getitem (time_factors __init__) t = Ok (spec_timeFactor t).
Proof. destruct t; reflexivity. Qed.

Lemma calculate_noise_level_eq c b k :
  calculate_noise_level __init__ c b k = Ok (level_of c b k).
Proof.
  unfold calculate_noise_level.
  rewrite weather_factors_lookup, time_factors_lookup. reflexivity.
Qed.

Lemma spec_weatherFactor_pos w : 0 < spec_weatherFactor w.
Proof. destruct w; reflexivity. Qed.

Lemma spec_timeFactor_pos t : 0 < spec_timeFactor t.
Proof. destruct t; reflexivity. Qed.

(** C1: for every driving condition, brightness and contrast the engine
    returns the product of the base level, the weather and time factors
    and the four adjustments, clamped into [0.1, 0.3]; an all-black frame
    at night, in fog, at rest and without light gets exactly 0.3. *)
Theorem calculate_noise_level_formula (c : DrivingConditions) (brightness contrast : Q) :
  (∃ level,
      calculate_noise_level __init__ c brightness contrast = Ok level
      ∧ level == spec_level c brightness contrast
      ∧ 0.1 <= level <= 0.3)
  ∧ (∃ level,
      calculate_noise_level __init__
        {| weather := FOG; time_of_day := NIGHT;
           vehicle_speed := 0; ambient_light := 0 |} 0 0 = Ok level
      ∧ level == 0.3)
  ∧ base_noise_level __init__ == 0.1 ∧ max_noise_level __init__ == 0.3.
Proof.
  split; [|split; [|split; reflexivity]].
  - exists (level_of c brightness contrast). split; [apply calculate_noise_level_eq|].
    split.
    + unfold level_of, spec_level. apply np_clip_spec_clamp; [lra|].
      assert (Hl : np_clip (ambient_light c / 50000.0) 0 1
                   == spec_clamp (ambient_light c / 50000) 0 1).
      { apply np_clip_spec_clamp; [lra|]. qconst. lra. }
      rewrite Hl. qconst. ring.
    + apply np_clip_bounds. lra.
  - eexists. split; [apply calculate_noise_level_eq|]. reflexivity.
Qed.

Lemma np_clip_proper : Proper (Qeq ==> Qeq ==> Qeq ==> Qeq) np_clip.
Proof.
  intros a a' Ha lo lo' Hlo hi hi' Hhi.
  unfold np_clip, np_minimum, np_maximum. qbool; lra.
Qed.
#[local] Existing Instance np_clip_proper.

Lemma level_of_factor c b k :
  level_of c b k ==
  np_clip
    ((0.1 * (spec_weatherFactor (weather c) * spec_timeFactor (time_of_day c)
             * (1.0 + (vehicle_speed c / 130.0) * 0.2) * (1.0 + (1.0 - k) * 0.4)))
     * ((1.0 + (1.0 - np_clip (ambient_light c / 50000.0) 0 1) * 0.5)
        * (1.0 + (1.0 - b) * 0.3)))
    0.1 0.3.
Proof. unfold level_of. apply np_clip_proper; [ring|reflexivity|reflexivity]. Qed.

(** A clamped product [K * f] does not grow when the positive factor [f]
    shrinks, whatever the sign of [K]. *)
Lemma np_clip_scaled_antitone K f1 f2 :
  0 <= f2 <= f1 → np_clip (K * f2) 0.1 0.3 <= np_clip (K * f1) 0.1 0.3.
Proof.
  intros [Hf2 Hf]. destruct (Qlt_le_dec K 0) as [HK|HK].
  - rewrite (np_clip_low (K * f1)), (np_clip_low (K * f2)); [lra|lra|nra|lra|nra].
  - apply np_clip_mono. nra.
Qed.

Lemma level_of_light_antitone c b k l1 l2 :
  l1 <= l2 →
  level_of (with_ambient_light c l2) b k <= level_of (with_ambient_light c l1) b k.
Proof.
  intros Hl. rewrite !level_of_factor. simpl.
  pose proof (np_clip_bounds (l1 / 50000.0) 0 1 ltac:(lra)) as B1.
  pose proof (np_clip_bounds (l2 / 50000.0) 0 1 ltac:(lra)) as B2.
  assert (M : np_clip (l1 / 50000.0) 0 1 <= np_clip (l2 / 50000.0) 0 1).
  { apply np_clip_mono. qconst. lra. }
  revert B1 B2 M.
  generalize (np_clip (l1 / 50000.0) 0 1), (np_clip (l2 / 50000.0) 0 1).
  intros u1 u2 B1 B2 M.
  destruct (Qlt_le_dec b (13 # 3)) as [Hb|Hb].
  - apply np_clip_scaled_antitone. nra.
  - set (K := 0.1 * _).
    assert (E : ∀ u, K * ((1.0 + (1.0 - u) * 0.5) * (1.0 + (1.0 - b) * 0.3))
                     == (- K) * ((1.0 + (1.0 - u) * 0.5) * (- (1.0 + (1.0 - b) * 0.3))))
      by (intros; ring).
    rewrite (E u1), (E u2). apply np_clip_scaled_antitone. nra.
Qed.

Lemma level_of_brightness_antitone c k b1 b2 :
  b1 <= b2 → b2 <= 1 → level_of c b2 k <= level_of c b1 k.
Proof.
  intros Hb H1. rewrite !level_of_factor.
  pose proof (np_clip_bounds (ambient_light c / 50000.0) 0 1 ltac:(lra)) as B.
  revert B. generalize (np_clip (ambient_light c / 50000.0) 0 1). intros u B.
  apply np_clip_scaled_antitone. nra.
Qed.

Lemma level_of_brightness_antitone_wide c k b1 b2 :
  0 <= vehicle_speed c → k <= 1 → b1 <= b2 → level_of c b2 k <= level_of c b1 k.
Proof.
  intros Hs Hk Hb. rewrite !level_of_factor.
  pose proof (np_clip_bounds (ambient_light c / 50000.0) 0 1 ltac:(lra)) as B.
  revert B. generalize (np_clip (ambient_light c / 50000.0) 0 1). intros u B.
  pose proof (spec_weatherFactor_pos (weather c)) as Hw.
  pose proof (spec_timeFactor_pos (time_of_day c)) as Ht.
  assert (0 <= spec_weatherFactor (weather c) * spec_timeFactor (time_of_day c)) as Hwt
    by nra.
  assert (1 <= 1.0 + vehicle_speed c / 130.0 * 0.2) as Hsf by (qconst; lra).
  assert (0 <= 1.0 + (1.0 - k) * 0.4) as Hcf by lra.
  revert Hwt Hsf Hcf.
  generalize (spec_weatherFactor (weather c) * spec_timeFactor (time_of_day c)).
  generalize (1.0 + vehicle_speed c / 130.0 * 0.2).
  generalize (1.0 + (1.0 - k) * 0.4).
  intros cf sf wt Hwt Hsf Hcf.
  apply np_clip_mono.
  assert (0 <= wt * sf) by nra.
  assert (0 <= 0.1 * (wt * sf * cf)) as HK by nra.
  apply Qmult_le_nonneg_l; [exact HK|]. nra.
Qed.

(** C7: with everything else fixed, more ambient light never raises the
    scalar noise level, whatever the other inputs; a brighter region never
    raises it either, for brightness up to 1 whatever the other inputs,
    and for any brightness when the speed is not negative and the
    contrast is at most 1. *)
Theorem noise_level_monotone (c : DrivingConditions) (contrast : Q) :
  (∀ brightness lux1 lux2, lux1 <= lux2 →
     ∃ v1 v2,
       calculate_noise_level __init__ (with_ambient_light c lux1)
         brightness contrast = Ok v1
       ∧ calculate_noise_level __init__ (with_ambient_light c lux2)
           brightness contrast = Ok v2
       ∧ v2 <= v1)
  ∧ (∀ b1 b2, b1 <= b2 → b2 <= 1 →
       ∃ v1 v2,
         calculate_noise_level __init__ c b1 contrast = Ok v1
         ∧ calculate_noise_level __init__ c b2 contrast = Ok v2
         ∧ v2 <= v1)
  ∧ (0 <= vehicle_speed c → contrast <= 1 → ∀ b1 b2, b1 <= b2 →
       ∃ v1 v2,
         calculate_noise_level __init__ c b1 contrast = Ok v1
         ∧ calculate_noise_level __init__ c b2 contrast = Ok v2
         ∧ v2 <= v1).
Proof.
  split; [|split].
  - intros b l1 l2 Hl. do 2 eexists.
    split; [apply calculate_noise_level_eq|].
    split; [apply calculate_noise_level_eq|].
    by apply level_of_light_antitone.
  - intros b1 b2 Hb H1. do 2 eexists.
    split; [apply calculate_noise_level_eq|].
    split; [apply calculate_noise_level_eq|].
    by apply level_of_brightness_antitone.
  - intros Hs Hk b1 b2 Hb. do 2 eexists.
    split; [apply calculate_noise_level_eq|].
    split; [apply calculate_noise_level_eq|].
    by apply level_of_brightness_antitone_wide.
Qed.

End clip.

(** ** Arrays: slices, windows and channels *)

Lemma take_drop_window {B} (l : list B) r0 r1 s e :
  e ≤ r1 - r0 →
  take (e - s) (drop s (take (r1 - r0) (drop r0 l)))
  = take (r0 + e - (r0 + s)) (drop (r0 + s) l).
Proof.
  intros. rewrite skipn_firstn_comm, take_take, drop_drop.
  f_equal. lia.
Qed.

Section arrays.
Context {A : Type}.
Implicit Types (a dst src : list (list A)) (l : list A).

Lemma adjust_index_range i len : (0 ≤ len → 0 ≤ adjust_index i len ≤ len)%Z.
Proof. unfold adjust_index. intros. repeat case_match; lia. Qed.

Lemma slice_indices_range start stop len s e :
  slice_indices start stop len = (s, e) → s ≤ e ≤ len.
Proof.
  unfold slice_indices. intros [= <- <-].
  pose proof (adjust_index_range start (Z.of_nat len)).
  pose proof (adjust_index_range stop (Z.of_nat len)). lia.
Qed.

(** A rectangle inside the axis is taken as it is. *)
Lemma slice_indices_inside start size len :
  (0 ≤ start)%Z → (0 ≤ size)%Z → (start + size ≤ Z.of_nat len)%Z →
  slice_indices start (start + size) len
  = (Z.to_nat start, Z.to_nat start + Z.to_nat size).
Proof.
  intros. unfold slice_indices, adjust_index.
  repeat case_match; f_equal; lia.
Qed.

Lemma slice2_slice2 a r0 r1 c0 c1 s e cs ce :
  e ≤ r1 - r0 → ce ≤ c1 - c0 →
  slice2 s e cs ce (slice2 r0 r1 c0 c1 a)
  = slice2 (r0 + s) (r0 + e) (c0 + cs) (c0 + ce) a.
Proof.
  intros. unfold slice2.
  rewrite <- fmap_drop, <- fmap_take, <- list_fmap_compose.
  rewrite take_drop_window by done.
  apply list_fmap_ext. intros _ row _. simpl. by apply take_drop_window.
Qed.

Lemma max_list_replicate n w : 0 < n → max_list (replicate n w) = w.
Proof. induction n as [|[|n] IH]; simpl in *; intros; [lia|lia|]. rewrite IH; lia. Qed.

Lemma rect_row_lengths h w a : rect h w a ↔ row_lengths a = replicate h w.
Proof.
  unfold rect, row_lengths. split.
  - intros [<- Hw]. induction Hw; csimpl; [done|]. by f_equal.
  - revert h. induction a as [|r a IH]; intros [|h]; csimpl; try done.
    intros [= Hr Ha]. destruct (IH _ Ha) as [-> ?]. by split; [|constructor].
Qed.

Lemma slice2_full a h w :
  rect h w a → slice2 0 (length a) 0 (max_list (row_lengths a)) a = a.
Proof.
  intros Hr. unfold slice2. rewrite !Nat.sub_0_r, drop_0, firstn_all.
  pose proof (proj1 (rect_row_lengths _ _ _) Hr) as Hrl.
  destruct Hr as [Hh Hw]. destruct (decide (h = 0)) as [->|].
  { by destruct a. }
  rewrite Hrl.
  rewrite max_list_replicate by lia.
  rewrite <- (list_fmap_id a) at 2. apply list_fmap_ext.
  intros i row Hi. rewrite drop_0. simpl.
  rewrite Forall_lookup in Hw. rewrite <- (Hw _ _ Hi). apply firstn_all.
Qed.

Lemma Forall2_slice2 (P : A → Prop) a r0 r1 c0 c1 :
  Forall (Forall P) a → Forall (Forall P) (slice2 r0 r1 c0 c1 a).
Proof.
  intros Ha. unfold slice2. apply Forall_fmap, Forall_take, Forall_drop.
  eapply Forall_impl; [exact Ha|]. intros row Hrow. simpl.
  by apply Forall_take, Forall_drop.
Qed.

Lemma rect_slice2 h w a s e cs ce :
  rect h w a → s ≤ e ≤ h → cs ≤ ce ≤ w →
  rect (e - s) (ce - cs) (slice2 s e cs ce a).
Proof.
  intros [Hh Hw] ? ?. unfold rect, slice2. split.
  - rewrite length_fmap, length_take, length_drop. lia.
  - apply Forall_fmap, Forall_take, Forall_drop.
    eapply Forall_impl; [exact Hw|]. intros row Hrow. simpl in *.
    rewrite length_take, length_drop. lia.
Qed.

Lemma row_lengths_blit r0 c0 src dst :
  row_lengths (blit r0 c0 src dst) = row_lengths dst.
Proof.
  unfold row_lengths, blit. apply list_eq. intros i.
  rewrite !list_lookup_fmap, list_lookup_imap.
  destruct (dst !! i) as [row|]; [simpl|done].
  repeat case_match; by rewrite ?length_inserts.
Qed.

Lemma Forall2_blit (P : A → Prop) r0 c0 src dst :
  Forall (Forall P) src → Forall (Forall P) dst →
  Forall (Forall P) (blit r0 c0 src dst).
Proof.
  intros Hs Hd. apply Forall_lookup. intros i row.
  unfold blit. rewrite list_lookup_imap.
  destruct (dst !! i) as [drow|] eqn:Hi; [simpl|done]. intros [= <-].
  rewrite Forall_lookup in Hd. specialize (Hd _ _ Hi).
  destruct (src !! (i - r0)) as [srow|] eqn:Hsi; [|done].
  rewrite Forall_lookup in Hs. specialize (Hs _ _ Hsi).
  case_decide; [by apply Forall_inserts|done].
Qed.

(** Outside the window the destination is left as it was. *)
Lemma at2_blit_outside r0 c0 w src dst i j :
  Forall (λ r, length r = w) src →
  ¬ (r0 ≤ i < r0 + length src ∧ c0 ≤ j < c0 + w) →
  at2 (blit r0 c0 src dst) i j = at2 dst i j.
Proof.
  intros Hw Hout. unfold at2, blit. rewrite list_lookup_imap.
  destruct (dst !! i) as [drow|] eqn:Hi; [simpl|done].
  destruct (src !! (i - r0)) as [srow|] eqn:Hsi; [|done].
  case_decide; [|done].
  apply lookup_lt_Some in Hsi as Hlt.
  rewrite Forall_lookup in Hw. specialize (Hw _ _ Hsi).
  destruct (decide (j < c0)).
  - by apply list_lookup_inserts_lt.
  - apply list_lookup_inserts_ge. lia.
Qed.

(** Inside the window the source shows through. *)
Lemma at2_blit_inside r0 c0 src dst i j srow drow :
  src !! (i - r0) = Some srow → dst !! i = Some drow → r0 ≤ i →
  c0 ≤ j < c0 + length srow → j < length drow →
  at2 (blit r0 c0 src dst) i j = srow !! (j - c0).
Proof.
  intros Hsi Hi ? ? ?. unfold at2, blit. rewrite list_lookup_imap, Hi. simpl.
  rewrite Hsi. case_decide; [|lia]. by apply list_lookup_inserts.
Qed.

Lemma row_lengths_reshape (lens : list nat) l :
  length l = sum_list lens → row_lengths (reshape lens l) = lens.
Proof.
  unfold row_lengths. revert l.
  induction lens as [|n lens IH]; intros l Hl; csimpl in *; [done|].
  rewrite length_take, IH by (rewrite length_drop; lia). f_equal. lia.
Qed.

End arrays.

Section elementwise.
Context {A B C : Type}.

Lemma row_lengths_rows (F : list A → list B) (a : plane A) :
  (∀ row, length (F row) = length row) → row_lengths (F <$> a) = row_lengths a.
Proof.
  intros HF. unfold row_lengths. rewrite <- list_fmap_compose.
  apply list_fmap_ext. intros _ row _. apply HF.
Qed.

Lemma row_lengths_map2 (f : A → B → C) (a : plane A) (b : plane B) :
  row_lengths a = row_lengths b → row_lengths (map2 f a b) = row_lengths a.
Proof.
  unfold row_lengths, map2. revert b.
  induction a as [|r a IH]; intros [|r' b]; csimpl; try done.
  intros [= Hr Ha]. rewrite length_zip_with, IH by done. f_equal. lia.
Qed.

Lemma Forall2_map2 (Pa : A → Prop) (Pb : B → Prop) (Pc : C → Prop)
    (f : A → B → C) (a : plane A) (b : plane B) :
  (∀ x y, Pa x → Pb y → Pc (f x y)) →
  Forall (Forall Pa) a → Forall (Forall Pb) b → Forall (Forall Pc) (map2 f a b).
Proof.
  intros Hf Ha. unfold map2. revert b.
  induction Ha as [|r a Hr Ha IH]; intros b Hb; [done|].
  destruct Hb as [|r' b Hr' Hb]; [done|]. simpl. constructor; [|by apply IH].
  clear -Hf Hr Hr'. revert r' Hr'.
  induction Hr; intros r' Hr'; [done|]. destruct Hr'; [done|].
  simpl. constructor; auto.
Qed.

End elementwise.

(** ** OpenCV: channels of a colour frame *)

Section channels.
Context `{OpenCV}.
Implicit Types (src : volume Z).

Lemma nchans_chans src c : is_empty src = false → chans c src → nchans src = c.
Proof.
  unfold nchans, chans. induction src as [|row src IH]; simpl; [done|].
  intros He Hc. apply Forall_cons in Hc as [Hrow Hc].
  destruct row as [|px row]; simpl in *; [by apply IH|].
  by apply Forall_cons in Hrow as [? _].
Qed.

Lemma nchans_empty src : is_empty src = true → nchans src = 0.
Proof.
  unfold nchans. induction src as [|row src IH]; simpl; [done|].
  destruct row; simpl; [exact IH|done].
Qed.

Lemma cv2_split_3 src :
  nchans src = 3 → cv2_split src = [channel 0 src; channel 1 src; channel 2 src].
Proof. unfold cv2_split. by intros ->. Qed.

Lemma cv2_split_length src : length (cv2_split src) = nchans src.
Proof. unfold cv2_split. by rewrite length_fmap, length_seq. Qed.

Lemma row_lengths_channel k src : row_lengths (channel k src) = row_lengths src.
Proof.
  unfold row_lengths, channel. rewrite <- list_fmap_compose.
  apply list_fmap_ext. intros _ row _. simpl. by rewrite length_fmap.
Qed.

Lemma uint8_channel k c src :
  k < c → chans c src → uint8_volume src → uint8_plane (channel k src).
Proof.
  intros Hk Hc Hu. unfold channel, uint8_plane.
  apply Forall_fmap, Forall_lookup. intros i row Hi. simpl.
  apply Forall_fmap, Forall_lookup. intros j px Hj. simpl.
  unfold chans, uint8_volume in *. rewrite Forall_lookup in Hc, Hu.
  specialize (Hc _ _ Hi). specialize (Hu _ _ Hi).
  rewrite Forall_lookup in Hc, Hu.
  specialize (Hc _ _ Hj). specialize (Hu _ _ Hj). simpl in *.
  rewrite Forall_forall in Hu. apply Hu.
  apply list_elem_of_lookup_total_2. lia.
Qed.

Lemma cv2_merge_3 (b g r : plane Z) :
  row_lengths g = row_lengths b → row_lengths r = row_lengths b →
  cv2_merge [b; g; r] = Ok (interleave [b; g; r]).
Proof.
  intros Hg Hr. unfold cv2_merge. simpl.
  by rewrite !bool_decide_eq_true_2.
Qed.

Lemma row_lengths_interleave_3 (b g r : plane Z) :
  row_lengths g = row_lengths b → row_lengths r = row_lengths b →
  row_lengths (interleave [b; g; r]) = row_lengths b.
Proof.
  intros Hg Hr. simpl.
  assert (Hx : row_lengths ((λ row : list Z, (λ x, [x]) <$> row) <$> r)
               = row_lengths r).
  { unfold row_lengths. rewrite <- list_fmap_compose.
    apply list_fmap_ext. intros _ row _. simpl. by rewrite length_fmap. }
  rewrite row_lengths_map2; [done|].
  rewrite row_lengths_map2; congruence.
Qed.

Lemma interleave_3_pixels (P : Z → Prop) (b g r : plane Z) :
  Forall (Forall P) b → Forall (Forall P) g → Forall (Forall P) r →
  Forall (Forall (λ px : list Z, length px = 3 ∧ Forall P px)) (interleave [b; g; r]).
Proof.
  intros Hb Hg Hr. simpl.
  eapply (Forall2_map2 P (λ px : list Z, length px = 2 ∧ Forall P px));
    [| exact Hb |].
  { intros x px ? [Hl ?]. simpl. split; [by rewrite Hl|by constructor]. }
  eapply (Forall2_map2 P (λ px : list Z, length px = 1 ∧ Forall P px));
    [| exact Hg |].
  { intros x px ? [Hl ?]. simpl. split; [by rewrite Hl|by constructor]. }
  apply Forall_fmap. eapply Forall_impl; [exact Hr|]. intros row Hrow. simpl.
  apply Forall_fmap. eapply Forall_impl; [exact Hrow|]. intros x Hx. simpl.
  split; [done|by repeat constructor].
Qed.

Lemma chans_uint8_interleave_3 (b g r : plane Z) :
  uint8_plane b → uint8_plane g → uint8_plane r →
  chans 3 (interleave [b; g; r]) ∧ uint8_volume (interleave [b; g; r]).
Proof.
  intros Hb Hg Hr. pose proof (interleave_3_pixels is_uint8 b g r Hb Hg Hr) as HP.
  split.
  - eapply Forall_impl; [exact HP|]. intros row Hrow. simpl in *.
    eapply Forall_impl; [exact Hrow|]. by intros px [? _].
  - eapply Forall_impl; [exact HP|]. intros row Hrow. simpl in *.
    eapply Forall_impl; [exact Hrow|]. by intros px [_ ?].
Qed.

Lemma astype_uint8_range q : is_uint8 (astype_uint8 q).
Proof. unfold is_uint8, astype_uint8. apply Z.mod_pos_bound. lia. Qed.

(** Arrays of one shape whose pixels all have [c] channels. *)
Lemma shape_of_chans {A} (a b : volume A) c :
  row_lengths a = row_lengths b → chans c a → chans c b → shape a = shape b.
Proof.
  unfold shape, row_lengths, chans. revert b.
  induction a as [|r a IH]; intros [|r' b]; csimpl; try done.
  intros [= Hr Ha] Hca Hcb.
  apply Forall_cons in Hca as [Hra Hca]. apply Forall_cons in Hcb as [Hrb Hcb].
  f_equal; [|by apply IH].
  clear -Hr Hra Hrb. revert r' Hr Hrb.
  induction Hra as [|px r Hpx Hra IH]; intros [|px' r']; csimpl; try done.
  intros [= Hr] Hrb. apply Forall_cons in Hrb as [Hpx' Hrb].
  f_equal; [congruence|by apply IH].
Qed.

Lemma row_lengths_of_shape {A} (a b : volume A) :
  shape a = shape b → row_lengths a = row_lengths b.
Proof.
  unfold shape, row_lengths. intros Hs.
  apply (f_equal (fmap length)) in Hs.
  rewrite <- !list_fmap_compose in Hs.
  etrans; [|etrans; [exact Hs|]]; apply list_fmap_ext; intros _ row _; simpl;
    by rewrite length_fmap.
Qed.

End channels.

(** ** adaptive-sr.py: what a call of [apply_sr] does *)

Section engine.
Context `{Numpy, OpenCV} `{!NumpyLaws, !OpenCVLaws}.
Implicit Types (σ : world) (frame region : ndarray) (src : volume Z).

Lemma view_getitem_slice (h : gmap loc (volume Z)) frame x y w hh :
  view h (getitem_slice frame y (y + hh) x (x + w))
  = roi_window frame (x, y, w, hh) (view h frame).
Proof.
  unfold roi_window, roi_rows, roi_cols, getitem_slice, height, width.
  destruct (slice_indices y _ _) as [s e] eqn:Hr.
  destruct (slice_indices x _ _) as [cs ce] eqn:Hc.
  apply slice_indices_range in Hr, Hc. unfold view. simpl.
  rewrite slice2_slice2 by lia. done.
Qed.

Lemma view_insert_ne (h : gmap loc (volume Z)) l v frame :
  base frame ≠ l → view (<[l := v]> h) frame = view h frame.
Proof. intros. unfold view. by rewrite lookup_insert_ne. Qed.

Lemma view_whole (h : gmap loc (volume Z)) l v hh w :
  rect hh w v → view (<[l := v]> h) (whole l v) = v.
Proof.
  intros. unfold view, whole. simpl. rewrite lookup_insert_eq. simpl.
  by eapply slice2_full.
Qed.

Lemma fresh_not_in_heap (h : gmap loc (volume Z)) l :
  l ∈ dom h → l ≠ fresh (dom h).
Proof. intros Hl ->. by apply (is_fresh (dom h)). Qed.

(** *** The statistics step *)

Lemma detect_local_conditions_empty σ region :
  is_empty (view (heap σ) region) = true →
  detect_local_conditions region σ = (Raise CvError, σ).
Proof.
  intros He. unfold detect_local_conditions, bind, deref, lift, cv2_cvtColor_BGR2GRAY.
  by rewrite He.
Qed.

Lemma detect_local_conditions_channels σ region :
  nchans (view (heap σ) region) ≠ 3 → nchans (view (heap σ) region) ≠ 4 →
  detect_local_conditions region σ = (Raise CvError, σ).
Proof.
  intros H3 H4.
  unfold detect_local_conditions, bind, deref, lift, cv2_cvtColor_BGR2GRAY.
  destruct (is_empty _); [done|].
  apply Nat.eqb_neq in H3, H4. by rewrite H3, H4.
Qed.

Lemma detect_local_conditions_ok σ region :
  is_empty (view (heap σ) region) = false →
  nchans (view (heap σ) region) = 3 ∨ nchans (view (heap σ) region) = 4 →
  ∃ stats, detect_local_conditions region σ = (Ok stats, σ).
Proof.
  intros He Hn.
  unfold detect_local_conditions, bind, deref, lift, cv2_cvtColor_BGR2GRAY, ret.
  rewrite He.
  assert ((nchans (view (heap σ) region) =? 3)
          || (nchans (view (heap σ) region) =? 4) = true) as ->.
  { destruct Hn as [-> | ->]; done. }
  simpl. eauto.
Qed.

(** *** The filter step *)

Lemma process_channel_spec noise_level (ch : plane Z) σ :
  ∃ filtered g,
    process_channel noise_level ch σ
    = (Ok filtered, {| heap := heap σ; rng := g |})
    ∧ row_lengths filtered = row_lengths ch
    ∧ uint8_plane filtered.
Proof.
  unfold process_channel, bind, normal_like, ret.
  pose proof (np_random_normal_length 0 (noise_level * 255)
                (sum_list (row_lengths ch)) (rng σ)) as Hlen.
  destruct (np_random_normal _ _ _ _) as [l g]. simpl in Hlen.
  eexists _, g. split; [reflexivity|]. split.
  - rewrite cv2_bilateralFilter_shape. apply row_lengths_map2.
    by rewrite row_lengths_reshape.
  - apply cv2_bilateralFilter_uint8.
    eapply (Forall2_map2 (λ _, True) (λ _, True)).
    + intros. apply astype_uint8_range.
    + apply Forall_forall. intros. by apply Forall_forall.
    + apply Forall_forall. intros. by apply Forall_forall.
Qed.

Lemma _apply_sr_to_region_channels σ region noise_level :
  nchans (view (heap σ) region) ≠ 3 →
  _apply_sr_to_region region noise_level σ = (Raise ValueError, σ).
Proof.
  intros Hn. unfold _apply_sr_to_region, bind at 1, deref.
  pose proof (cv2_split_length (view (heap σ) region)) as Hl.
  destruct (cv2_split _) as [|? [|? [|? [|? ?]]]]; simpl in Hl;
    first [done | congruence].
Qed.

Lemma _apply_sr_to_region_ok σ region noise_level :
  nchans (view (heap σ) region) = 3 →
  chans 3 (view (heap σ) region) → uint8_volume (view (heap σ) region) →
  ∃ merged g,
    _apply_sr_to_region region noise_level σ
    = (Ok (whole (fresh (dom (heap σ))) merged),
       {| heap := <[fresh (dom (heap σ)) := merged]> (heap σ); rng := g |})
    ∧ row_lengths merged = row_lengths (view (heap σ) region)
    ∧ chans 3 merged ∧ uint8_volume merged.
Proof.
  intros Hn Hc Hu. unfold _apply_sr_to_region, bind at 1, deref.
  rewrite cv2_split_3 by done. set (src := view (heap σ) region) in *.
  unfold for_each.
  destruct (process_channel_spec noise_level (channel 0 src) σ)
    as (fb & g1 & Eb & Lb & Ub).
  destruct (process_channel_spec noise_level (channel 1 src)
              {| heap := heap σ; rng := g1 |}) as (fg & g2 & Eg & Lg & Ug).
  destruct (process_channel_spec noise_level (channel 2 src)
              {| heap := heap σ; rng := g2 |}) as (fr & g3 & Er & Lr & Ur).
  simpl in *. rewrite row_lengths_channel in Lb, Lg, Lr.
  exists (interleave [fb; fg; fr]), g3.
  split; [|split; [|by apply chans_uint8_interleave_3]].
  - unfold bind, ret, lift, alloc. rewrite Eb, Eg, Er.
    rewrite cv2_merge_3 by congruence. done.
  - rewrite row_lengths_interleave_3; congruence.
Qed.

Lemma bind_ok {A B} (m : M A) (k : A → M B) σ a σ' :
  m σ = (Ok a, σ') → bind m k σ = k a σ'.
Proof. unfold bind. by intros ->. Qed.

Lemma bind_raise {A B} (m : M A) (k : A → M B) σ e σ' :
  m σ = (Raise e, σ') → bind m k σ = (Raise e, σ').
Proof. unfold bind. by intros ->. Qed.

(** *** The whole call *)

Lemma view_region_of σ frame roi :
  view (heap σ) (region_of frame roi) = region_data σ frame roi.
Proof.
  destruct roi as [[[[x y] w] h]|]; [|done]. apply view_getitem_slice.
Qed.

Lemma base_region_of frame roi : base (region_of frame roi) = base frame.
Proof.
  destruct roi as [[[[x y] w] h]|]; [|done]. unfold region_of, getitem_slice.
  by repeat case_match.
Qed.

Lemma apply_sr_unfold self frame conditions roi σ :
  apply_sr self frame conditions roi σ
  = bind (detect_local_conditions (region_of frame roi)) (λ stats,
      bind (lift (calculate_noise_level self conditions stats.1 stats.2))
        (finish frame roi)) σ.
Proof.
  unfold apply_sr, finish.
  destruct roi as [[[[x y] w] h]|]; simpl; cbv beta delta [bind];
    by destruct (detect_local_conditions _ σ) as [[[b k]|e] σ'].
Qed.

Lemma frame_ok_region σ frame c roi :
  frame_ok σ frame c →
  chans c (region_data σ frame roi) ∧ uint8_volume (region_data σ frame roi).
Proof.
  intros (_ & _ & _ & _ & Hc & Hu).
  destruct roi as [r|]; [|done]. unfold region_data, roi_window.
  split; by apply Forall2_slice2.
Qed.

Lemma apply_sr_empty self frame conditions roi σ :
  is_empty (region_data σ frame roi) = true →
  apply_sr self frame conditions roi σ = (Raise CvError, σ).
Proof.
  intros He. rewrite apply_sr_unfold. apply bind_raise.
  apply detect_local_conditions_empty. by rewrite view_region_of.
Qed.

Lemma apply_sr_channels self frame conditions roi σ :
  nchans (region_data σ frame roi) ≠ 3 → nchans (region_data σ frame roi) ≠ 4 →
  apply_sr self frame conditions roi σ = (Raise CvError, σ).
Proof.
  intros H3 H4. rewrite apply_sr_unfold. apply bind_raise.
  apply detect_local_conditions_channels; by rewrite view_region_of.
Qed.

Lemma np_copy_run σ frame :
  np_copy frame σ
  = (Ok (whole (fresh (dom (heap σ))) (view (heap σ) frame)),
     {| heap := <[fresh (dom (heap σ)) := view (heap σ) frame]> (heap σ);
        rng := rng σ |}).
Proof. done. Qed.

Lemma view_region_of_copy σ frame roi v g :
  base frame ∈ dom (heap σ) →
  view (heap {| heap := <[fresh (dom (heap σ)) := v]> (heap σ); rng := g |})
       (region_of frame roi)
  = region_data σ frame roi.
Proof.
  intros Hb. simpl. rewrite view_insert_ne; [apply view_region_of|].
  rewrite base_region_of. by apply fresh_not_in_heap.
Qed.

Lemma finish_channels σ frame roi noise_level c :
  frame_ok σ frame c → c ≠ 3 → is_empty (region_data σ frame roi) = false →
  finish frame roi noise_level σ
  = (Raise ValueError,
     {| heap := <[fresh (dom (heap σ)) := view (heap σ) frame]> (heap σ);
        rng := rng σ |}).
Proof.
  intros Hok Hc He. unfold finish.
  rewrite (bind_ok _ _ _ _ _ (np_copy_run σ frame)).
  assert (_apply_sr_to_region (region_of frame roi) noise_level
            {| heap := <[fresh (dom (heap σ)) := view (heap σ) frame]> (heap σ);
               rng := rng σ |}
          = (Raise ValueError,
             {| heap := <[fresh (dom (heap σ)) := view (heap σ) frame]> (heap σ);
                rng := rng σ |})) as Hr.
  { apply _apply_sr_to_region_channels.
    rewrite view_region_of_copy by apply Hok.
    erewrite nchans_chans; [done|done|]. by eapply frame_ok_region. }
  destruct roi as [[[[x y] w] h]|]; by apply bind_raise.
Qed.

Lemma whole_height_width l (v : volume Z) hh ww :
  rect hh ww v → 0 < hh → height (whole l v) = hh ∧ width (whole l v) = ww.
Proof.
  intros Hr Hh. unfold height, width, whole. simpl.
  pose proof (proj1 (rect_row_lengths _ _ _) Hr) as ->. destruct Hr as [-> _].
  rewrite max_list_replicate by done. lia.
Qed.

Lemma is_empty_slice2_false {A} (a : list (list A)) s e cs ce :
  is_empty (slice2 s e cs ce a) = false → 0 < length a.
Proof. destruct a; [|simpl; lia]. unfold slice2. by rewrite drop_nil, take_nil. Qed.

Lemma getitem_slice_eq frame a x y w h s e cs ce :
  roi_rows frame (x, y, w, h) = (s, e) → roi_cols frame (x, y, w, h) = (cs, ce) →
  height a = height frame → width a = width frame →
  getitem_slice a y (y + h) x (x + w)
  = {| base := base a; row0 := row0 a + s; row1 := row0 a + e;
       col0 := col0 a + cs; col1 := col0 a + ce |}.
Proof.
  unfold roi_rows, roi_cols, getitem_slice, height, width.
  by intros Hr Hc -> ->; rewrite Hr, Hc.
Qed.

Lemma setitem_slice_run σ a ys ye xs xe (tgt processed : ndarray) v :
  getitem_slice a ys ye xs xe = tgt →
  view (heap σ) processed = v →
  shape v = shape (view (heap σ) tgt) →
  setitem_slice a ys ye xs xe processed σ
  = (Ok (),
     {| heap := alter (blit (row0 tgt) (col0 tgt) v) (base tgt) (heap σ);
        rng := rng σ |}).
Proof.
  intros Ht Hv Hs. unfold setitem_slice, bind, deref. rewrite Ht, Hv.
  by rewrite bool_decide_eq_true_2.
Qed.

Lemma finish_ok σ frame roi noise_level :
  frame_ok σ frame 3 → is_empty (region_data σ frame roi) = false →
  ∃ r σ' p,
    finish frame roi noise_level σ = (Ok r, σ')
    ∧ (base r ∉ dom (heap σ))
    ∧ (∀ l, l ∈ dom (heap σ) → heap σ' !! l = heap σ !! l)
    ∧ view (heap σ') r = composite frame roi p (view (heap σ) frame)
    ∧ row_lengths p = row_lengths (region_data σ frame roi)
    ∧ chans 3 p ∧ uint8_volume p.
Proof.
  intros Hok He. pose proof Hok as (Hb & Hr01 & Hc01 & Hrect & Hch & Hu8).
  destruct (frame_ok_region σ frame 3 roi Hok) as [Hrc Hru].
  set (F := view (heap σ) frame) in *.
  set (l1 := fresh (dom (heap σ))).
  set (σ1 := {| heap := <[l1 := F]> (heap σ); rng := rng σ |}).
  destruct (_apply_sr_to_region_ok σ1 (region_of frame roi) noise_level)
    as (p & g & Ep & Lp & Cp & Up).
  { subst σ1 l1. rewrite view_region_of_copy by done. by apply nchans_chans. }
  { subst σ1 l1. by rewrite view_region_of_copy. }
  { subst σ1 l1. by rewrite view_region_of_copy. }
  subst σ1 l1. rewrite view_region_of_copy in Lp by done. simpl in Ep.
  set (l1 := fresh (dom (heap σ))) in *.
  set (l2 := fresh (dom (<[l1 := F]> (heap σ)))) in *.
  assert (l1 ∉ dom (heap σ)) as Hl1 by apply is_fresh.
  assert (l2 ∉ dom (<[l1 := F]> (heap σ))) as Hl2 by apply is_fresh.
  rewrite dom_insert in Hl2.
  assert (l2 ≠ l1) as Hl12 by set_solver.
  assert (∀ l, l ∈ dom (heap σ) → l ≠ l1 ∧ l ≠ l2) as Hold by set_solver.
  unfold finish. rewrite (bind_ok _ _ _ _ _ (np_copy_run σ frame)). fold F l1.
  destruct roi as [[[[x y] w] h]|].
  2:{ rewrite (bind_ok _ _ _ _ _ Ep). unfold ret.
      eexists _, _, p. split; [reflexivity|]. simpl.
      split; [intros Hin; by destruct (Hold _ Hin)|]. split.
      { intros l Hl. destruct (Hold l Hl). by rewrite !lookup_insert_ne. }
      split; [|done].
      eapply view_whole, rect_row_lengths. rewrite Lp.
      by apply rect_row_lengths. }
  rewrite (bind_ok _ _ _ _ _ Ep).
  simpl in He, Lp, Hrc, Hru.
  set (roi := (x, y, w, h)) in *.
  set (R := roi_window frame roi F) in *.
  assert (0 < height frame) as Hpos.
  { unfold height. destruct Hrect as [<- _]. subst R. unfold roi_window in He.
    by eapply is_empty_slice2_false. }
  destruct (whole_height_width l1 F _ _ Hrect Hpos) as [Hh Hw].
  destruct (roi_rows frame roi) as [s e] eqn:Hrows.
  destruct (roi_cols frame roi) as [cs ce] eqn:Hcols.
  assert (rect (e - s) (ce - cs) R) as HrectR.
  { subst R. unfold roi_window. rewrite Hrows, Hcols. simpl.
    unfold roi_rows, roi_cols in Hrows, Hcols. simpl in Hrows, Hcols.
    apply slice_indices_range in Hrows, Hcols.
    apply (rect_slice2 _ _ _ _ _ _ _ Hrect); done. }
  assert (rect (e - s) (ce - cs) p) as Hrectp.
  { apply rect_row_lengths. rewrite Lp. by apply rect_row_lengths. }
  assert (getitem_slice (whole l1 F) y (y + h) x (x + w)
          = {| base := l1; row0 := s; row1 := e; col0 := cs; col1 := ce |}) as Ht.
  { by rewrite (getitem_slice_eq frame _ x y w h s e cs ce). }
  assert (view (<[l2:=p]> (<[l1:=F]> (heap σ))) (whole l2 p) = p) as Hvp.
  { by eapply view_whole. }
  assert (view (<[l2:=p]> (<[l1:=F]> (heap σ)))
            {| base := l1; row0 := s; row1 := e; col0 := cs; col1 := ce |} = R)
    as Hvt.
  { unfold view. simpl. rewrite lookup_insert_ne, lookup_insert_eq by done.
    subst R. unfold roi_window. by rewrite Hrows, Hcols. }
  pose proof (setitem_slice_run
                {| heap := <[l2:=p]> (<[l1:=F]> (heap σ)); rng := g |}
                (whole l1 F) y (y + h)%Z x (x + w)%Z _ (whole l2 p) p Ht Hvp)
    as Hset.
  simpl in Hset. rewrite Hvt in Hset.
  rewrite (bind_ok _ _ _ _ _ (Hset (shape_of_chans _ _ 3 Lp Cp Hrc))).
  unfold ret. eexists _, _, p. split; [reflexivity|].
  unfold composite. rewrite Hrows, Hcols. cbn [fst snd heap base whole].
  split; [done|]. split.
  { intros l Hl. destruct (Hold l Hl).
    by rewrite lookup_alter_ne, !lookup_insert_ne. }
  split; [|done].
  unfold view. cbn [base row0 row1 col0 col1].
  rewrite lookup_alter_eq, lookup_insert_ne, lookup_insert_eq by done.
  cbn [fmap option_fmap option_map default]. unfold whole, id.
  cbn [row0 row1 col0 col1].
  rewrite <- (row_lengths_blit s cs p F).
  replace (length F) with (length (blit s cs p F)).
  2:{ rewrite <- (length_fmap length (blit s cs p F)).
      fold (row_lengths (blit s cs p F)).
      by rewrite row_lengths_blit; unfold row_lengths; rewrite length_fmap. }
  eapply slice2_full, rect_row_lengths. rewrite row_lengths_blit.
  by apply rect_row_lengths.
Qed.

(** Every outcome of a call: buffers that existed before keep their
    contents, and a returned frame is a new buffer holding the processed
    region laid over a copy of the input. *)
Lemma apply_sr_outcome self frame conditions roi σ c res σ' :
  frame_ok σ frame c →
  apply_sr self frame conditions roi σ = (res, σ') →
  (∀ l, l ∈ dom (heap σ) → heap σ' !! l = heap σ !! l)
  ∧ match res with
    | Ok r =>
        c = 3 ∧ is_empty (region_data σ frame roi) = false
        ∧ (base r ∉ dom (heap σ))
        ∧ ∃ p, view (heap σ') r = composite frame roi p (view (heap σ) frame)
               ∧ row_lengths p = row_lengths (region_data σ frame roi)
               ∧ chans 3 p ∧ uint8_volume p
    | Raise e => True
    end.
Proof.
  intros Hok. rewrite apply_sr_unfold.
  destruct (is_empty (region_data σ frame roi)) eqn:He.
  { rewrite (bind_raise _ _ σ CvError σ).
    - by intros [= <- <-].
    - apply detect_local_conditions_empty. by rewrite view_region_of. }
  pose proof (frame_ok_region σ frame c roi Hok) as [Hrc _].
  pose proof (nchans_chans _ _ He Hrc) as Hn.
  destruct (decide (c = 3 ∨ c = 4)) as [Hc|Hc].
  2:{ rewrite (bind_raise _ _ σ CvError σ).
      - by intros [= <- <-].
      - apply detect_local_conditions_channels; rewrite view_region_of; lia. }
  destruct (detect_local_conditions_ok σ (region_of frame roi)) as [stats Es].
  { by rewrite view_region_of. }
  { rewrite view_region_of. lia. }
  rewrite (bind_ok _ _ _ _ _ Es). unfold bind at 1, lift.
  destruct (calculate_noise_level self conditions stats.1 stats.2) as [nl|e].
  2:{ by intros [= <- <-]. }
  destruct Hc as [-> | ->].
  - destruct (finish_ok σ frame roi nl Hok He) as (r & σ1 & p & -> & Hf).
    intros [= <- <-]. destruct Hf as (? & ? & ? & ?). eauto 10.
  - rewrite (finish_channels σ frame roi nl 4 Hok) by done.
    intros [= <- <-]. split; [|done]. simpl. intros l Hl.
    rewrite lookup_insert_ne; [done|]. intros <-. by apply (is_fresh (dom (heap σ))).
Qed.

(** The default engine processes every non-empty region of a 3-channel
    frame. *)
Lemma apply_sr_total frame conditions roi σ :
  frame_ok σ frame 3 → is_empty (region_data σ frame roi) = false →
  ∃ r σ', apply_sr __init__ frame conditions roi σ = (Ok r, σ').
Proof.
  intros Hok He. rewrite apply_sr_unfold.
  pose proof (frame_ok_region σ frame 3 roi Hok) as [Hrc _].
  destruct (detect_local_conditions_ok σ (region_of frame roi)) as [stats Es].
  { by rewrite view_region_of. }
  { rewrite view_region_of. left. by apply nchans_chans. }
  rewrite (bind_ok _ _ _ _ _ Es). unfold bind at 1, lift.
  rewrite calculate_noise_level_eq.
  destruct (finish_ok σ frame roi (level_of conditions stats.1 stats.2) Hok He)
    as (r & σ1 & p & -> & _). eauto.
Qed.

Lemma is_empty_rect {A} (a : list (list A)) hh ww :
  rect hh ww a → 0 < hh → 0 < ww → is_empty a = false.
Proof.
  intros [Hh Hw] ? ?. destruct a as [|row a]; simpl in *; [lia|].
  apply Forall_cons in Hw as [Hrow _]. rewrite Hrow.
  by destruct ww; [lia|].
Qed.

Lemma composite_props frame roi p σ :
  frame_ok σ frame 3 →
  row_lengths p = row_lengths (region_data σ frame roi) →
  chans 3 p → uint8_volume p →
  shape (composite frame roi p (view (heap σ) frame)) = shape (view (heap σ) frame)
  ∧ uint8_volume (composite frame roi p (view (heap σ) frame)).
Proof.
  intros (_ & _ & _ & _ & Hc & Hu) Lp Cp Up. destruct roi as [r|]; simpl in *.
  - split; [|by apply Forall2_blit].
    eapply shape_of_chans; [apply row_lengths_blit| |done].
    by apply Forall2_blit.
  - split; [|done]. by eapply shape_of_chans.
Qed.

(** C2: whenever [apply_sr] returns a frame, it has the height, the width
    and the channel count of the input and all its samples lie in
    [0, 255]; and it does return one for every 3-channel frame whose
    region is not empty. *)
Theorem apply_sr_keeps_shape_and_range self frame conditions roi σ c :
  frame_ok σ frame c →
  (∀ r σ', apply_sr self frame conditions roi σ = (Ok r, σ') →
     shape (view (heap σ') r) = shape (view (heap σ) frame)
     ∧ uint8_volume (view (heap σ') r))
  ∧ (c = 3 → is_empty (region_data σ frame roi) = false →
     ∃ r σ', apply_sr __init__ frame conditions roi σ = (Ok r, σ')).
Proof.
  intros Hok. split.
  - intros r σ' E.
    destruct (apply_sr_outcome _ _ _ _ _ _ _ _ Hok E)
      as (_ & -> & _ & _ & p & -> & Lp & Cp & Up).
    by apply composite_props.
  - intros -> He. by apply apply_sr_total.
Qed.

(** C3: with a region of interest that lies inside the frame, every
    pixel outside it comes out as it went in, the returned frame is a
    buffer that did not exist before the call, and no buffer that did,
    the caller's among them, is changed. *)
Theorem apply_sr_roi_leaves_outside_untouched self frame conditions x y w h σ c :
  frame_ok σ frame c →
  (0 ≤ x)%Z → (0 ≤ y)%Z → (0 < w)%Z → (0 < h)%Z →
  (x + w ≤ Z.of_nat (width frame))%Z → (y + h ≤ Z.of_nat (height frame))%Z →
  (∀ res σ', apply_sr self frame conditions (Some (x, y, w, h)) σ = (res, σ') →
     (∀ l, l ∈ dom (heap σ) → heap σ' !! l = heap σ !! l)
     ∧ view (heap σ') frame = view (heap σ) frame
     ∧ ∀ r, res = Ok r →
         base r ≠ base frame ∧ (base r ∉ dom (heap σ))
         ∧ ∀ i j, ¬ ((y ≤ Z.of_nat i < y + h)%Z ∧ (x ≤ Z.of_nat j < x + w)%Z) →
             at2 (view (heap σ') r) i j = at2 (view (heap σ) frame) i j)
  ∧ (c = 3 →
     ∃ r σ', apply_sr __init__ frame conditions (Some (x, y, w, h)) σ = (Ok r, σ')).
Proof.
  intros Hok Hx Hy Hw Hh Hxw Hyh.
  pose proof Hok as (Hb & _ & _ & Hrect & _ & _).
  assert (roi_rows frame (x, y, w, h) = (Z.to_nat y, Z.to_nat y + Z.to_nat h)) as Hrows
    by by apply slice_indices_inside; lia.
  assert (roi_cols frame (x, y, w, h) = (Z.to_nat x, Z.to_nat x + Z.to_nat w)) as Hcols
    by by apply slice_indices_inside; lia.
  assert (rect (Z.to_nat h) (Z.to_nat w)
            (region_data σ frame (Some (x, y, w, h)))) as HrectR.
  { simpl. unfold roi_window. rewrite Hrows, Hcols. simpl.
    replace (Z.to_nat h) with (Z.to_nat y + Z.to_nat h - Z.to_nat y) at 1 by lia.
    replace (Z.to_nat w) with (Z.to_nat x + Z.to_nat w - Z.to_nat x) at 1 by lia.
    apply (rect_slice2 _ _ _ _ _ _ _ Hrect); unfold height, width in *; lia. }
  split.
  - intros res σ' E.
    destruct (apply_sr_outcome _ _ _ _ _ _ _ _ Hok E) as [Hold Hres].
    split; [done|]. split.
    { unfold view. by rewrite (Hold _ Hb). }
    intros r ->. destruct Hres as (_ & _ & Hfresh & p & -> & Lp & _ & _).
    split; [by intros E'; rewrite E' in Hfresh|]. split; [done|].
    intros i j Hout. unfold composite. rewrite Hrows, Hcols. cbn [fst snd].
    assert (rect (Z.to_nat h) (Z.to_nat w) p) as [Hlen Hrow].
    { apply rect_row_lengths. rewrite Lp. by apply rect_row_lengths. }
    apply (at2_blit_outside _ _ (Z.to_nat w)); [done|lia].
  - intros ->. apply apply_sr_total; [done|].
    eapply is_empty_rect; [done|lia|lia].
Qed.

Lemma slice_indices_overhang start size len :
  (0 ≤ start < Z.of_nat len)%Z → (0 < size)%Z →
  slice_indices start (start + size) len
  = (Z.to_nat start, Z.to_nat start + Z.to_nat size `min` (len - Z.to_nat start)).
Proof.
  intros. unfold slice_indices, adjust_index. repeat case_match; f_equal; lia.
Qed.

(** C8, as amended: [apply_sr] does not validate the region of interest
    but slices the frame as NumPy does.  When the adjusted slice is empty
    the call fails with the OpenCV error of the grey conversion and leaves
    the state as it was; otherwise the clipped window of a 3-channel
    frame is processed and written over a copy of the input; and a
    rectangle of positive size whose origin lies in the frame is clipped
    to the frame and never empty, however far it overhangs. *)
Theorem apply_sr_roi_is_sliced frame conditions roi σ :
  frame_ok σ frame 3 →
  (is_empty (roi_window frame roi (view (heap σ) frame)) = true →
     apply_sr __init__ frame conditions (Some roi) σ = (Raise CvError, σ))
  ∧ (is_empty (roi_window frame roi (view (heap σ) frame)) = false →
     ∃ r σ' p,
       apply_sr __init__ frame conditions (Some roi) σ = (Ok r, σ')
       ∧ view (heap σ') r
         = blit (roi_rows frame roi).1 (roi_cols frame roi).1 p (view (heap σ) frame)
       ∧ shape p = shape (roi_window frame roi (view (heap σ) frame))
       ∧ shape (view (heap σ') r) = shape (view (heap σ) frame))
  ∧ (∀ x y w h, roi = (x, y, w, h) →
       (0 ≤ x < Z.of_nat (width frame))%Z → (0 ≤ y < Z.of_nat (height frame))%Z →
       (0 < w)%Z → (0 < h)%Z →
       roi_rows frame roi
       = (Z.to_nat y, Z.to_nat y + Z.to_nat h `min` (height frame - Z.to_nat y))
       ∧ roi_cols frame roi
         = (Z.to_nat x, Z.to_nat x + Z.to_nat w `min` (width frame - Z.to_nat x))
       ∧ is_empty (roi_window frame roi (view (heap σ) frame)) = false).
Proof.
  intros Hok. split; [|split].
  - intros He. by apply apply_sr_empty.
  - intros He.
    destruct (apply_sr_total frame conditions (Some roi) σ Hok He) as (r & σ' & E).
    destruct (apply_sr_outcome _ _ _ _ _ _ _ _ Hok E)
      as (_ & _ & _ & _ & p & Hv & Lp & Cp & Up).
    exists r, σ', p. split; [done|]. split; [done|].
    destruct (frame_ok_region σ frame 3 (Some roi) Hok) as [Hrc _].
    split; [by eapply shape_of_chans|].
    rewrite Hv. by apply composite_props.
  - intros x y w h -> Hx Hy Hw Hh.
    pose proof Hok as (_ & _ & _ & Hrect & _ & _).
    assert (roi_rows frame (x, y, w, h)
            = (Z.to_nat y, Z.to_nat y + Z.to_nat h `min` (height frame - Z.to_nat y)))
      as Hrows by by apply slice_indices_overhang.
    assert (roi_cols frame (x, y, w, h)
            = (Z.to_nat x, Z.to_nat x + Z.to_nat w `min` (width frame - Z.to_nat x)))
      as Hcols by by apply slice_indices_overhang.
    split; [done|]. split; [done|].
    unfold roi_window. rewrite Hrows, Hcols. simpl.
    eapply is_empty_rect;
      [apply (rect_slice2 _ _ _ _ _ _ _ Hrect); unfold height, width in *; lia
      |unfold height, width in *; lia..].
Qed.

(** C10: a single-channel frame is rejected by both steps: the grey
    conversion of the statistics step fails, the filter step cannot
    unpack three channels, and [apply_sr] fails in the statistics step
    before it has copied or changed anything. *)
Theorem single_channel_frame_rejected self frame conditions roi noise_level σ :
  chans 1 (view (heap σ) frame) →
  detect_local_conditions frame σ = (Raise CvError, σ)
  ∧ _apply_sr_to_region frame noise_level σ = (Raise ValueError, σ)
  ∧ apply_sr self frame conditions roi σ = (Raise CvError, σ).
Proof.
  intros Hc.
  assert (∀ src : volume Z, chans 1 src →
            is_empty src = true ∨ nchans src = 1) as Hcase.
  { intros src Hs. destruct (is_empty src) eqn:He; [by left|right].
    by apply nchans_chans. }
  split; [|split].
  - destruct (Hcase _ Hc) as [He|Hn].
    + by apply detect_local_conditions_empty.
    + apply detect_local_conditions_channels; lia.
  - apply _apply_sr_to_region_channels.
    destruct (Hcase _ Hc) as [He|Hn]; [|lia].
    by rewrite nchans_empty.
  - assert (chans 1 (region_data σ frame roi)) as Hr.
    { destruct roi as [r|]; [|done]. by apply Forall2_slice2. }
    destruct (Hcase _ Hr) as [He|Hn].
    + by apply apply_sr_empty.
    + apply apply_sr_channels; lia.
Qed.

End engine.


(** ** sr_video_gui.py: seeded noise *)

Section seeded.
Context `{Numpy, PIL}.


End seeded.

(** ** sr_gui.py: salt and pepper *)

Section salt_and_pepper.
Import SrGui.
Open Scope Q_scope.

Lemma Qlt_bool_iff a b : Qlt_bool a b = true ↔ a < b.
Proof.
  unfold Qlt_bool. rewrite negb_true_iff, <- not_true_iff_false, Qle_bool_iff.
  split; [apply Qnot_le_lt|apply Qlt_not_le].
Qed.

Lemma at2_fmap {A B} (f : A → B) (a : plane A) i j :
  at2 (fmap (M:=list) (fmap (M:=list) f) a) i j = f <$> at2 a i j.
Proof.
  unfold at2. rewrite list_lookup_fmap.
  destruct (a !! i) as [row|]; [simpl|done]. by rewrite list_lookup_fmap.
Qed.

Lemma at2_map2 {A B C} (f : A → B → C) (a : plane A) (b : plane B) i j x y :
  at2 a i j = Some x → at2 b i j = Some y → at2 (map2 f a b) i j = Some (f x y).
Proof.
  unfold at2, map2. intros Ha Hb. rewrite lookup_zip_with.
  destruct (a !! i) as [ra|]; [simpl in *|done].
  destruct (b !! i) as [rb|]; [simpl in *|done].
  by rewrite lookup_zip_with, Ha, Hb.
Qed.

(** C6: for a noise level between 0 and 1 no pixel is flagged both salt
    and pepper. *)
Theorem salt_and_pepper_masks_exclusive (noise_value : Q) (noise_mask : plane Q)
    (i j : nat) :
  0 <= noise_value <= 1 →
  ¬ (at2 (salt_mask noise_value noise_mask) i j = Some true
     ∧ at2 (pepper_mask noise_value noise_mask) i j = Some true).
Proof.
  intros Hn [Hs Hp]. unfold salt_mask, pepper_mask in *.
  rewrite at2_fmap in Hs, Hp.
  destruct (at2 noise_mask i j) as [m|]; [simpl in *|done].
  injection Hs as Hs. injection Hp as Hp.
  apply Qlt_bool_iff in Hs, Hp.
  assert (noise_value / 2 == noise_value * (1 # 2)) as E by (unfold Qdiv; reflexivity).
  rewrite E in Hs, Hp. lra.
Qed.

(** What the branch does to a pixel of a grey image: salt unless the
    pixel is also flagged pepper, and otherwise nothing. *)
Lemma salt_and_pepper_gray noise_value noise_mask (a : plane Z) i j m x :
  at2 noise_mask i j = Some m → at2 a i j = Some x →
  ∃ out, salt_and_pepper noise_value noise_mask (Arr2 a) = Arr2 out
         ∧ at2 out i j
           = Some (if Qlt_bool m (noise_value / 2)
                      && negb (Qlt_bool (1 - noise_value / 2) m)
                   then 255%Z else x).
Proof.
  intros Hm Hx. eexists. split; [reflexivity|].
  assert (at2 (fmap (M:=list) (fmap (M:=list) (λ _ : Z, 0%Z)) a) i j = Some 0%Z)
    as Hz by by rewrite at2_fmap, Hx.
  assert (at2 (salt_mask noise_value noise_mask) i j
          = Some (Qlt_bool m (noise_value / 2))) as Hsm
    by by unfold salt_mask; rewrite at2_fmap, Hm.
  assert (at2 (pepper_mask noise_value noise_mask) i j
          = Some (Qlt_bool (1 - noise_value / 2) m)) as Hpm
    by by unfold pepper_mask; rewrite at2_fmap, Hm.
  pose proof (at2_map2 (λ (m : bool) x, if m then 255%Z else x) _ _ i j _ _ Hsm Hz)
    as H1.
  pose proof (at2_map2 (λ (m : bool) x, if m then 0%Z else x) _ _ i j _ _ Hpm H1)
    as H2.
  rewrite (at2_map2 _ _ _ i j _ _ H2 Hx). f_equal.
  by destruct (Qlt_bool m _), (Qlt_bool _ m).
Qed.

(** C5, at a failing input: a pixel of value 100 whose draw 0.99 exceeds
    [1 - 0.1 / 2] is flagged pepper and not salt, and the branch returns
    it with the value 100 it had, not 0; a pixel whose draw is 0.01 is
    set to 255. *)
Theorem pepper_pixel_left_unchanged :
  pepper_mask 0.1 [[0.99; 0.01]] = [[true; false]]
  ∧ salt_mask 0.1 [[0.99; 0.01]] = [[false; true]]
  ∧ salt_and_pepper 0.1 [[0.99; 0.01]] (Arr3 [[[100; 100; 100]; [100; 100; 100]]]%Z)
    = Arr3 [[[100; 100; 100]; [255; 255; 255]]]%Z
  ∧ salt_and_pepper 0.1 [[0.99; 0.01]] (Arr2 [[100; 100]]%Z) = Arr2 [[100; 255]]%Z.
Proof. repeat split; reflexivity. Qed.

End salt_and_pepper.

(** ** sr_sandbox.py: the spatial noise map *)

Section spatial.
Context `{Numpy, OpenCV} `{!NumpyLaws, !OpenCVLaws}.
Open Scope Q_scope.

(** C9: for a colour frame the noise map has the shape of the frame's
    pixel grid and holds, at every pixel, [base_noise * (1 - s / 255)]
    for the value [s] of the 21x21 box filter of the grey image there;
    nothing clamps it: wherever [s] is positive the entry lies strictly
    below a positive [base_noise]. *)
Theorem noise_map_is_scaled_box_filter (image : volume Z) (base_noise : Q) :
  is_empty image = false → nchans image = 3%nat →
  ∃ gray nm,
    cv2_cvtColor_BGR2GRAY image = Ok gray
    ∧ SrSandbox.noise_map image base_noise = Ok nm
    ∧ row_lengths nm = row_lengths image
    ∧ ∀ i j s,
        at2 (cv2_boxFilter (fmap (M:=list) (fmap (M:=list) inject_Z) gray)
               (21, 21)%nat) i j = Some s →
        at2 nm i j = Some (base_noise * (1.0 - s / 255.0))
        ∧ (0 < base_noise → 0 < s → base_noise * (1.0 - s / 255.0) < base_noise).
Proof.
  intros He Hn. unfold SrSandbox.noise_map, cv2_cvtColor_BGR2GRAY.
  rewrite He, Hn. simpl. eexists _, _. split; [reflexivity|]. split; [reflexivity|].
  split.
  - rewrite row_lengths_rows by (intros; apply length_fmap).
    rewrite cv2_boxFilter_shape.
    by rewrite !row_lengths_rows by (intros; apply length_fmap).
  - intros i j s Hs. split; [by rewrite at2_fmap, Hs|].
    intros Hb Hpos.
    assert (s / 255.0 == s * (10 # 2550)) as -> by (unfold Qdiv; reflexivity).
    nra.
Qed.

End spatial.

(** ** The reference instances satisfy the laws *)

Section reference.
Import Reference.
Open Scope Z_scope.

Lemma draws_length n s : length (draws n s).1 = n.
Proof.
  revert s. induction n as [|n IH]; intros s; simpl; [done|].
  specialize (IH (lcg s)). destruct (draws n (lcg s)). simpl in *. by rewrite IH.
Qed.

Lemma sampler_length f n s : length (sampler f n s).1 = n.
Proof.
  unfold sampler. pose proof (draws_length n s) as Hl.
  destruct (draws n s). simpl in *. by rewrite length_fmap.
Qed.

Lemma numpy_laws : NumpyLaws (H := numpy).
Proof. split; intros; apply sampler_length. Qed.

Lemma mean_Z_uint8 l : l ≠ [] → Forall is_uint8 l → is_uint8 (mean_Z l).
Proof.
  intros Hne Hl. unfold mean_Z, is_uint8 in *.
  assert (0 ≤ foldr Z.add 0 l ≤ 255 * Z.of_nat (length l)) as Hs.
  { clear Hne. induction Hl as [|x l Hx Hl IH]; simpl length; simpl foldr; lia. }
  assert (0 < Z.of_nat (length l)) by (destruct l; [done|simpl; lia]).
  split; [apply Z.div_pos; lia|].
  apply Z.div_lt_upper_bound; lia.
Qed.

Lemma gated_uint8 sigma x o :
  (∀ y, o = Some y → is_uint8 y) → Forall is_uint8 (gated sigma x o).
Proof.
  intros Ho. unfold gated. destruct o as [y|]; [|done].
  case_match; [|done]. constructor; [by apply Ho|done].
Qed.

Lemma smooth_shape src d sc ss : row_lengths (smooth src d sc ss) = row_lengths src.
Proof.
  unfold row_lengths, smooth. rewrite <- list_fmap_compose.
  apply list_fmap_ext. intros _ row _. simpl. by rewrite length_imap.
Qed.

Lemma smooth_uint8 src d sc ss : uint8_plane src → uint8_plane (smooth src d sc ss).
Proof.
  intros Hs. unfold smooth, uint8_plane.
  apply Forall_fmap. eapply Forall_impl; [exact Hs|]. intros row Hrow. simpl.
  apply Forall_lookup. intros j v. rewrite list_lookup_imap.
  destruct (row !! j) as [x|] eqn:Hj; [simpl|done]. intros [= <-].
  rewrite Forall_lookup in Hrow.
  apply mean_Z_uint8; [done|]. unfold neighbours.
  constructor; [by eapply Hrow|]. apply Forall_app. split; apply gated_uint8.
  - destruct j; [done|]. intros y Hy. by eapply Hrow.
  - intros y Hy. by eapply Hrow.
Qed.

Lemma box_shape src ksize : row_lengths (box src ksize) = row_lengths src.
Proof.
  unfold row_lengths, box. destruct ksize as [kh kw]. apply list_eq. intros i.
  rewrite !list_lookup_fmap, list_lookup_imap.
  destruct (src !! i); [simpl|done]. by rewrite length_imap.
Qed.

Lemma opencv_laws : OpenCVLaws (H := opencv).
Proof.
  split; [apply smooth_shape|apply smooth_uint8|apply box_shape].
Qed.

End reference.

(** ** Worked examples *)

Section examples.
Import Reference.
#[local] Existing Instance numpy_laws.
#[local] Existing Instance opencv_laws.
Open Scope Z_scope.

Lemma frame_2x2_ok : frame_ok (world_of frame_2x2) (whole 1 frame_2x2) 3.
Proof.
  unfold frame_ok. split; [by apply elem_of_dom; eexists|].
  split; [simpl; lia|]. split; [simpl; lia|].
  split; [split; [done|by repeat constructor]|].
  split; [by repeat constructor|].
  repeat constructor; done.
Qed.

Lemma noise_level_monotone_witness :
  (∃ v1 v2,
      calculate_noise_level __init__ (with_ambient_light midday 0) 0.5 0.2 = Ok v1
      ∧ calculate_noise_level __init__ (with_ambient_light midday 50000) 0.5 0.2
        = Ok v2
      ∧ (v2 <= v1)%Q)
  ∧ (∃ v1 v2,
      calculate_noise_level __init__ midday 0 0.2 = Ok v1
      ∧ calculate_noise_level __init__ midday 0.5 0.2 = Ok v2
      ∧ (v2 <= v1)%Q).
Proof.
  split.
  - apply (proj1 (noise_level_monotone midday 0.2) 0.5%Q 0%Q 50000%Q).
    by vm_compute.
  - apply (proj1 (proj2 (noise_level_monotone midday 0.2)) 0%Q 0.5%Q);
      by vm_compute.
Defined.

Lemma apply_sr_keeps_shape_and_range_witness :
  ∃ r σ',
    apply_sr __init__ (whole 1 frame_2x2) midday None (world_of frame_2x2)
    = (Ok r, σ')
    ∧ shape (view (heap σ') r)
      = shape (view (heap (world_of frame_2x2)) (whole 1 frame_2x2))
    ∧ uint8_volume (view (heap σ') r).
Proof.
  destruct (apply_sr_keeps_shape_and_range __init__ (whole 1 frame_2x2) midday
              None (world_of frame_2x2) 3 frame_2x2_ok) as [Hshape Hret].
  destruct (Hret eq_refl eq_refl) as (r & σ' & E).
  exists r, σ'. split; [exact E|]. exact (Hshape r σ' E).
Defined.

Lemma apply_sr_roi_leaves_outside_untouched_witness :
  ∃ r σ',
    apply_sr __init__ (whole 1 frame_2x2) midday (Some (0, 0, 1, 1))
      (world_of frame_2x2) = (Ok r, σ')
    ∧ view (heap σ') (whole 1 frame_2x2)
      = view (heap (world_of frame_2x2)) (whole 1 frame_2x2)
    ∧ base r ≠ 1%positive
    ∧ at2 (view (heap σ') r) 1 1
      = at2 (view (heap (world_of frame_2x2)) (whole 1 frame_2x2)) 1 1.
Proof.
  destruct (apply_sr_roi_leaves_outside_untouched __init__ (whole 1 frame_2x2)
              midday 0 0 1 1 (world_of frame_2x2) 3 frame_2x2_ok
              ltac:(lia) ltac:(lia) ltac:(lia) ltac:(lia)
              ltac:(by vm_compute) ltac:(by vm_compute)) as [Hall Hret].
  destruct (Hret eq_refl) as (r & σ' & E).
  destruct (Hall _ _ E) as (_ & Hv & Hr).
  destruct (Hr r eq_refl) as (Hne & _ & Hout).
  exists r, σ'. split; [exact E|]. split; [exact Hv|]. split; [exact Hne|].
  apply Hout. lia.
Defined.

(** C8, a counterexample: the rectangle (1, 1, 2, 2) overhangs the 2x2
    frame on both axes, yet the call returns a frame, in which the pixel
    at (1, 1) has been processed. *)
Lemma apply_sr_overhanging_roi_processed :
  (apply_sr __init__ (whole 1 frame_2x2) midday (Some (1, 1, 2, 2))
     (world_of frame_2x2)).1 = Ok (whole 2 frame_2x2)
  ∧ view (heap (apply_sr __init__ (whole 1 frame_2x2) midday (Some (1, 1, 2, 2))
                  (world_of frame_2x2)).2) (whole 2 frame_2x2)
    = [[[10; 20; 30]; [40; 50; 60]]; [[70; 80; 90]; [38; 41; 86]]].
Proof. split; by vm_compute. Qed.

Lemma apply_sr_roi_is_sliced_witness :
  ∃ r σ' p,
    apply_sr __init__ (whole 1 frame_2x2) midday (Some (1, 1, 2, 2))
      (world_of frame_2x2) = (Ok r, σ')
    ∧ view (heap σ') r
      = blit (roi_rows (whole 1 frame_2x2) (1, 1, 2, 2)).1
             (roi_cols (whole 1 frame_2x2) (1, 1, 2, 2)).1 p
             (view (heap (world_of frame_2x2)) (whole 1 frame_2x2)).
Proof.
  destruct (apply_sr_roi_is_sliced (whole 1 frame_2x2) midday (1, 1, 2, 2)
              (world_of frame_2x2) frame_2x2_ok) as (_ & Hok & Hclip).
  destruct (Hclip 1 1 2 2 eq_refl ltac:(by vm_compute) ltac:(by vm_compute)
              ltac:(lia) ltac:(lia)) as (_ & _ & He).
  destruct (Hok He) as (r & σ' & p & E & Hv & _).
  exists r, σ', p. split; [exact E|exact Hv].
Defined.

Lemma single_channel_frame_rejected_witness :
  detect_local_conditions (whole 1 gray_2x2) (world_of gray_2x2)
  = (Raise CvError, world_of gray_2x2)
  ∧ _apply_sr_to_region (whole 1 gray_2x2) 0.1 (world_of gray_2x2)
    = (Raise ValueError, world_of gray_2x2)
  ∧ apply_sr __init__ (whole 1 gray_2x2) midday None (world_of gray_2x2)
    = (Raise CvError, world_of gray_2x2).
Proof.
  apply single_channel_frame_rejected. by repeat constructor.
Defined.

Lemma salt_and_pepper_masks_exclusive_witness :
  ¬ (at2 (SrGui.salt_mask 0.5 [[0.1; 0.9]]%Q) 0 0 = Some true
     ∧ at2 (SrGui.pepper_mask 0.5 [[0.1; 0.9]]%Q) 0 0 = Some true).
Proof. apply salt_and_pepper_masks_exclusive. split; by vm_compute. Defined.

Lemma noise_map_is_scaled_box_filter_witness :
  ∃ gray nm,
    cv2_cvtColor_BGR2GRAY frame_2x2 = Ok gray
    ∧ SrSandbox.noise_map frame_2x2 0.1 = Ok nm
    ∧ row_lengths nm = row_lengths frame_2x2
    ∧ ∀ i j s,
        at2 (cv2_boxFilter (fmap (M:=list) (fmap (M:=list) inject_Z) gray)
               (21, 21)%nat) i j = Some s →
        at2 nm i j = Some (0.1 * (1.0 - s / 255.0))%Q
        ∧ ((0 < 0.1)%Q → (0 < s)%Q → (0.1 * (1.0 - s / 255.0) < 0.1)%Q).
Proof. apply noise_map_is_scaled_box_filter; reflexivity. Defined.

(** Without a seed the image depends on the state of the generator; with
    one it does not. *)
Lemma unseeded_noise_depends_on_state :
  (SrVideoGui.apply_image_modifications (Arr3 frame_2x2) 1 1 0.1 (2, 2)%nat None 1).1
  ≠ (SrVideoGui.apply_image_modifications (Arr3 frame_2x2) 1 1 0.1 (2, 2)%nat None 2).1
  ∧ SrVideoGui.apply_image_modifications (Arr3 frame_2x2) 1 1 0.1 (2, 2)%nat (Some 7) 1
    = SrVideoGui.apply_image_modifications (Arr3 frame_2x2) 1 1 0.1 (2, 2)%nat (Some 7) 2.
Proof. split; by vm_compute. Qed.


(** A run of the salt-and-pepper branch of [sr_gui.py]: of the four draws
    the first two exceed [1 - 0.5 / 2] and the third is below [0.5 / 2];
    the third pixel turns white and the first two, flagged pepper, stay as
    they were. *)
Lemma salt_and_pepper_run :
  (np_random_random 4 1).1 = [0.838; 0.758; 0.113; 0.515]%Q
  ∧ (SrGui.apply_image_modifications (Arr3 frame_2x2) 1 1 0.5 (2, 2)%nat
       "Salt and Pepper" 1).1
    = Arr3 [[[10; 20; 30]; [40; 50; 60]]; [[255; 255; 255]; [100; 110; 120]]].
Proof. split; by vm_compute. Qed.

End examples.

(** * Further properties of the code *)

(** ** adaptive-sr.py: the level of any engine, and frames the filter
    does not accept *)

(** Case analysis on the comparisons of [np_maximum] and [np_minimum]. *)
Ltac clip_cases :=
  unfold np_clip, np_minimum, np_maximum;
  repeat match goal with
         | |- context [Qle_bool (if Qle_bool ?a ?b then _ else _) _] =>
             destruct (Qle_bool a b) eqn:?
         end;
  repeat match goal with
         | |- context [Qle_bool ?a ?b] => destruct (Qle_bool a b) eqn:?
         end;
  repeat match goal with
         | E : Qle_bool ?a ?b = true |- _ => apply Qle_bool_iff in E
         | E : Qle_bool ?a ?b = false |- _ =>
             assert (b < a)%Q
               by (apply Qnot_le_lt; rewrite <- Qle_bool_iff; congruence);
             clear E
         end.

Lemma np_clip_upper a lo hi : (np_clip a lo hi <= hi)%Q.
Proof. clip_cases; lra. Qed.

Section engine_edges.
Context `{Numpy, OpenCV}.
Open Scope Q_scope.

(** X1: for an engine with any factor tables, a condition without an
    entry in either table makes [calculate_noise_level] raise [KeyError];
    with both entries present it returns a level that is at most
    [max_noise_level], and at least [base_noise_level] when the two bounds
    are in order. *)
Theorem calculate_noise_level_keys (self : AdaptiveSR) (c : DrivingConditions)
    (brightness contrast : Q) :
  (weather_factors self !! weather c = None →
     calculate_noise_level self c brightness contrast = Raise KeyError)
  ∧ (time_factors self !! time_of_day c = None →
     calculate_noise_level self c brightness contrast = Raise KeyError)
  ∧ (is_Some (weather_factors self !! weather c) →
     is_Some (time_factors self !! time_of_day c) →
     ∃ v, calculate_noise_level self c brightness contrast = Ok v
          ∧ v <= max_noise_level self
          ∧ (base_noise_level self <= max_noise_level self →
             base_noise_level self <= v)).
Proof.
  unfold calculate_noise_level, getitem. split; [|split].
  - by intros ->.
  - intros Ht. destruct (weather_factors self !! weather c); simpl; [|done].
    by rewrite Ht.
  - intros [wf ->] [tf ->]. simpl. eexists. split; [reflexivity|]. split.
    + apply np_clip_upper.
    + intros Hb. by apply np_clip_bounds.
Qed.

(** X2: a frame with four channels passes the statistics step, is copied,
    and then fails in the filter step, which unpacks exactly three
    channels: the call raises [ValueError], the copy stays behind as a new
    buffer, and the generator has not been used. *)
Theorem apply_sr_four_channels frame conditions roi σ :
  frame_ok σ frame 4 → is_empty (region_data σ frame roi) = false →
  apply_sr __init__ frame conditions roi σ
  = (Raise ValueError,
     {| heap := <[fresh (dom (heap σ)) := view (heap σ) frame]> (heap σ);
        rng := rng σ |}).
Proof.
  intros Hok He. rewrite apply_sr_unfold.
  pose proof (frame_ok_region σ frame 4 roi Hok) as [Hrc _].
  destruct (detect_local_conditions_ok σ (region_of frame roi)) as [stats Es].
  { by rewrite view_region_of. }
  { rewrite view_region_of. right. by apply nchans_chans. }
  rewrite (bind_ok _ _ _ _ _ Es). unfold bind at 1, lift.
  rewrite calculate_noise_level_eq. by eapply finish_channels.
Qed.

End engine_edges.
Section brightness.
Context `{Numpy, OpenCV}.
Open Scope Q_scope.

Lemma Qsum_bounds lo hi (l : list Q) :
  Forall (λ x, lo <= x <= hi) l →
  inject_Z (Z.of_nat (length l)) * lo <= Qsum l
  ∧ Qsum l <= inject_Z (Z.of_nat (length l)) * hi.
Proof.
  induction 1 as [|x l Hx Hl IH].
  { change (inject_Z (Z.of_nat (length (@nil Q)))) with 0.
    change (Qsum []) with 0. lra. }
  change (Qsum (x :: l)) with (x + Qsum l). simpl length. simpl in Hx.
  rewrite Nat2Z.inj_succ, <- Z.add_1_r, inject_Z_plus.
  change (inject_Z 1) with 1. lra.
Qed.

Lemma np_mean_bounds lo hi (l : list Q) :
  l ≠ [] → Forall (λ x, lo <= x <= hi) l → lo <= np_mean l ∧ np_mean l <= hi.
Proof.
  intros Hne Hl. destruct (Qsum_bounds lo hi l Hl) as [Hlo Hhi].
  assert (0 < inject_Z (Z.of_nat (length l))) as Hn.
  { destruct l; [done|]. unfold Qlt, inject_Z. simpl Qnum. simpl Qden.
    simpl length. lia. }
  unfold np_mean. split.
  - apply Qle_shift_div_l; [done|]. lra.
  - apply Qle_shift_div_r; [done|]. lra.
Qed.

Lemma is_empty_join {A} (a : list (list A)) : is_empty a = false → mjoin a ≠ [].
Proof.
  induction a as [|row a IH]; simpl; [done|].
  destruct row; simpl; [exact IH|done].
Qed.

(** X3: when the luminance of 8-bit samples is an 8-bit sample, the
    brightness the statistics step reports for a non-empty colour frame
    lies between 0 and 1, and the step leaves the state as it was. *)
Theorem detect_local_conditions_brightness_range frame σ :
  (∀ b g r, is_uint8 b → is_uint8 g → is_uint8 r → is_uint8 (cv2_bgr2gray b g r)) →
  frame_ok σ frame 3 → is_empty (view (heap σ) frame) = false →
  ∃ mean_brightness local_contrast,
    detect_local_conditions frame σ = (Ok (mean_brightness, local_contrast), σ)
    ∧ 0 <= mean_brightness ∧ mean_brightness <= 1.
Proof.
  intros Hgray (_ & _ & _ & _ & Hc & Hu) He.
  unfold detect_local_conditions, bind, deref, lift, cv2_cvtColor_BGR2GRAY, ret.
  rewrite He, (nchans_chans _ 3 He Hc). simpl.
  eexists _, _. split; [reflexivity|].
  set (gray := (λ row : list (list Z), _) <$> view (heap σ) frame).
  assert (uint8_plane gray) as Hg.
  { subst gray. apply Forall_fmap, Forall_lookup. intros i row Hi. simpl.
    apply Forall_fmap, Forall_lookup. intros j px Hj. simpl.
    unfold chans, uint8_volume in *. rewrite Forall_lookup in Hc, Hu.
    specialize (Hc _ _ Hi). specialize (Hu _ _ Hi). rewrite Forall_lookup in Hc, Hu.
    specialize (Hc _ _ Hj). specialize (Hu _ _ Hj). simpl in *.
    rewrite Forall_forall in Hu.
    apply Hgray; apply Hu, list_elem_of_lookup_total_2; lia. }
  assert (gray ≠ [] ∧ is_empty gray = false) as [_ Hge].
  { subst gray. clear -He. induction (view (heap σ) frame) as [|row a IH]; [done|].
    split; [done|]. simpl in *. rewrite length_fmap.
    destruct row; simpl in *; [by apply IH|done]. }
  destruct (np_mean_bounds 0 255 (inject_Z <$> mjoin gray)) as [Hlo Hhi].
  { intros E. apply fmap_nil_inv in E. by apply is_empty_join in Hge. }
  { apply Forall_fmap. apply Forall_join in Hg.
    eapply Forall_impl; [exact Hg|]. intros x [? ?]. simpl.
    unfold Qle, inject_Z. simpl Qnum. simpl Qden. lia. }
  assert (∀ m, m / 255.0 == m * (10 # 2550)) as E by (intros; unfold Qdiv; reflexivity).
  rewrite E. lra.
Qed.

End brightness.

(** ** sr_sandbox.py: contrast, noise on a floating-point image, and the
    spatial filter *)

Section sandbox_arrays.
Context {A B : Type}.

Lemma at3_fmap (f : A → B) (a : volume A) i j k :
  at3 (fmap (M:=list) (fmap (M:=list) (fmap (M:=list) f)) a) i j k
  = f <$> at3 a i j k.
Proof.
  unfold at3. rewrite at2_fmap.
  destruct (at2 a i j) as [px|]; [simpl|done]. by rewrite list_lookup_fmap.
Qed.

Lemma shape_fmap (f : A → B) (a : volume A) :
  shape (fmap (M:=list) (fmap (M:=list) (fmap (M:=list) f)) a) = shape a.
Proof.
  unfold shape. rewrite <- list_fmap_compose.
  apply list_fmap_ext. intros _ row _. simpl.
  apply row_lengths_rows. intros px. apply length_fmap.
Qed.

End sandbox_arrays.

Section contrast.
Open Scope Q_scope.

Lemma Qdiv_255 q : q / 255.0 == q * (10 # 2550).
Proof. unfold Qdiv. reflexivity. Qed.

Lemma inject_Z_le x y : (x ≤ y)%Z → inject_Z x <= inject_Z y.
Proof. intros. unfold Qle, inject_Z. simpl Qnum. simpl Qden. lia. Qed.

(** X4: [adjust_image_contrast] keeps the shape of the image; every
    output sample lies in [0, 1] and is [x / 255 * alpha + beta] wherever
    that value lies in [0, 1]; and for a non-negative [alpha] a sample that
    is not smaller in the input is not smaller in the output. *)
Theorem adjust_image_contrast_range (image : volume Z) (alpha beta : Q) :
  shape (SrSandbox.adjust_image_contrast image alpha beta) = shape image
  ∧ ∀ i j k x, at3 image i j k = Some x →
      ∃ v, at3 (SrSandbox.adjust_image_contrast image alpha beta) i j k = Some v
           ∧ 0 <= v ∧ v <= 1
           ∧ (0 <= inject_Z x / 255.0 * alpha + beta <= 1 →
              v == inject_Z x / 255.0 * alpha + beta)
           ∧ (0 <= alpha →
              ∀ i' j' k' x' v',
                at3 image i' j' k' = Some x' →
                at3 (SrSandbox.adjust_image_contrast image alpha beta) i' j' k'
                = Some v' →
                (x ≤ x')%Z → v <= v').
Proof.
  unfold SrSandbox.adjust_image_contrast. split.
  { by rewrite !shape_fmap. }
  intros i j k x Hx. rewrite !at3_fmap, Hx. simpl. eexists. split; [reflexivity|].
  pose proof (np_clip_bounds (inject_Z x / 255.0 * alpha + beta) 0.0 1.0
                ltac:(lra)) as [Hlo Hhi].
  split; [lra|]. split; [lra|]. split.
  - intros [H0 H1]. clip_cases; lra.
  - intros Ha i' j' k' x' v' Hx'. rewrite !at3_fmap, Hx'. simpl.
    intros [= <-] Hle. apply np_clip_mono.
    pose proof (inject_Z_le x x' Hle). rewrite !Qdiv_255. nra.
Qed.

End contrast.

Section rgb_noise.
Context `{Numpy} `{!NumpyLaws}.
Open Scope Q_scope.

Lemma nchans_of_chans {A} (a : volume A) c :
  is_empty a = false → chans c a → nchans a = c.
Proof.
  unfold nchans, chans. induction a as [|row a IH]; simpl; [done|].
  intros He Hc. apply Forall_cons in Hc as [Hrow Hc].
  destruct row as [|px row]; simpl in *; [by apply IH|].
  by apply Forall_cons in Hrow as [? _].
Qed.

Lemma sr_channels_spec noise_level (channels : list (plane Q)) g rl :
  Forall (λ ch, row_lengths ch = rl) channels →
  length (SrSandbox.sr_channels noise_level channels g).1 = length channels
  ∧ Forall (λ ch, row_lengths ch = rl ∧ Forall (Forall unit_range) ch)
      (SrSandbox.sr_channels noise_level channels g).1.
Proof.
  intros Hch. revert g. induction Hch as [|ch channels Hrl Hch IH]; intros g.
  { by split. }
  simpl.
  pose proof (np_random_normal_length 0 noise_level
                (sum_list (row_lengths ch)) g) as Hlen.
  destruct (np_random_normal _ _ _ g) as [l g1]. simpl in Hlen.
  specialize (IH g1).
  destruct (SrSandbox.sr_channels noise_level channels g1) as [rest g2].
  simpl in *. destruct IH as [IHl IHf]. split; [by rewrite IHl|].
  constructor; [|done]. split.
  - rewrite row_lengths_map2; [done|]. by rewrite row_lengths_reshape.
  - eapply (Forall2_map2 (λ _, True) (λ _, True)).
    + intros x y _ _. unfold unit_range.
      pose proof (np_clip_bounds (x + y) 0.0 1.0 ltac:(lra)). lra.
    + apply Forall_forall. intros. by apply Forall_forall.
    + apply Forall_forall. intros. by apply Forall_forall.
Qed.

Lemma interleave_planes_spec {A} (P : A → Prop) (mv : list (plane A)) rl :
  mv ≠ [] →
  Forall (λ ch, row_lengths ch = rl ∧ Forall (Forall P) ch) mv →
  row_lengths (interleave_planes mv) = rl
  ∧ Forall (Forall (λ px, length px = length mv ∧ Forall P px))
      (interleave_planes mv).
Proof.
  intros Hne Hmv. induction Hmv as [|ch mv [Hrl HP] Hmv IH]; [done|].
  destruct mv as [|ch' mv].
  { simpl. split.
    - rewrite row_lengths_rows; [done|]. intros. apply length_fmap.
    - apply Forall_fmap. eapply Forall_impl; [exact HP|]. intros row Hrow. simpl.
      apply Forall_fmap. eapply Forall_impl; [exact Hrow|]. intros x Hx. simpl.
      split; [done|by repeat constructor]. }
  destruct IH as [IHl IHf]; [done|].
  change (interleave_planes (ch :: ch' :: mv))
    with (map2 cons ch (interleave_planes (ch' :: mv))).
  split.
  - rewrite row_lengths_map2; [done|]. by rewrite IHl.
  - eapply (Forall2_map2 P); [|exact HP|exact IHf].
    intros x px Hx [Hl Hpx]. simpl. split; [by rewrite Hl|by constructor].
Qed.

Lemma merge_planes_ok {A} (mv : list (plane A)) rl :
  mv ≠ [] → Forall (λ ch, row_lengths ch = rl) mv →
  merge_planes mv = Ok (interleave_planes mv).
Proof.
  intros Hne Hmv. destruct mv as [|ch mv]; [done|].
  apply Forall_cons in Hmv as [Hch Hmv]. unfold merge_planes.
  assert (forallb (λ c', bool_decide (row_lengths c' = row_lengths ch)) mv = true)
    as ->; [|done].
  apply forallb_forall. intros c' Hin%list_elem_of_In.
  apply bool_decide_eq_true_2. rewrite Forall_forall in Hmv.
  by rewrite (Hmv _ Hin).
Qed.

(** X5: [apply_sr_rgb] accepts a non-empty floating-point image of any
    positive channel count: it returns an image of the same shape whose
    samples all lie in [0, 1]. *)
Theorem apply_sr_rgb_range (image : volume Q) (noise_level : Q) (g : rng_state)
    (c : nat) :
  is_empty image = false → chans c image → (0 < c)%nat →
  ∃ out g',
    SrSandbox.apply_sr_rgb image noise_level g = (Ok out, g')
    ∧ shape out = shape image
    ∧ Forall (Forall (Forall unit_range)) out.
Proof.
  intros He Hc Hpos. unfold SrSandbox.apply_sr_rgb, split_planes.
  rewrite (nchans_of_chans _ c He Hc).
  set (channels := _ <$> seq 0 c).
  assert (Forall (λ ch : plane Q, row_lengths ch = row_lengths image) channels)
    as Hch.
  { subst channels. apply Forall_fmap, Forall_forall. intros k _. simpl.
    apply row_lengths_rows. intros. apply length_fmap. }
  assert (length channels = c) as Hlen.
  { subst channels. by rewrite length_fmap, length_seq. }
  destruct (sr_channels_spec noise_level channels g _ Hch) as [Hl Hf].
  destruct (SrSandbox.sr_channels noise_level channels g) as [out g'].
  simpl in Hl, Hf.
  assert (out ≠ []) as Hne by (destruct out; [simpl in *; lia|done]).
  destruct (interleave_planes_spec unit_range out _ Hne Hf) as [Hrl Hpx].
  rewrite (merge_planes_ok out (row_lengths image) Hne).
  2:{ eapply Forall_impl; [exact Hf|]. by intros ch [? _]. }
  eexists _, _. split; [reflexivity|]. split.
  - eapply shape_of_chans; [exact Hrl| |exact Hc].
    eapply Forall_impl; [exact Hpx|]. intros row Hrow. simpl in *.
    eapply Forall_impl; [exact Hrow|]. intros px [Hpl _]. simpl. lia.
  - eapply Forall_impl; [exact Hpx|]. intros row Hrow. simpl in *.
    eapply Forall_impl; [exact Hrow|]. by intros px [_ ?].
Qed.

End rgb_noise.

Section spatial_filter.
Context `{Numpy, OpenCV} `{!NumpyLaws, !OpenCVLaws}.
Open Scope Q_scope.

Lemma noise_map_shape (image : volume Z) (base_noise : Q) :
  is_empty image = false → (nchans image = 3 ∨ nchans image = 4)%nat →
  ∃ nm, SrSandbox.noise_map image base_noise = Ok nm
        ∧ row_lengths nm = row_lengths image
        ∧ Forall (Forall (λ v, ∃ s, v = base_noise * (1.0 - s / 255.0))) nm.
Proof.
  intros He Hn. unfold SrSandbox.noise_map, cv2_cvtColor_BGR2GRAY. rewrite He.
  assert ((nchans image =? 3)%nat || (nchans image =? 4)%nat = true) as ->
    by (destruct Hn as [-> | ->]; done).
  simpl. eexists. split; [reflexivity|]. split.
  - rewrite row_lengths_rows by (intros; apply length_fmap).
    rewrite cv2_boxFilter_shape.
    by rewrite !row_lengths_rows by (intros; apply length_fmap).
  - apply Forall_fmap, Forall_forall. intros row _. simpl.
    apply Forall_fmap, Forall_forall. intros s _. simpl. by exists s.
Qed.

Lemma Forall_trivial2 {A} (a : plane A) : Forall (Forall (λ _ : A, True)) a.
Proof. apply Forall_forall. intros. by apply Forall_forall. Qed.

(** One round of the loop keeps the row lengths, and keeps every property
    of the pixels that writing an 8-bit sample at index [i] keeps. *)
Lemma add_channel_noise_spec (P : list Z → Prop) (image : volume Z)
    (nm : plane Q) (i : nat) (result : volume Z) (g : rng_state) :
  row_lengths nm = row_lengths image →
  row_lengths result = row_lengths image →
  (∀ px v, P px → is_uint8 v → P (<[i := v]> px)) →
  Forall (Forall P) result →
  row_lengths (SrSandbox.add_channel_noise image nm i (result, g)).1
  = row_lengths image
  ∧ Forall (Forall P) (SrSandbox.add_channel_noise image nm i (result, g)).1.
Proof.
  intros Hnm Hres HP Hall. unfold SrSandbox.add_channel_noise.
  set (channel := fmap (M:=list) (fmap (M:=list) (λ px : list Z, px !!! i)) image).
  assert (row_lengths channel = row_lengths image) as Hch.
  { subst channel. apply row_lengths_rows. intros. apply length_fmap. }
  pose proof (np_random_normal_length 0 1 (sum_list (row_lengths channel)) g)
    as Hlen.
  destruct (np_random_normal _ _ _ g) as [l g1]. simpl in Hlen. simpl.
  set (noisy := map2 _ channel _).
  assert (row_lengths noisy = row_lengths image) as Hnoisy.
  { subst noisy. rewrite row_lengths_map2; [done|].
    rewrite row_lengths_map2; rewrite row_lengths_reshape; congruence. }
  assert (uint8_plane noisy) as Hu.
  { subst noisy. eapply (Forall2_map2 (λ _, True) (λ _, True));
      [|apply Forall_trivial2..].
    intros. apply astype_uint8_range. }
  split.
  - rewrite row_lengths_map2; congruence.
  - eapply (Forall2_map2 P is_uint8); [|exact Hall|exact Hu]. intros. by apply HP.
Qed.

Lemma adaptive_sr_rounds (P : list Z → Prop) (image : volume Z) (base_noise : Q)
    (g : rng_state) :
  is_empty image = false → (nchans image = 3 ∨ nchans image = 4)%nat →
  (∀ i px v, (i < 3)%nat → P px → is_uint8 v → P (<[i := v]> px)) →
  Forall (Forall (λ px : list Z, P ((λ _, 0%Z) <$> px))) image →
  ∃ out g',
    SrSandbox.adaptive_sr image base_noise g = (Ok out, g')
    ∧ row_lengths out = row_lengths image
    ∧ Forall (Forall P) out.
Proof.
  intros He Hn HP Hzero. unfold SrSandbox.adaptive_sr.
  destruct (noise_map_shape image base_noise He Hn) as (nm & -> & Hnm & _).
  set (zeros := fmap (M:=list) (fmap (M:=list) (fmap (M:=list) (λ _ : Z, 0%Z))) image).
  assert (row_lengths zeros = row_lengths image) as Hz.
  { subst zeros. apply row_lengths_rows. intros. apply length_fmap. }
  assert (Forall (Forall P) zeros) as Hpz.
  { subst zeros. apply Forall_fmap. eapply Forall_impl; [exact Hzero|].
    intros row Hrow. simpl. apply Forall_fmap. exact Hrow. }
  cbn [foldl seq]. fold zeros.
  destruct (add_channel_noise_spec P image nm 0 zeros g Hnm Hz
              (λ px v, HP 0%nat px v ltac:(lia)) Hpz) as [L0 P0].
  destruct (SrSandbox.add_channel_noise image nm 0 (zeros, g)) as [r0 g0].
  destruct (add_channel_noise_spec P image nm 1 r0 g0 Hnm L0
              (λ px v, HP 1%nat px v ltac:(lia)) P0) as [L1 P1].
  destruct (SrSandbox.add_channel_noise image nm 1 (r0, g0)) as [r1 g1].
  destruct (add_channel_noise_spec P image nm 2 r1 g1 Hnm L1
              (λ px v, HP 2%nat px v ltac:(lia)) P1) as [L2 P2].
  destruct (SrSandbox.add_channel_noise image nm 2 (r1, g1)) as [r2 g2].
  simpl in *. by eexists _, _.
Qed.

(** X6: [adaptive_sr] on a non-empty image of [c] channels, [c] being 3
    or 4: it returns an image of the same shape with 8-bit samples,
    whatever the samples of the input; with four channels the fourth
    channel of the result is 0 at every pixel. *)
Theorem adaptive_sr_shape_and_range (image : volume Z) (base_noise : Q)
    (g : rng_state) (c : nat) :
  is_empty image = false → chans c image → (c = 3 ∨ c = 4)%nat →
  ∃ out g',
    SrSandbox.adaptive_sr image base_noise g = (Ok out, g')
    ∧ shape out = shape image
    ∧ uint8_volume out
    ∧ (c = 4%nat → Forall (Forall (λ px : list Z, px !! 3%nat = Some 0%Z)) out).
Proof.
  intros He Hc Hc34.
  pose proof (nchans_of_chans _ c He Hc) as Hn.
  destruct (adaptive_sr_rounds
              (λ px, length px = c ∧ Forall is_uint8 px
                     ∧ (c = 4%nat → px !! 3%nat = Some 0%Z))
              image base_noise g He) as (out & g' & E & Hrl & Hpx).
  { lia. }
  { intros i px v Hi (Hl & Hu & H4) Hv. split; [by rewrite length_insert|].
    split; [by apply Forall_insert|].
    intros E4. rewrite list_lookup_insert_ne by lia. by apply H4. }
  { eapply Forall_impl; [exact Hc|]. intros row Hrow. simpl in *.
    eapply Forall_impl; [exact Hrow|]. intros px Hpl. simpl in *.
    split; [by rewrite length_fmap|]. split.
    - apply Forall_fmap, Forall_forall. intros. simpl. done.
    - intros ->. destruct px as [|? [|? [|? [|? ?]]]]; simpl in *; done. }
  exists out, g'. split; [done|]. split; [|split].
  - eapply shape_of_chans; [exact Hrl| |exact Hc].
    eapply Forall_impl; [exact Hpx|]. intros row Hrow. simpl in *.
    eapply Forall_impl; [exact Hrow|]. by intros px (? & _ & _).
  - eapply Forall_impl; [exact Hpx|]. intros row Hrow. simpl in *.
    eapply Forall_impl; [exact Hrow|]. by intros px (_ & ? & _).
  - intros E4. eapply Forall_impl; [exact Hpx|]. intros row Hrow. simpl in *.
    eapply Forall_impl; [exact Hrow|]. intros px (_ & _ & H4). by apply H4.
Qed.

End spatial_filter.

Section zero_noise.
Context `{Numpy, OpenCV} `{!NumpyLaws, !OpenCVLaws}.
Open Scope Q_scope.

Lemma trunc_Qeq a b : a == b → trunc a = trunc b.
Proof.
  unfold Qeq, trunc. destruct a as [n d], b as [n' d']. simpl. intros E.
  rewrite <- (Z.quot_mul_cancel_r n (Z.pos d) (Z.pos d')) by lia.
  rewrite <- (Z.quot_mul_cancel_r n' (Z.pos d') (Z.pos d)) by lia.
  rewrite E. f_equal. lia.
Qed.

(** Adding a noise of value zero to an 8-bit sample, clipping and
    converting gives the sample back. *)
Lemma astype_uint8_zero_noise c n :
  is_uint8 c → n == 0 → astype_uint8 (np_clip (inject_Z c + n) 0 255) = c.
Proof.
  intros [Hlo Hhi] Hn. unfold astype_uint8.
  assert (inject_Z 0 <= inject_Z c ∧ inject_Z c <= inject_Z 255) as [Hc0 Hc255]
    by (split; apply inject_Z_le; lia).
  change (inject_Z 0) with 0 in Hc0. change (inject_Z 255) with 255 in Hc255.
  assert (np_clip (inject_Z c + n) 0 255 == inject_Z c) as E
    by (clip_cases; lra).
  rewrite (trunc_Qeq _ _ E). unfold trunc, inject_Z. simpl.
  rewrite Z.quot_1_r. apply Z.mod_small. lia.
Qed.

Lemma map2_left_id {A B} (Pa : A → Prop) (Pb : B → Prop) (f : A → B → A)
    (a : plane A) (b : plane B) :
  (∀ x y, Pa x → Pb y → f x y = x) →
  row_lengths a = row_lengths b →
  Forall (Forall Pa) a → Forall (Forall Pb) b → map2 f a b = a.
Proof.
  intros Hf Hrl Ha. unfold map2, row_lengths in *. revert b Hrl.
  induction Ha as [|r a Hr Ha IH]; intros [|r' b]; csimpl; try done.
  intros [= Hlen Hrl] Hb. apply Forall_cons in Hb as [Hr' Hb].
  f_equal; [|by apply IH].
  clear -Hf Hr Hr' Hlen. revert r' Hr' Hlen.
  induction Hr as [|x r Hx Hr IH]; intros [|y r'] Hr' Hlen; simpl in *; try done.
  apply Forall_cons in Hr' as [Hy Hr']. f_equal; [by apply Hf|].
  apply IH; [done|lia].
Qed.

Lemma map2_fmap_fmap {A B C D} (f : B → C → D) (g : A → B) (h : A → C)
    (a : plane A) :
  map2 f (fmap (M:=list) (fmap (M:=list) g) a) (fmap (M:=list) (fmap (M:=list) h) a)
  = fmap (M:=list) (fmap (M:=list) (λ x, f (g x) (h x))) a.
Proof.
  unfold map2. rewrite zip_with_fmap_l, zip_with_fmap_r, zip_with_diag.
  apply list_fmap_ext. intros _ row _. simpl.
  by rewrite zip_with_fmap_l, zip_with_fmap_r, zip_with_diag.
Qed.

Lemma fmap2_id {A} (P : A → Prop) (f : A → A) (a : plane A) :
  (∀ x, P x → f x = x) → Forall (Forall P) a →
  fmap (M:=list) (fmap (M:=list) f) a = a.
Proof.
  intros Hf Ha. induction Ha as [|r a Hr Ha IH]; csimpl; [done|].
  f_equal; [|done]. induction Hr as [|x r Hx Hr IHr]; csimpl; [done|].
  f_equal; [by apply Hf|done].
Qed.

(** With a noise map that is zero everywhere a round writes the channel
    itself. *)
Lemma add_channel_noise_zero (image : volume Z) (nm : plane Q) (i : nat)
    (result : volume Z) (g : rng_state) :
  row_lengths nm = row_lengths image →
  Forall (Forall (λ v, v == 0)) nm →
  uint8_plane (fmap (M:=list) (fmap (M:=list) (λ px : list Z, px !!! i)) image) →
  (SrSandbox.add_channel_noise image nm i (result, g)).1
  = map2 (λ (px : list Z) v, <[i := v]> px) result
      (fmap (M:=list) (fmap (M:=list) (λ px : list Z, px !!! i)) image).
Proof.
  intros Hnm Hzero Hu. unfold SrSandbox.add_channel_noise.
  set (channel := fmap (M:=list) (fmap (M:=list) (λ px : list Z, px !!! i)) image)
    in *.
  assert (row_lengths channel = row_lengths image) as Hch.
  { subst channel. apply row_lengths_rows. intros. apply length_fmap. }
  pose proof (np_random_normal_length 0 1 (sum_list (row_lengths channel)) g)
    as Hlen.
  destruct (np_random_normal _ _ _ g) as [l g1]. simpl in Hlen. simpl.
  f_equal.
  apply (map2_left_id is_uint8 (λ n, n == 0)); [|by
    rewrite row_lengths_map2; rewrite row_lengths_reshape; congruence|done|].
  - intros c n Hc Hn. by apply astype_uint8_zero_noise.
  - eapply (Forall2_map2 (λ _, True) (λ v, v == 0));
      [|apply Forall_trivial2|exact Hzero].
    intros x y _ Hy. simpl. rewrite Hy. ring.
Qed.

(** X7: with [base_noise = 0] the spatial filter returns a 3-channel
    8-bit image as it is. *)
Theorem adaptive_sr_zero_noise (image : volume Z) (g : rng_state) :
  is_empty image = false → chans 3 image → uint8_volume image →
  ∃ g', SrSandbox.adaptive_sr image 0 g = (Ok image, g').
Proof.
  intros He Hc Hu.
  pose proof (nchans_of_chans _ 3%nat He Hc) as Hn.
  unfold SrSandbox.adaptive_sr.
  destruct (noise_map_shape image 0 He (or_introl Hn)) as (nm & -> & Hnm & Hform).
  assert (Forall (Forall (λ v, v == 0)) nm) as Hzero.
  { eapply Forall_impl; [exact Hform|]. intros row Hrow. simpl in *.
    eapply Forall_impl; [exact Hrow|]. intros v [s ->]. simpl. ring. }
  assert (∀ i, (i < 3)%nat →
            uint8_plane (fmap (M:=list) (fmap (M:=list) (λ px : list Z, px !!! i)) image))
    as Hchan.
  { intros i Hi. by apply (uint8_channel i 3 image). }
  cbn [foldl seq].
  pose proof (add_channel_noise_zero image nm 0
                (fmap (M:=list) (fmap (M:=list) (fmap (M:=list) (λ _ : Z, 0%Z))) image)
                g Hnm Hzero (Hchan 0%nat ltac:(lia))) as E0.
  destruct (SrSandbox.add_channel_noise image nm 0 _) as [r0 g0]. simpl in E0.
  pose proof (add_channel_noise_zero image nm 1 r0 g0 Hnm Hzero
                (Hchan 1%nat ltac:(lia))) as E1.
  destruct (SrSandbox.add_channel_noise image nm 1 _) as [r1 g1]. simpl in E1.
  pose proof (add_channel_noise_zero image nm 2 r1 g1 Hnm Hzero
                (Hchan 2%nat ltac:(lia))) as E2.
  destruct (SrSandbox.add_channel_noise image nm 2 _) as [r2 g2]. simpl in E2.
  exists g2. do 2 f_equal. subst r2 r1 r0.
  rewrite !map2_fmap_fmap.
  apply (fmap2_id (λ px : list Z, length px = 3%nat)); [|exact Hc].
  intros px Hl. by destruct px as [|? [|? [|? [|? ?]]]].
Qed.

End zero_noise.

(** ** Worked examples of the further properties *)

Section more_examples.
Import Reference.
#[local] Existing Instance numpy_laws.
#[local] Existing Instance opencv_laws.
Open Scope Z_scope.

Lemma calculate_noise_level_keys_witness :
  calculate_noise_level clear_weather_only foggy_night 0.5 0.2 = Raise KeyError
  ∧ ∃ v, calculate_noise_level clear_weather_only midday 0.5 0.2 = Ok v
         ∧ (v <= 0.3)%Q ∧ (0.1 <= v)%Q.
Proof.
  destruct (calculate_noise_level_keys clear_weather_only foggy_night 0.5 0.2)
    as (Hw & _ & _).
  destruct (calculate_noise_level_keys clear_weather_only midday 0.5 0.2)
    as (_ & _ & Hok).
  split; [exact (Hw eq_refl)|].
  destruct (Hok ltac:(by eexists) ltac:(by eexists)) as (v & E & Hmax & Hmin).
  exists v. split; [exact E|]. split; [exact Hmax|]. apply Hmin. by vm_compute.
Defined.

Lemma bgra_1x2_ok : frame_ok (world_of bgra_1x2) (whole 1 bgra_1x2) 4.
Proof.
  unfold frame_ok. split; [by apply elem_of_dom; eexists|].
  split; [simpl; lia|]. split; [simpl; lia|].
  split; [split; [done|by repeat constructor]|].
  split; [by repeat constructor|].
  repeat constructor; done.
Qed.

Lemma apply_sr_four_channels_witness :
  apply_sr __init__ (whole 1 bgra_1x2) midday None (world_of bgra_1x2)
  = (Raise ValueError,
     {| heap := <[fresh (dom (heap (world_of bgra_1x2)))
                  := view (heap (world_of bgra_1x2)) (whole 1 bgra_1x2)]>
                  (heap (world_of bgra_1x2));
        rng := rng (world_of bgra_1x2) |}).
Proof. apply apply_sr_four_channels; [exact bgra_1x2_ok|reflexivity]. Defined.

Lemma reference_luminance_uint8 b g r :
  is_uint8 b → is_uint8 g → is_uint8 r → is_uint8 (cv2_bgr2gray b g r).
Proof.
  unfold is_uint8. simpl. intros ? ? ?. split.
  - apply Z.div_pos; lia.
  - apply Z.div_lt_upper_bound; lia.
Qed.

Lemma detect_local_conditions_brightness_range_witness :
  ∃ mean_brightness local_contrast,
    detect_local_conditions (whole 1 frame_2x2) (world_of frame_2x2)
    = (Ok (mean_brightness, local_contrast), world_of frame_2x2)
    ∧ (0 <= mean_brightness)%Q ∧ (mean_brightness <= 1)%Q.
Proof.
  apply detect_local_conditions_brightness_range;
    [exact reference_luminance_uint8|exact frame_2x2_ok|reflexivity].
Defined.

Lemma apply_sr_rgb_range_witness :
  ∃ out g',
    SrSandbox.apply_sr_rgb (H:=numpy) float_1x2 0.01 42 = (Ok out, g')
    ∧ shape out = shape float_1x2
    ∧ Forall (Forall (Forall unit_range)) out.
Proof.
  apply (apply_sr_rgb_range (H:=numpy) float_1x2 0.01 42 3);
    [reflexivity|by repeat constructor|lia].
Defined.

Lemma adaptive_sr_shape_and_range_witness :
  ∃ out g',
    SrSandbox.adaptive_sr (H:=numpy) bgra_1x2 0.1 42 = (Ok out, g')
    ∧ shape out = shape bgra_1x2
    ∧ uint8_volume out
    ∧ ((4 = 4)%nat → Forall (Forall (λ px : list Z, px !! 3%nat = Some 0)) out).
Proof.
  apply (adaptive_sr_shape_and_range (H:=numpy) bgra_1x2 0.1 42 4);
    [reflexivity|by repeat constructor|by right].
Defined.

Lemma adaptive_sr_zero_noise_witness :
  ∃ g', SrSandbox.adaptive_sr (H:=numpy) frame_2x2 0 42 = (Ok frame_2x2, g').
Proof.
  apply (adaptive_sr_zero_noise (H:=numpy));
    [reflexivity|by repeat constructor|repeat constructor; done].
Defined.

End more_examples.

(** ** sr_gui.py and sr_video_gui.py: the displayed size *)

Section display.
Open Scope Q_scope.

Lemma round_half_even_comp p q : p == q → round_half_even p = round_half_even q.
Proof.
  intros E. unfold round_half_even. rewrite (Qfloor_comp _ _ E).
  assert (p - inject_Z (Qfloor q) == q - inject_Z (Qfloor q)) as E' by (rewrite E; reflexivity).
  by rewrite (Qcompare_comp _ _ E' (1 # 2) (1 # 2) (Qeq_refl _)).
Qed.

Lemma round_half_even_Z z : round_half_even (inject_Z z) = z.
Proof.
  unfold round_half_even. rewrite Qfloor_Z.
  assert (inject_Z z - inject_Z z == 0) as E by ring.
  by rewrite (Qcompare_comp _ _ E (1 # 2) (1 # 2) (Qeq_refl _)).
Qed.

Lemma round_half_even_floor q :
  (Qfloor q ≤ round_half_even q ≤ Qfloor q + 1)%Z.
Proof.
  unfold round_half_even. destruct (Qcompare _ _); [destruct (Z.even _)|..]; lia.
Qed.

Lemma round_half_even_mono p q : p <= q → (round_half_even p ≤ round_half_even q)%Z.
Proof.
  intros Hpq. pose proof (Qfloor_resp_le _ _ Hpq) as Hf.
  pose proof (round_half_even_floor p) as Hp.
  pose proof (round_half_even_floor q) as Hq.
  destruct (decide (Qfloor p = Qfloor q)) as [E|]; [|lia].
  unfold round_half_even in *. rewrite E in *.
  destruct (Qcompare_spec (p - inject_Z (Qfloor q)) (1 # 2)) as [Ep|Ep|Ep];
    destruct (Qcompare_spec (q - inject_Z (Qfloor q)) (1 # 2)) as [Eq|Eq|Eq];
    try lia; try lra; destruct (Z.even (Qfloor q)); lia.
Qed.

Lemma Qnum_pos q : 0 < q ↔ (0 < Qnum q)%Z.
Proof. unfold Qlt. simpl. lia. Qed.

Lemma two_pow_pos z : 0 < 2 ^ z.
Proof. by apply Qpower_0_lt. Qed.

Lemma two_pow_succ z : 2 ^ (z + 1) == 2 * 2 ^ z.
Proof. rewrite Qpower_plus by done. rewrite Qpower_1_r. ring. Qed.

Lemma two_pow_Z z : (0 ≤ z)%Z → inject_Z (2 ^ z) == 2 ^ z.
Proof. intros. by rewrite Zpower_Qpower. Qed.

Lemma two_pow_sub a b : 2 ^ (a - b) * 2 ^ b == 2 ^ a.
Proof. rewrite <- Qpower_plus by done. by replace (a - b + b)%Z with a by lia. Qed.

Lemma ilog2_spec q : 0 < q → 2 ^ ilog2 q <= q ∧ q < 2 ^ (ilog2 q + 1).
Proof.
  intros Hq. unfold ilog2.
  set (a := Z.log2 (Qnum q)). set (b := Z.log2 (Z.pos (Qden q))).
  assert (0 < Qnum q)%Z as Hn by by apply Qnum_pos.
  destruct (Z.log2_spec (Qnum q) Hn) as [Ha1 Ha2].
  destruct (Z.log2_spec (Z.pos (Qden q)) ltac:(lia)) as [Hb1 Hb2].
  fold a in Ha1, Ha2. fold b in Hb1, Hb2.
  assert (0 ≤ a)%Z as Ha0 by apply Z.log2_nonneg.
  assert (0 ≤ b)%Z as Hb0 by apply Z.log2_nonneg.
  set (N := inject_Z (Qnum q)). set (D := inject_Z (Z.pos (Qden q))).
  assert (q * D == N) as HqD.
  { subst N D. destruct q as [n d]. unfold Qeq, Qmult, inject_Z. simpl. lia. }
  assert (0 < D) as HD by (subst D; unfold Qlt, inject_Z; simpl; lia).
  assert (2 ^ a <= N) as HA1.
  { rewrite <- two_pow_Z by done. subst N. rewrite <- Zle_Qle. done. }
  assert (N < 2 * 2 ^ a) as HA2.
  { rewrite <- two_pow_succ, <- two_pow_Z by lia. subst N. rewrite <- Zlt_Qlt.
    by rewrite <- Z.add_1_r in Ha2. }
  assert (2 ^ b <= D) as HB1.
  { rewrite <- two_pow_Z by done. subst D. rewrite <- Zle_Qle. done. }
  assert (D < 2 * 2 ^ b) as HB2.
  { rewrite <- two_pow_succ, <- two_pow_Z by lia. subst D. rewrite <- Zlt_Qlt.
    by rewrite <- Z.add_1_r in Hb2. }
  pose proof (two_pow_sub a b) as Hab.
  pose proof (two_pow_pos a) as Pa. pose proof (two_pow_pos b) as Pb.
  pose proof (two_pow_pos (a - b)) as Pab.
  set (A := 2 ^ a) in *. set (B := 2 ^ b) in *. set (E := 2 ^ (a - b)) in *.
  assert (q < 2 * E) as Hup.
  { assert (q * B <= q * D) by nra. assert (q * B < 2 * E * B) by nra. nra. }
  assert (E < 2 * q) as Hlo.
  { assert (E * D < 2 * E * B) by nra. assert (E * D < 2 * q * D) by nra. nra. }
  destruct (Qle_bool E q) eqn:Hle.
  - apply Qle_bool_iff in Hle. split; [done|]. rewrite two_pow_succ. by fold E.
  - assert (q < E) as Hlt.
    { apply Qnot_le_lt. rewrite <- Qle_bool_iff. congruence. }
    replace (a - b - 1 + 1)%Z with (a - b)%Z by lia. fold E. split; [|done].
    pose proof (two_pow_pos (a - b - 1)).
    assert (2 * 2 ^ (a - b - 1) == E) as HE.
    { rewrite <- two_pow_succ. subst E. by replace (a - b - 1 + 1)%Z with (a - b)%Z by lia. }
    lra.
Qed.

Lemma round53_scaled q :
  0 < q →
  inject_Z (2 ^ 52) <= q / 2 ^ (ilog2 q - 52)
  ∧ q / 2 ^ (ilog2 q - 52) < inject_Z (2 ^ 53).
Proof.
  intros Hq. destruct (ilog2_spec q Hq) as [Hlo Hhi].
  pose proof (two_pow_pos (ilog2 q - 52)) as HP.
  pose proof (two_pow_sub (ilog2 q) 52) as H52.
  pose proof (two_pow_sub (ilog2 q + 1) 53) as H53.
  replace (ilog2 q + 1 - 53)%Z with (ilog2 q - 52)%Z in H53 by lia.
  rewrite <- H52 in Hlo. rewrite <- H53 in Hhi.
  assert (q / 2 ^ (ilog2 q - 52) * 2 ^ (ilog2 q - 52) == q) as Hs.
  { field. lra. }
  set (P := 2 ^ (ilog2 q - 52)) in *. set (s := q / P) in *.
  rewrite !two_pow_Z by lia. split; nra.
Qed.

Lemma round53_bounds q :
  0 < q → 2 ^ ilog2 q <= round53 q ∧ round53 q <= 2 ^ (ilog2 q + 1).
Proof.
  intros Hq. destruct (round53_scaled q Hq) as [Hlo Hhi].
  apply round_half_even_mono in Hlo. apply Qlt_le_weak, round_half_even_mono in Hhi.
  rewrite round_half_even_Z in Hlo, Hhi.
  pose proof (two_pow_pos (ilog2 q - 52)) as HP.
  pose proof (two_pow_sub (ilog2 q) 52) as H52.
  pose proof (two_pow_sub (ilog2 q + 1) 53) as H53.
  replace (ilog2 q + 1 - 53)%Z with (ilog2 q - 52)%Z in H53 by lia.
  rewrite <- H52, <- H53. unfold round53.
  set (P := 2 ^ (ilog2 q - 52)) in *.
  set (m := round_half_even (q / P)) in *.
  rewrite <- !two_pow_Z by lia.
  rewrite Zle_Qle in Hlo, Hhi. split; nra.
Qed.

Lemma round53_pos q : 0 < q → 0 < round53 q.
Proof.
  intros Hq. destruct (round53_bounds q Hq) as [Hlo _].
  pose proof (two_pow_pos (ilog2 q)). lra.
Qed.

Lemma round53_mono p q : 0 < p → p <= q → round53 p <= round53 q.
Proof.
  intros Hp Hpq. assert (0 < q) as Hq by lra.
  destruct (ilog2_spec p Hp) as [Hp1 Hp2]. destruct (ilog2_spec q Hq) as [Hq1 Hq2].
  assert (ilog2 p < ilog2 q + 1)%Z as Hle.
  { apply (Qpower_lt_compat_l_inv 2); [|done]. lra. }
  destruct (decide (ilog2 p = ilog2 q)) as [E|Hne].
  - unfold round53. rewrite E.
    pose proof (two_pow_pos (ilog2 q - 52)) as HP.
    set (P := 2 ^ (ilog2 q - 52)) in *.
    assert (p / P <= q / P) as Hs.
    { unfold Qdiv. assert (0 < / P) by by apply Qinv_lt_0_compat. nra. }
    apply round_half_even_mono in Hs. rewrite Zle_Qle in Hs. nra.
  - destruct (round53_bounds p Hp) as [_ Hup]. destruct (round53_bounds q Hq) as [Hlo _].
    assert (2 ^ (ilog2 p + 1) <= 2 ^ ilog2 q).
    { apply Qpower_le_compat_l; [lia|done]. }
    lra.
Qed.

Lemma round53_Z z : (0 < z < 2 ^ 53)%Z → round53 (inject_Z z) == inject_Z z.
Proof.
  intros [Hz0 Hz]. assert (0 < inject_Z z) as Hq by (rewrite (Zlt_Qlt 0 z) in Hz0; done).
  destruct (ilog2_spec _ Hq) as [Hlo _].
  assert (ilog2 (inject_Z z) < 53)%Z as He.
  { apply (Qpower_lt_compat_l_inv 2); [|done].
    rewrite <- (two_pow_Z 53) by lia. rewrite Zlt_Qlt in Hz. lra. }
  unfold round53. set (e := (ilog2 (inject_Z z) - 52)%Z) in *.
  assert (inject_Z z / 2 ^ e == inject_Z (z * 2 ^ (- e))) as Hs.
  { rewrite inject_Z_mult, two_pow_Z by lia. rewrite Qpower_opp. reflexivity. }
  rewrite (round_half_even_comp _ _ Hs), round_half_even_Z.
  rewrite inject_Z_mult, two_pow_Z by lia. rewrite Qpower_opp.
  pose proof (two_pow_pos e). field. lra.
Qed.

Lemma binary64_cases q :
  (q == 0 ∧ binary64 q = 0)
  ∨ (0 < q ∧ binary64 q = round53 q)
  ∨ (q < 0 ∧ binary64 q = - round53 (- q)).
Proof.
  unfold binary64. destruct q as [[|n|n] d]; simpl.
  - left. split; [|done]. unfold Qeq. simpl. lia.
  - right. left. split; [|done]. unfold Qlt. simpl. lia.
  - right. right. split; [|done]. unfold Qlt. simpl. lia.
Qed.

Lemma binary64_mono p q : p <= q → binary64 p <= binary64 q.
Proof.
  intros Hpq.
  destruct (binary64_cases p) as [[Hp ->]|[[Hp ->]|[Hp ->]]];
    destruct (binary64_cases q) as [[Hq ->]|[[Hq ->]|[Hq ->]]]; try lra.
  - pose proof (round53_pos q Hq). lra.
  - by apply round53_mono.
  - assert (0 < - p) as Hp' by lra. pose proof (round53_pos _ Hp'). lra.
  - assert (0 < - p) as Hp' by lra. pose proof (round53_pos _ Hp').
    pose proof (round53_pos q Hq). lra.
  - assert (0 < - q) as Hq' by lra. assert (- q <= - p) as Hle by lra.
    pose proof (round53_mono _ _ Hq' Hle). lra.
Qed.

Lemma binary64_pos q : 0 < q → 0 < binary64 q.
Proof.
  intros Hq. destruct (binary64_cases q) as [[H ->]|[[H ->]|[H ->]]]; try lra.
  by apply round53_pos.
Qed.

Lemma binary64_Z z : (- 2 ^ 53 < z < 2 ^ 53)%Z → binary64 (inject_Z z) == inject_Z z.
Proof.
  intros Hz. destruct (binary64_cases (inject_Z z)) as [[H ->]|[[H ->]|[H ->]]].
  - by rewrite H.
  - apply round53_Z. rewrite (Zlt_Qlt 0 z). split; [done|lia].
  - assert (- inject_Z z == inject_Z (- z)) as E by by rewrite inject_Z_opp.
    assert (round53 (- inject_Z z) == inject_Z (- z)) as ->.
    { assert (0 < - z < 2 ^ 53)%Z as Hz'.
      { split; [|lia]. rewrite Zlt_Qlt. rewrite <- E. change (inject_Z 0) with 0. lra. }
      pose proof (round53_Z _ Hz') as Hr.
      assert (0 < inject_Z (- z)) as Hpos by (rewrite <- E; lra).
      apply Qle_antisym.
      - rewrite <- Hr. apply round53_mono; [lra|]. rewrite E. apply Qle_refl.
      - rewrite <- Hr at 1. apply round53_mono; [done|]. rewrite E. apply Qle_refl. }
    rewrite inject_Z_opp. ring.
Qed.

Lemma quot_bounds n (d : positive) :
  (Z.pos d * Z.quot n (Z.pos d) - Z.pos d < n < Z.pos d * Z.quot n (Z.pos d) + Z.pos d)%Z.
Proof.
  pose proof (Z.quot_rem' n (Z.pos d)) as E.
  pose proof (Z.rem_bound_abs n (Z.pos d) ltac:(lia)) as B. lia.
Qed.

Lemma trunc_upper q : inject_Z (trunc q) < q + 1.
Proof.
  destruct q as [n d]. unfold Qlt, Qplus, inject_Z, trunc. simpl.
  pose proof (quot_bounds n d). lia.
Qed.

Lemma trunc_nonneg q : 0 <= q → (0 ≤ trunc q)%Z.
Proof.
  destruct q as [n d]. unfold Qle, trunc. simpl. intros.
  apply Z.quot_pos; lia.
Qed.

Lemma trunc_le_int q z : q <= inject_Z z → (trunc q ≤ z)%Z.
Proof.
  intros Hq. pose proof (trunc_upper q) as Hl.
  assert (inject_Z (trunc q) < inject_Z (z + 1)) as Hlt.
  { rewrite inject_Z_plus. change (inject_Z 1) with 1. lra. }
  rewrite <- Zlt_Qlt in Hlt. lia.
Qed.

Lemma inject_Z_pos z : (0 < z)%Z → 0 < inject_Z z.
Proof. unfold Qlt, inject_Z. simpl. lia. Qed.

Lemma inject_Z_nonneg z : (0 ≤ z)%Z → 0 <= inject_Z z.
Proof. unfold Qle, inject_Z. simpl. lia. Qed.

Lemma binary64_nonneg q : 0 <= q → 0 <= binary64 q.
Proof. intros Hq. apply (binary64_mono 0 q Hq). Qed.

(** X8: for an image and a window whose sizes are positive machine
    integers, [display_images] computes a size without error, every
    division and product rounded as binary64 rounds it: the height is at
    most the window height less 250 and the width at most half of the
    window width less 40, one of the two bounds is attained, and both
    sizes are non-negative when the window is at least 40 wide and 250
    high. *)
Theorem display_size_fits (window_width window_height image_width image_height : Z) :
  (0 < image_width < 2 ^ 31)%Z → (0 < image_height < 2 ^ 31)%Z →
  (0 ≤ window_width < 2 ^ 31)%Z → (0 ≤ window_height < 2 ^ 31)%Z →
  ∃ w h,
    SrGui.display_size window_width window_height image_width image_height
    = Some (w, h)
    ∧ (h ≤ window_height - 250)%Z
    ∧ (w ≤ (window_width - 40) / 2)%Z
    ∧ (w = ((window_width - 40) / 2)%Z ∨ h = (window_height - 250)%Z)
    ∧ ((40 ≤ window_width)%Z → (250 ≤ window_height)%Z → (0 ≤ w)%Z ∧ (0 ≤ h)%Z).
Proof.
  intros Hiw Hih Hww Hwh. unfold SrGui.display_size.
  rewrite (proj2 (Z.eqb_neq image_height 0)) by lia.
  set (a := binary64 (inject_Z image_width / inject_Z image_height)).
  set (dw := ((window_width - 40) / 2)%Z).
  set (mh := (window_height - 250)%Z).
  assert (0 < a) as Ha.
  { subst a. apply binary64_pos, Qlt_shift_div_l.
    - apply inject_Z_pos. lia.
    - rewrite Qmult_0_l. apply inject_Z_pos. lia. }
  assert (Qeq_bool a 0 = false) as ->.
  { apply not_true_iff_false. intros E%Qeq_bool_iff. lra. }
  assert (- 20 ≤ dw < 2 ^ 30)%Z as Hdw.
  { subst dw. split.
    - apply Z.div_le_lower_bound; lia.
    - apply Z.div_lt_upper_bound; lia. }
  assert (binary64 (inject_Z dw) == inject_Z dw) as Edw by (apply binary64_Z; lia).
  assert (binary64 (inject_Z mh) == inject_Z mh) as Emh by (apply binary64_Z; lia).
  set (y := binary64 (inject_Z dw) / a).
  assert (y * a == inject_Z dw) as Hya.
  { subst y. rewrite Edw. field. lra. }
  destruct (Z.ltb_spec mh (trunc (binary64 y))) as [Hclamp|Hfit].
  - set (z := binary64 (inject_Z mh) * a).
    assert (inject_Z mh < y) as Hmy.
    { apply Qnot_le_lt. intros Hle. apply binary64_mono in Hle.
      rewrite Emh in Hle. pose proof (trunc_upper (binary64 y)) as Hu.
      assert (inject_Z (mh + 1) <= inject_Z (trunc (binary64 y))) as Hm
        by (rewrite <- Zle_Qle; lia).
      rewrite inject_Z_plus in Hm. change (inject_Z 1) with 1 in Hm. lra. }
    assert (z <= inject_Z dw) as Hz by (subst z; rewrite Emh; nra).
    eexists _, _. split; [reflexivity|]. split; [lia|]. split.
    { apply trunc_le_int. rewrite <- Edw. by apply binary64_mono. }
    split; [by right|].
    intros H40 H250. split; [|lia]. apply trunc_nonneg, binary64_nonneg.
    subst z. rewrite Emh.
    assert (0 <= inject_Z mh) as H0 by (apply inject_Z_nonneg; lia). nra.
  - eexists _, _. split; [reflexivity|]. split; [lia|]. split; [lia|].
    split; [by left|].
    intros H40 H250.
    assert (0 ≤ dw)%Z as Hdw0 by (subst dw; apply Z.div_pos; lia).
    split; [done|]. apply trunc_nonneg, binary64_nonneg.
    pose proof (inject_Z_nonneg dw Hdw0) as H0. nra.
Qed.

End display.

(** ** sr_gui.py: what the noise branches do to a pixel *)

Section noise_branches.
Context `{Numpy, PIL}.
Import SrGui.
Open Scope Q_scope.

Lemma salt_and_pepper_rgb noise_value noise_mask (a : volume Z) i j m px :
  at2 noise_mask i j = Some m → at2 a i j = Some px →
  ∃ out, salt_and_pepper noise_value noise_mask (Arr3 a) = Arr3 out
         ∧ at2 out i j
           = Some (if Qlt_bool m (noise_value / 2)
                      && negb (Qlt_bool (1 - noise_value / 2) m)
                   then (λ _, 255%Z) <$> px else px).
Proof.
  intros Hm Hx. eexists. split; [reflexivity|].
  assert (at2 (fmap (M:=list) (fmap (M:=list) (fmap (M:=list) (λ _ : Z, 0%Z))) a) i j
          = Some ((λ _, 0%Z) <$> px)) as Hz.
  { rewrite (at2_fmap (fmap (M:=list) (λ _ : Z, 0%Z))). by rewrite Hx. }
  assert (at2 (salt_mask noise_value noise_mask) i j
          = Some (Qlt_bool m (noise_value / 2))) as Hsm
    by by unfold salt_mask; rewrite at2_fmap, Hm.
  assert (at2 (pepper_mask noise_value noise_mask) i j
          = Some (Qlt_bool (1 - noise_value / 2) m)) as Hpm
    by by unfold pepper_mask; rewrite at2_fmap, Hm.
  pose proof (at2_map2 (λ (m : bool) (px : list Z),
                          if m then (λ _, 255%Z) <$> px else px)
                _ _ i j _ _ Hsm Hz) as H1.
  pose proof (at2_map2 (λ (m : bool) (px : list Z),
                          if m then (λ _, 0%Z) <$> px else px)
                _ _ i j _ _ Hpm H1) as H2.
  rewrite (at2_map2 _ _ _ i j _ _ H2 Hx). f_equal.
  destruct (Qlt_bool m _), (Qlt_bool _ m); simpl;
    rewrite <- ?list_fmap_compose, zip_with_fmap_l, zip_with_diag;
    first [ by apply list_fmap_ext
          | (etrans; [|apply list_fmap_id]); by apply list_fmap_ext ].
Qed.

(** X9: in the salt-and-pepper branch a pixel whose draw is below
    [noise_value / 2] and not above [1 - noise_value / 2] comes out with
    every sample 255, and every other pixel comes out as it went in,
    flagged pepper or not; this holds for grey and for colour images. *)
Theorem salt_and_pepper_pixels noise_value noise_mask i j m :
  at2 noise_mask i j = Some m →
  (∀ (a : plane Z) x, at2 a i j = Some x →
     ∃ out, salt_and_pepper noise_value noise_mask (Arr2 a) = Arr2 out
            ∧ at2 out i j
              = Some (if Qlt_bool m (noise_value / 2)
                         && negb (Qlt_bool (1 - noise_value / 2) m)
                      then 255%Z else x))
  ∧ (∀ (a : volume Z) px, at2 a i j = Some px →
     ∃ out, salt_and_pepper noise_value noise_mask (Arr3 a) = Arr3 out
            ∧ at2 out i j
              = Some (if Qlt_bool m (noise_value / 2)
                         && negb (Qlt_bool (1 - noise_value / 2) m)
                      then (λ _, 255%Z) <$> px else px)).
Proof.
  intros Hm. split.
  - intros a x Hx. by apply salt_and_pepper_gray.
  - intros a px Hx. by apply salt_and_pepper_rgb.
Qed.

End noise_branches.

(** ** sr_gui.py and sr_video_gui.py: the additive noise branches *)

Section additive.
Context `{Numpy, PIL}.
Open Scope Q_scope.

Lemma clip_after_wrap x e :
  (np_clip_int (uint8_add x (astype_uint8 e)) 0 255 mod 256
   = (x + trunc e) mod 256)%Z.
Proof.
  unfold np_clip_int, uint8_add, astype_uint8.
  rewrite Zplus_mod_idemp_r.
  pose proof (Z.mod_pos_bound (x + trunc e) 256 ltac:(lia)) as B.
  rewrite Z.max_l, Z.min_l by lia. by rewrite Zmod_mod.
Qed.

Lemma additive_type (noise_type : string) :
  noise_type ≠ "Salt and Pepper"%string → noise_type ≠ "Speckle"%string →
  noise_type ∉ ["Salt and Pepper"; "Speckle"]%string.
Proof.
  intros Hsp Hsk Hin. apply elem_of_cons in Hin as [->|Hin]; [done|].
  apply elem_of_cons in Hin as [->|Hin]; [done|]. by apply elem_of_nil in Hin.
Qed.

Lemma add_noise_wraps (a : array Z) (l : list Q) :
  array_map2 (λ x n, (np_clip_int (uint8_add x n) 0 255 mod 256)%Z) a
    (array_map astype_uint8 (reshape_like a l))
  = array_map2 (λ x e, ((x + trunc e) mod 256)%Z) a (reshape_like a l).
Proof.
  destruct a as [a|a]; simpl; f_equal; unfold map2.
  - rewrite zip_with_fmap_r. apply zip_with_ext; [|done..].
    intros r r'. rewrite zip_with_fmap_r. apply zip_with_ext; [|done..].
    intros. apply clip_after_wrap.
  - rewrite zip_with_fmap_r. apply zip_with_ext; [|done..].
    intros r r'. rewrite zip_with_fmap_r. apply zip_with_ext; [|done..].
    intros p p'. rewrite zip_with_fmap_r. apply zip_with_ext; [|done..].
    intros. apply clip_after_wrap.
Qed.

(** X10: for every noise type other than salt-and-pepper and speckle the
    noise is added modulo 256: each output sample is the enhanced sample
    plus the truncated draw, reduced modulo 256, so the clip to [0, 255]
    never acts and a sum past 255 wraps round instead of saturating.  The
    draw is uniform or exponential for those two names and Gaussian for
    every other name, known or not. *)
Theorem additive_noise_wraps (pil_image : Image)
    (brightness_value contrast_value noise_value : Q)
    (target_size : nat * nat) (noise_type : string) (g : rng_state) :
  noise_type ≠ "Salt and Pepper"%string → noise_type ≠ "Speckle"%string →
  let a := np_array (ImageEnhance_Contrast_enhance
                       (ImageEnhance_Brightness_enhance pil_image brightness_value)
                       contrast_value) in
  let sampler :=
    if bool_decide (noise_type = "Uniform"%string)
    then np_random_uniform (- noise_value * 255) (noise_value * 255)
    else if bool_decide (noise_type = "Exponential"%string)
    then np_random_exponential (noise_value * 255)
    else np_random_normal 0 (noise_value * 255) in
  SrGui.apply_image_modifications pil_image brightness_value contrast_value
    noise_value target_size noise_type g
  = (Image_resize_LANCZOS
       (Image_fromarray
          (array_map2 (λ x e, ((x + trunc e) mod 256)%Z) a
             (reshape_like a (sampler (array_size a) g).1)))
       target_size,
     (sampler (array_size a) g).2).
Proof.
  intros Hsp Hsk a sampler. unfold SrGui.apply_image_modifications.
  fold a. rewrite (bool_decide_eq_false_2 _ Hsp), (bool_decide_eq_false_2 _ Hsk).
  rewrite (bool_decide_eq_true_2 (noise_type ∉ _)) by by apply additive_type.
  subst sampler. unfold SrGui.draw_like.
  repeat case_bool_decide; subst; try done;
    match goal with
    | |- context [?s (array_size a) g] => destruct (s (array_size a) g) as [l g']
    end; simpl; by rewrite add_noise_wraps.
Qed.

(** X11: the video application adds Gaussian noise the same way, modulo
    256, after seeding the generator when a seed is given; without a seed
    it computes what the still-image application computes for the
    Gaussian type. *)
Theorem video_noise_wraps (pil_image : Image)
    (brightness_value contrast_value noise_value : Q)
    (target_size : nat * nat) (noise_seed : option Z) (g : rng_state) :
  let a := np_array (ImageEnhance_Contrast_enhance
                       (ImageEnhance_Brightness_enhance pil_image brightness_value)
                       contrast_value) in
  let g0 := from_option np_random_seed g noise_seed in
  let draw := np_random_normal 0 (noise_value * 255) (array_size a) g0 in
  SrVideoGui.apply_image_modifications pil_image brightness_value contrast_value
    noise_value target_size noise_seed g
  = (Image_resize_LANCZOS
       (Image_fromarray
          (array_map2 (λ x e, ((x + trunc e) mod 256)%Z) a (reshape_like a draw.1)))
       target_size, draw.2)
  ∧ SrVideoGui.apply_image_modifications pil_image brightness_value contrast_value
      noise_value target_size None g
    = SrGui.apply_image_modifications pil_image brightness_value contrast_value
        noise_value target_size "Gaussian" g.
Proof.
  intros a g0 draw. split.
  - unfold SrVideoGui.apply_image_modifications, SrGui.draw_like. fold a.
    replace (match noise_seed with Some s => np_random_seed s | None => g end)
      with g0 by by destruct noise_seed.
    subst draw. destruct (np_random_normal _ _ _ g0) as [l g']. simpl.
    by rewrite add_noise_wraps.
  - unfold SrVideoGui.apply_image_modifications, SrGui.apply_image_modifications.
    rewrite bool_decide_eq_true_2 by done.
    rewrite (bool_decide_eq_true_2 (_ ∉ _)) by by apply additive_type.
    unfold SrGui.draw_like. by destruct (np_random_normal _ _ _ g).
Qed.

End additive.

(** ** The graphical applications at concrete inputs *)

Section gui_examples.
Import Reference.
Open Scope Q_scope.

Lemma display_size_fits_witness :
  ∃ w h, SrGui.display_size 1200 900 7 10 = Some (w, h)
    ∧ (h ≤ 900 - 250)%Z ∧ (w ≤ (1200 - 40) / 2)%Z
    ∧ (w = ((1200 - 40) / 2)%Z ∨ h = (900 - 250)%Z)
    ∧ ((40 ≤ 1200)%Z → (250 ≤ 900)%Z → (0 ≤ w)%Z ∧ (0 ≤ h)%Z).
Proof.
  apply (display_size_fits 1200 900 7 10); lia.
Defined.

(** Two sizes on which the rounding shows: [650 * (7 / 10)] is just below
    455 and [100 * (87 / 20)] just below 435 in binary64. *)
Lemma display_size_rounds :
  SrGui.display_size 1200 900 7 10 = Some (454, 650)%Z
  ∧ SrGui.display_size 1000 350 87 20 = Some (434, 100)%Z
  ∧ SrGui.display_size 1200 900 800 600 = Some (580, 435)%Z.
Proof. repeat split; by vm_compute. Qed.

Lemma salt_and_pepper_pixels_witness :
  ∃ out, SrGui.salt_and_pepper 0.1 [[0.99; 0.01]] (Arr2 [[100; 100]]%Z) = Arr2 out
         ∧ at2 out 0 1 = Some 255%Z.
Proof.
  destruct (salt_and_pepper_pixels 0.1 [[0.99; 0.01]] 0 1 0.01 eq_refl) as [Hg _].
  apply (Hg [[100; 100]]%Z 100%Z eq_refl).
Defined.

Lemma additive_noise_wraps_witness :
  SrGui.apply_image_modifications (H:=numpy) (H0:=pil) (Arr2 [[250; 10]]%Z)
    1 1 0.1 (2, 1)%nat "Poisson" 42%Z
  = SrGui.apply_image_modifications (H:=numpy) (H0:=pil) (Arr2 [[250; 10]]%Z)
      1 1 0.1 (2, 1)%nat "Gaussian" 42%Z.
Proof.
  rewrite (additive_noise_wraps (H:=numpy) (H0:=pil) _ 1 1 0.1 (2, 1)%nat "Poisson" 42%Z)
    by done.
  rewrite (additive_noise_wraps (H:=numpy) (H0:=pil) _ 1 1 0.1 (2, 1)%nat "Gaussian" 42%Z)
    by done.
  reflexivity.
Defined.

End gui_examples.

(** ** sr_video_gui.py: the noise timer *)

Section timers.
Context `{Numpy, PIL, SrVideoGui.PyRandom}.
Import SrVideoGui.

Lemma update_noise_periodically_running (app : App) :
  image_loaded app → is_noise_updating app = true →
  let app' := update_noise_periodically app in
  after_queue app' = S (after_queue app)
  ∧ is_noise_updating app' = true ∧ image_loaded app'.
Proof.
  intros (Ho & Hp & Ht) Hu. unfold update_noise_periodically. rewrite Hu.
  destruct Ho as [o Ho], Hp as [p Hp], Ht as [t Ht].
  rewrite bool_decide_eq_false_2 by (rewrite Ho; done). simpl.
  destruct (random_randint _ _ _) as [seed r]. simpl. rewrite Hp, Ht.
  destruct (apply_image_modifications _ _ _ _ _ _ _) as [photo g]. simpl.
  unfold image_loaded. simpl. rewrite Ho, Hp, Ht. eauto.
Qed.

Lemma handle_running (app : App) (e : Event) :
  image_loaded app → is_noise_updating app = true →
  let app' := handle app e in
  after_queue app' = (after_queue app + (if is_slide e then 1 else 0))%nat
  ∧ is_noise_updating app' = true ∧ image_loaded app'.
Proof.
  intros Hl Hu. destruct e as [s value|]; simpl.
  - unfold update_modifications, start_noise_updates, stop_noise_updates.
    destruct Hl as ([o Ho] & Hp & Ht). simpl. rewrite Ho.
    rewrite bool_decide_eq_true_2 by done.
    destruct (update_noise_periodically_running
                (set_is_noise_updating true
                   (set_is_noise_updating false (set_slider s value app))))
      as (Hq & Hu' & Hl'); [by unfold image_loaded; simpl; rewrite Ho|done|].
    split; [|done]. rewrite Hq. simpl. lia.
  - destruct (after_queue app) as [|n] eqn:Hq; [by rewrite Hq, Nat.add_0_r|].
    destruct (update_noise_periodically_running (set_after_queue n app))
      as (Hq' & Hu' & Hl'); [done..|].
    split; [|done]. rewrite Hq'. simpl. lia.
Qed.

(** X12: moving a slider never cancels a scheduled callback.  Once an
    image is shown and the timer runs, every slider move leaves one more
    callback of [update_noise_periodically] scheduled and every callback
    that comes due schedules its successor, so after any sequence of
    slider moves and timer ticks the number of scheduled callbacks is the
    initial number plus the number of slider moves. *)
Theorem slider_moves_stack_callbacks (events : list Event) (app : App) :
  image_loaded app → is_noise_updating app = true →
  let app' := mainloop events app in
  after_queue app' = (after_queue app + length (filter is_slide events))%nat
  ∧ is_noise_updating app' = true ∧ image_loaded app'.
Proof.
  revert app. induction events as [|e events IH]; intros app Hl Hu.
  - simpl. by rewrite Nat.add_0_r.
  - destruct (handle_running app e Hl Hu) as (Hq & Hu' & Hl').
    destruct (IH (handle app e) Hl' Hu') as (Hq'' & Hu'' & Hl'').
    unfold mainloop in *. simpl in *. split; [|done].
    rewrite Hq'', Hq, filter_cons. destruct (is_slide e); simpl; lia.
Qed.

(** X13: after [stop_noise_updates] the callbacks already scheduled still
    come due, and each returns at once: [n] ticks take [n] callbacks off
    the queue and change nothing else, neither the displayed frame nor
    the seed nor either generator. *)
Theorem stopped_timer_drains (n : nat) (app : App) :
  is_noise_updating app = false →
  mainloop (replicate n Fire) app = set_after_queue (after_queue app - n) app.
Proof.
  revert app. induction n as [|n IH]; intros app Hu.
  - simpl. rewrite Nat.sub_0_r. by destruct app.
  - unfold mainloop in *. simpl. destruct (after_queue app) as [|q] eqn:Hq.
    + rewrite IH by done. rewrite Hq. simpl. destruct app; simpl in *. by rewrite Hq.
    + unfold update_noise_periodically. simpl. rewrite Hu. simpl.
      rewrite IH by done. simpl. done.
Qed.

End timers.

Section timer_examples.
Import Reference SrVideoGui.

Lemma slider_moves_stack_callbacks_witness :
  after_queue
    (mainloop [Slide Noise 0.2%Q; Fire; Slide Brightness 1.5%Q; Fire] running_app)
  = 3%nat.
Proof.
  apply (slider_moves_stack_callbacks
           [Slide Noise 0.2%Q; Fire; Slide Brightness 1.5%Q; Fire] running_app).
  - unfold image_loaded. simpl. eauto.
  - reflexivity.
Defined.

Lemma stopped_timer_drains_witness :
  mainloop [Fire; Fire] (stop_noise_updates running_app)
  = set_after_queue 0 (stop_noise_updates running_app).
Proof. apply (stopped_timer_drains 2 (stop_noise_updates running_app)). reflexivity. Defined.

End timer_examples.

(** ** adaptive-sr.py: a region of interest is processed as a frame of its own *)

Section roi_composition.
Context `{Numpy, OpenCV} `{!NumpyLaws, !OpenCVLaws}.
Import AdaptiveSR.
Implicit Types (σ : world) (frame region : ndarray).

Lemma detect_local_conditions_pure σ region :
  (detect_local_conditions region σ).2 = σ.
Proof.
  unfold detect_local_conditions, bind, deref, lift, ret.
  by destruct (cv2_cvtColor_BGR2GRAY _).
Qed.

Lemma process_channel_run noise_level (ch : plane Z) σ :
  ∃ filtered g,
    (∀ h, process_channel noise_level ch {| heap := h; rng := rng σ |}
          = (Ok filtered, {| heap := h; rng := g |})).
Proof.
  unfold process_channel, bind, normal_like, ret. simpl.
  destruct (np_random_normal _ _ _ _) as [l g]. eauto.
Qed.

(** The filter step reads only the elements its region shows and the
    generator. *)
Lemma _apply_sr_to_region_local h1 h2 g0 region1 region2 noise_level :
  view h1 region1 = view h2 region2 →
  (∃ m g, ∀ h region, (h = h1 ∧ region = region1) ∨ (h = h2 ∧ region = region2) →
     _apply_sr_to_region region noise_level {| heap := h; rng := g0 |}
     = (Ok (whole (fresh (dom h)) m), {| heap := <[fresh (dom h) := m]> h; rng := g |}))
  ∨ (∃ e g, ∀ h region, (h = h1 ∧ region = region1) ∨ (h = h2 ∧ region = region2) →
     _apply_sr_to_region region noise_level {| heap := h; rng := g0 |}
     = (Raise e, {| heap := h; rng := g |})).
Proof.
  intros Hv.
  assert (∀ h region, (h = h1 ∧ region = region1) ∨ (h = h2 ∧ region = region2) →
            view h region = view h1 region1) as Hsame.
  { intros h region [[-> ->]|[-> ->]]; done. }
  assert (∀ h region,
            (h = h1 ∧ region = region1) ∨ (h = h2 ∧ region = region2) →
            _apply_sr_to_region region noise_level {| heap := h; rng := g0 |}
            = match cv2_split (view h1 region1) with
              | [b; g; r] =>
                  bind (for_each (process_channel noise_level) [b; g; r])
                    (λ processed_channels,
                       bind (lift (cv2_merge processed_channels)) alloc)
              | _ => raise ValueError
              end {| heap := h; rng := g0 |}) as Hrun.
  { intros h region Hh. unfold _apply_sr_to_region, bind at 1, deref.
    simpl. by rewrite (Hsame h region Hh). }
  destruct (cv2_split (view h1 region1)) as [|b [|g [|r [|? ?]]]] eqn:Hs;
    try (right; exists ValueError, g0; intros h region Hh;
         by rewrite (Hrun h region Hh)).
  destruct (process_channel_run noise_level b {| heap := h1; rng := g0 |})
    as (fb & g1 & Eb).
  destruct (process_channel_run noise_level g {| heap := h1; rng := g1 |})
    as (fg & g2 & Eg).
  destruct (process_channel_run noise_level r {| heap := h1; rng := g2 |})
    as (fr & g3 & Er).
  simpl in Eb, Eg, Er.
  destruct (cv2_merge [fb; fg; fr]) as [m|e] eqn:Hm.
  - left. exists m, g3. intros h region Hh. rewrite (Hrun h region Hh).
    unfold for_each, bind, ret, lift, alloc. by rewrite Eb, Eg, Er, Hm.
  - right. exists e, g3. intros h region Hh. rewrite (Hrun h region Hh).
    unfold for_each, bind, ret, lift, alloc. by rewrite Eb, Eg, Er, Hm.
Qed.

(** The steps of [apply_sr] after the filter, for a region of interest:
    the processed region is written into the copy of the frame. *)
Lemma finish_roi_run σ frame x y w h noise_level p g :
  frame_ok σ frame 3 →
  is_empty (roi_window frame (x, y, w, h) (view (heap σ) frame)) = false →
  _apply_sr_to_region (getitem_slice frame y (y + h) x (x + w)) noise_level
    {| heap := <[fresh (dom (heap σ)) := view (heap σ) frame]> (heap σ);
       rng := rng σ |}
  = (Ok (whole (fresh (dom (<[fresh (dom (heap σ)) := view (heap σ) frame]> (heap σ)))) p),
     {| heap := <[fresh (dom (<[fresh (dom (heap σ)) := view (heap σ) frame]> (heap σ))) := p]>
                  (<[fresh (dom (heap σ)) := view (heap σ) frame]> (heap σ));
        rng := g |}) →
  row_lengths p = row_lengths (roi_window frame (x, y, w, h) (view (heap σ) frame)) →
  chans 3 p →
  ∃ r σ',
    finish frame (Some (x, y, w, h)) noise_level σ = (Ok r, σ')
    ∧ view (heap σ') r
      = blit (roi_rows frame (x, y, w, h)).1 (roi_cols frame (x, y, w, h)).1 p
          (view (heap σ) frame)
    ∧ rng σ' = g.
Proof.
  intros Hok He Ep Lp Cp. pose proof Hok as (Hb & Hr01 & Hc01 & Hrect & Hch & Hu8).
  destruct (frame_ok_region σ frame 3 (Some (x, y, w, h)) Hok) as [Hrc Hru].
  simpl in Hrc, Hru.
  set (F := view (heap σ) frame) in *.
  set (l1 := fresh (dom (heap σ))) in *.
  set (l2 := fresh (dom (<[l1 := F]> (heap σ)))) in *.
  assert (l2 ∉ dom (<[l1 := F]> (heap σ))) as Hl2 by apply is_fresh.
  rewrite dom_insert in Hl2.
  assert (l2 ≠ l1) as Hl12 by set_solver.
  unfold finish. rewrite (bind_ok _ _ _ _ _ (np_copy_run σ frame)). fold F l1.
  unfold region_of. rewrite (bind_ok _ _ _ _ _ Ep).
  set (roi := (x, y, w, h)) in *.
  set (R := roi_window frame roi F) in *.
  assert (0 < height frame) as Hpos.
  { unfold height. destruct Hrect as [<- _]. subst R. unfold roi_window in He.
    by eapply is_empty_slice2_false. }
  destruct (whole_height_width l1 F _ _ Hrect Hpos) as [Hh Hw].
  destruct (roi_rows frame roi) as [s e] eqn:Hrows.
  destruct (roi_cols frame roi) as [cs ce] eqn:Hcols.
  assert (rect (e - s) (ce - cs) R) as HrectR.
  { subst R. unfold roi_window. rewrite Hrows, Hcols. simpl.
    unfold roi_rows, roi_cols in Hrows, Hcols. simpl in Hrows, Hcols.
    apply slice_indices_range in Hrows, Hcols.
    apply (rect_slice2 _ _ _ _ _ _ _ Hrect); done. }
  assert (rect (e - s) (ce - cs) p) as Hrectp.
  { apply rect_row_lengths. rewrite Lp. by apply rect_row_lengths. }
  assert (getitem_slice (whole l1 F) y (y + h) x (x + w)
          = {| base := l1; row0 := s; row1 := e; col0 := cs; col1 := ce |}) as Ht.
  { by rewrite (getitem_slice_eq frame _ x y w h s e cs ce). }
  assert (view (<[l2:=p]> (<[l1:=F]> (heap σ))) (whole l2 p) = p) as Hvp.
  { by eapply view_whole. }
  assert (view (<[l2:=p]> (<[l1:=F]> (heap σ)))
            {| base := l1; row0 := s; row1 := e; col0 := cs; col1 := ce |} = R)
    as Hvt.
  { unfold view. simpl. rewrite lookup_insert_ne, lookup_insert_eq by done.
    subst R. unfold roi_window. by rewrite Hrows, Hcols. }
  pose proof (setitem_slice_run
                {| heap := <[l2:=p]> (<[l1:=F]> (heap σ)); rng := g |}
                (whole l1 F) y (y + h)%Z x (x + w)%Z _ (whole l2 p) p Ht Hvp)
    as Hset.
  simpl in Hset. rewrite Hvt in Hset.
  rewrite (bind_ok _ _ _ _ _ (Hset (shape_of_chans _ _ 3 Lp Cp Hrc))).
  unfold ret. eexists _, _. split; [reflexivity|].
  cbn [fst snd heap rng base whole]. split; [|done].
  unfold view. cbn [base row0 row1 col0 col1].
  rewrite lookup_alter_eq, lookup_insert_ne, lookup_insert_eq by done.
  cbn [fmap option_fmap option_map default]. unfold whole, id.
  cbn [row0 row1 col0 col1].
  rewrite <- (row_lengths_blit s cs p F).
  replace (length F) with (length (blit s cs p F)).
  2:{ rewrite <- (length_fmap length (blit s cs p F)).
      fold (row_lengths (blit s cs p F)).
      by rewrite row_lengths_blit; unfold row_lengths; rewrite length_fmap. }
  eapply slice2_full, rect_row_lengths. rewrite row_lengths_blit.
  by apply rect_row_lengths.
Qed.

(** The two calls, with a region of interest and on the slice, side by
    side: the same error, or the result of the second written over the
    window of the first, and the same state of the generator. *)
Lemma apply_sr_roi_crop self frame conditions x y w h σ c :
  frame_ok σ frame c →
  match apply_sr self frame conditions (Some (x, y, w, h)) σ,
        apply_sr self (getitem_slice frame y (y + h) x (x + w)) conditions None σ
  with
  | (Ok r, σ'), (Ok r0, σ0) =>
      view (heap σ') r
      = blit (roi_rows frame (x, y, w, h)).1 (roi_cols frame (x, y, w, h)).1
          (view (heap σ0) r0) (view (heap σ) frame)
      ∧ rng σ' = rng σ0
  | (Raise e, σ'), (Raise e0, σ0) => e = e0 ∧ rng σ' = rng σ0
  | _, _ => False
  end.
Proof.
  intros Hok. set (roi := (x, y, w, h)).
  set (crop := getitem_slice frame y (y + h) x (x + w)).
  rewrite !apply_sr_unfold.
  change (region_of frame (Some roi)) with crop.
  change (region_of crop None) with crop.
  pose proof (detect_local_conditions_pure σ crop) as Hpure.
  destruct (detect_local_conditions crop σ) as [[stats|e] σ1] eqn:Ed;
    simpl in Hpure; subst σ1; [|by rewrite !(bind_raise _ _ _ _ _ Ed)].
  rewrite !(bind_ok _ _ _ _ _ Ed).
  destruct (calculate_noise_level self conditions stats.1 stats.2) as [nl|e] eqn:En.
  2:{ assert (lift (calculate_noise_level self conditions stats.1 stats.2) σ
              = (Raise e, σ)) as El by (unfold lift; by rewrite En).
      rewrite <- En. by rewrite !(bind_raise _ _ _ _ _ El). }
  assert (lift (calculate_noise_level self conditions stats.1 stats.2) σ
          = (Ok nl, σ)) as El by (unfold lift; by rewrite En).
  rewrite <- En, !(bind_ok _ _ _ _ _ El). clear El.
  assert (is_empty (roi_window frame roi (view (heap σ) frame)) = false) as He.
  { destruct (is_empty _) eqn:He; [|done].
    rewrite detect_local_conditions_empty in Ed; [done|].
    unfold crop. by rewrite view_getitem_slice. }
  pose proof Hok as (Hb & _ & _ & Hrect & _ & _).
  set (F := view (heap σ) frame) in *.
  set (R := roi_window frame roi F) in *.
  set (l1 := fresh (dom (heap σ))).
  assert (view (<[l1 := F]> (heap σ)) crop = R) as Hva.
  { apply (view_region_of_copy σ frame (Some roi) F (rng σ) Hb). }
  assert (view (<[l1 := R]> (heap σ)) crop = R) as Hvb.
  { apply (view_region_of_copy σ frame (Some roi) R (rng σ) Hb). }
  assert (view (heap σ) crop = R) as Hvc by apply view_getitem_slice.
  destruct (frame_ok_region σ frame c (Some roi) Hok) as [Hrc Hru].
  simpl in Hrc, Hru. fold F R in Hrc, Hru.
  assert (finish crop None nl σ
          = bind (_apply_sr_to_region crop nl) (λ result, ret result)
              {| heap := <[l1 := R]> (heap σ); rng := rng σ |}) as ->.
  { unfold finish. rewrite (bind_ok _ _ _ _ _ (np_copy_run σ crop)).
    by rewrite Hvc. }
  destruct (_apply_sr_to_region_local (<[l1 := F]> (heap σ)) (<[l1 := R]> (heap σ))
              (rng σ) crop crop nl) as [(m & g & Em)|(e & g & Ee)];
    [by rewrite Hva, Hvb| |].
  - pose proof (Em _ _ (or_introl (conj eq_refl eq_refl))) as Ea.
    pose proof (Em _ _ (or_intror (conj eq_refl eq_refl))) as Eb.
    rewrite (bind_ok _ _ _ _ _ Eb). unfold ret.
    assert (nchans R = 3) as Hn.
    { destruct (decide (nchans R = 3)) as [|Hn]; [done|].
      rewrite _apply_sr_to_region_channels in Ea; [done|]. simpl. by rewrite Hva. }
    assert (c = 3) as -> by (by rewrite <- Hn; symmetry; apply nchans_chans).
    destruct (_apply_sr_to_region_ok
                {| heap := <[l1 := F]> (heap σ); rng := rng σ |} crop nl)
      as (p & g' & Ep & Lp & Cp & Up); simpl; rewrite ?Hva; try done.
    simpl in Lp. rewrite Hva in Lp.
    assert (p = m) as ->.
    { rewrite Ea in Ep.
      apply (f_equal (λ out : result ndarray * world,
                        heap out.2 !! fresh (dom (<[l1 := F]> (heap σ))))) in Ep.
      simpl in Ep. rewrite !lookup_insert_eq in Ep. congruence. }
    destruct (finish_roi_run σ frame x y w h nl m g Hok He Ea Lp Cp)
      as (r & σ' & Ef & Hview & Hrng).
    fold roi in Ef. rewrite Ef, Hview. cbn [heap rng]. split; [|done].
    replace (view (<[fresh (dom (<[l1:=R]> (heap σ))):=m]> (<[l1:=R]> (heap σ)))
               (whole (fresh (dom (<[l1:=R]> (heap σ)))) m)) with m; [done|].
    assert (∃ hh ww, rect hh ww R) as (hh & ww & HrectR).
    { unfold R, roi_window.
      destruct (roi_rows frame roi) as [s e] eqn:Hrows.
      destruct (roi_cols frame roi) as [cs ce] eqn:Hcols.
      unfold roi_rows, roi_cols in Hrows, Hcols. simpl in Hrows, Hcols.
      apply slice_indices_range in Hrows, Hcols.
      eexists _, _. apply (rect_slice2 _ _ _ _ _ _ _ Hrect); done. }
    symmetry. eapply view_whole, rect_row_lengths. rewrite Lp.
    by apply rect_row_lengths.
  - pose proof (Ee _ _ (or_introl (conj eq_refl eq_refl))) as Ea.
    pose proof (Ee _ _ (or_intror (conj eq_refl eq_refl))) as Eb.
    rewrite (bind_raise _ _ _ _ _ Eb).
    unfold finish. rewrite (bind_ok _ _ _ _ _ (np_copy_run σ frame)).
    fold F l1. change (region_of frame (Some roi)) with crop.
    unfold roi. rewrite (bind_raise _ _ _ _ _ Ea). done.
Qed.

Lemma blit_full {A} (src dst : list (list A)) :
  row_lengths src = row_lengths dst → blit 0 0 src dst = src.
Proof.
  intros Hrl. unfold blit. apply list_eq. intros i. rewrite list_lookup_imap.
  pose proof (f_equal (λ l, l !! i) Hrl) as Hi. simpl in Hi.
  unfold row_lengths in Hi. rewrite !list_lookup_fmap in Hi.
  rewrite Nat.sub_0_r.
  destruct (src !! i) as [srow|], (dst !! i) as [drow|]; simpl in *; try done.
  injection Hi as Hi. f_equal.
  rewrite <- (app_nil_r srow) at 1. by apply list_inserts_0_l.
Qed.

Lemma getitem_slice_full frame :
  row0 frame ≤ row1 frame → col0 frame ≤ col1 frame →
  getitem_slice frame 0 (0 + Z.of_nat (height frame)) 0 (0 + Z.of_nat (width frame))
  = frame.
Proof.
  intros Hr Hc. unfold getitem_slice, height, width.
  rewrite !slice_indices_inside by lia. destruct frame; simpl in *. f_equal; lia.
Qed.

(** X14: processing a region of interest is cropping, processing the
    crop as a frame of its own, and pasting.  When [apply_sr] with a
    region of interest returns a frame, [apply_sr] without one, run from
    the same state on the slice [frame[y:y+h, x:x+w]], returns a frame
    too; the first result is the input with the second written over the
    window, and the generator ends in the same state.  When the first call
    raises, the second raises the same error. *)
Theorem apply_sr_roi_is_crop_process_paste self frame conditions x y w h σ c :
  frame_ok σ frame c →
  (∀ r σ',
     apply_sr self frame conditions (Some (x, y, w, h)) σ = (Ok r, σ') →
     ∃ r0 σ0,
       apply_sr self (getitem_slice frame y (y + h) x (x + w)) conditions None σ
       = (Ok r0, σ0)
       ∧ view (heap σ') r
         = blit (roi_rows frame (x, y, w, h)).1 (roi_cols frame (x, y, w, h)).1
             (view (heap σ0) r0) (view (heap σ) frame)
       ∧ rng σ' = rng σ0)
  ∧ (∀ e σ',
       apply_sr self frame conditions (Some (x, y, w, h)) σ = (Raise e, σ') →
       ∃ σ0,
         apply_sr self (getitem_slice frame y (y + h) x (x + w)) conditions None σ
         = (Raise e, σ0)
         ∧ rng σ' = rng σ0).
Proof.
  intros Hok. pose proof (apply_sr_roi_crop self frame conditions x y w h σ c Hok) as Hc.
  split.
  - intros r σ' E. rewrite E in Hc.
    destruct (apply_sr self (getitem_slice _ _ _ _ _) conditions None σ)
      as [[r0|e0] σ0]; [|done].
    destruct Hc as [Hv Hg]. by exists r0, σ0.
  - intros e σ' E. rewrite E in Hc.
    destruct (apply_sr self (getitem_slice _ _ _ _ _) conditions None σ)
      as [[r0|e0] σ0]; [done|].
    destruct Hc as [-> Hg]. by exists σ0.
Qed.

(** X15: a region of interest that covers the whole frame is no region of
    interest: with [roi = (0, 0, width, height)] a call returns a frame
    exactly when the call without [roi] does, with the same elements and
    the same state of the generator afterwards. *)
Theorem apply_sr_full_roi_is_no_roi self frame conditions σ c r σ' :
  frame_ok σ frame c →
  apply_sr self frame conditions
    (Some (0, 0, Z.of_nat (width frame), Z.of_nat (height frame)))%Z σ = (Ok r, σ') →
  ∃ r0 σ0,
    apply_sr self frame conditions None σ = (Ok r0, σ0)
    ∧ view (heap σ') r = view (heap σ0) r0
    ∧ rng σ' = rng σ0.
Proof.
  intros Hok E. pose proof Hok as (_ & Hr01 & Hc01 & _).
  pose proof (apply_sr_roi_crop self frame conditions 0 0
                (Z.of_nat (width frame)) (Z.of_nat (height frame)) σ c Hok) as Hc.
  rewrite E, (getitem_slice_full frame Hr01 Hc01) in Hc.
  destruct (apply_sr self frame conditions None σ) as [[r0|e0] σ0] eqn:E0; [|done].
  destruct Hc as [Hv Hg]. exists r0, σ0. split; [done|]. split; [|done].
  destruct (apply_sr_outcome self frame conditions None σ c _ _ Hok E0)
    as (_ & _ & _ & _ & p & Hp & Lp & _).
  simpl in Hp, Lp. rewrite Hv, Hp.
  unfold roi_rows, roi_cols. rewrite !slice_indices_inside by lia. simpl.
  by apply blit_full.
Qed.

End roi_composition.

Section roi_examples.
Import Reference AdaptiveSR.
#[local] Existing Instance numpy_laws.
#[local] Existing Instance opencv_laws.

Lemma apply_sr_roi_is_crop_process_paste_witness :
  ∃ r σ' r0 σ0,
    apply_sr __init__ (whole 1 frame_2x2) midday (Some (0, 0, 1, 1)%Z)
      (world_of frame_2x2) = (Ok r, σ')
    ∧ apply_sr __init__ (getitem_slice (whole 1 frame_2x2) 0 (0 + 1) 0 (0 + 1))
        midday None (world_of frame_2x2) = (Ok r0, σ0)
    ∧ view (heap σ') r
      = blit (roi_rows (whole 1 frame_2x2) (0, 0, 1, 1)%Z).1
          (roi_cols (whole 1 frame_2x2) (0, 0, 1, 1)%Z).1
          (view (heap σ0) r0)
          (view (heap (world_of frame_2x2)) (whole 1 frame_2x2))
    ∧ rng σ' = rng σ0.
Proof.
  destruct (apply_sr_total (whole 1 frame_2x2) midday (Some (0, 0, 1, 1)%Z)
              (world_of frame_2x2) frame_2x2_ok ltac:(by vm_compute))
    as (r & σ' & E).
  destruct (apply_sr_roi_is_crop_process_paste __init__ (whole 1 frame_2x2)
              midday 0 0 1 1 (world_of frame_2x2) 3 frame_2x2_ok) as [Hret _].
  destruct (Hret r σ' E) as (r0 & σ0 & E0 & Hv & Hg).
  exists r, σ', r0, σ0. split; [exact E|]. split; [exact E0|].
  split; [exact Hv|exact Hg].
Defined.

Lemma apply_sr_full_roi_is_no_roi_witness :
  ∃ r σ' r0 σ0,
    apply_sr __init__ (whole 1 frame_2x2) midday (Some (0, 0, 2, 2)%Z)
      (world_of frame_2x2) = (Ok r, σ')
    ∧ apply_sr __init__ (whole 1 frame_2x2) midday None (world_of frame_2x2)
      = (Ok r0, σ0)
    ∧ view (heap σ') r = view (heap σ0) r0
    ∧ rng σ' = rng σ0.
Proof.
  destruct (apply_sr_total (whole 1 frame_2x2) midday (Some (0, 0, 2, 2)%Z)
              (world_of frame_2x2) frame_2x2_ok ltac:(by vm_compute))
    as (r & σ' & E).
  destruct (apply_sr_full_roi_is_no_roi __init__ (whole 1 frame_2x2) midday
              (world_of frame_2x2) 3 r σ' frame_2x2_ok E)
    as (r0 & σ0 & E0 & Hv & Hg).
  exists r, σ', r0, σ0. split; [exact E|]. split; [exact E0|].
  split; [exact Hv|exact Hg].
Defined.

End roi_examples.
